(** * Hybrid retrieval engine of kg-ai-starter: graph store, traversal,
      vector search and the chat route, embedded and verified.

    The SQL schema and helper functions (tables [kg_nodes], [kg_edges],
    [document_chunks]; functions [get_connected_nodes], [find_shortest_path],
    [search_nodes_semantic], [search_chunks_semantic]) are embedded as
    functions over lists of rows, a table being the list of its rows in heap
    order.  The chat route ([POST], [tools], [createSafeExecute],
    [generateEmbedding]) is embedded with explicit state passing: a tool's
    [execute] takes the store and returns a value or a thrown error. *)

From Stdlib Require Import List Bool ZArith NArith QArith String Ascii Lia.
From Stdlib Require Import Sorted Permutation Lqa Qround Qabs Qpower.
Import ListNotations.
Local Open Scope Z_scope.
Set Warnings "-register-all".

(* ================================================================= *)
(** ** SQL building blocks *)

Module Sql.

Section OrderBy.
Context {A : Type}.
Variable le : A -> A -> bool.

  (** [ORDER BY] as a stable insertion sort: among rows the ordering does
      not separate, heap order is kept (PostgreSQL leaves that order
      unspecified; no theorem below depends on it). *)
Fixpoint insert_row (x : A) (l : list A) : list A :=
    match l with
    | [] => [x]
    | y :: tl => if le x y then x :: y :: tl else y :: insert_row x tl
    end.

Definition order_by (l : list A) : list A := fold_right insert_row [] l.
End OrderBy.

Section DistinctOn.
Context {A K : Type}.
Variable key : A -> K.
Variable key_eqb : K -> K -> bool.

  (** [SELECT DISTINCT ON (key)] over sorted input: a row is kept when its
      key differs from the key of the last row kept. *)
Fixpoint distinct_on_from (prev : option K) (l : list A) : list A :=
    match l with
    | [] => []
    | x :: tl =>
        if match prev with Some k => key_eqb k (key x) | None => false end
        then distinct_on_from prev tl
        else x :: distinct_on_from (Some (key x)) tl
    end.

Definition distinct_on (l : list A) : list A := distinct_on_from None l.
End DistinctOn.

Section WithRecursive.
Context {R : Type}.
Variable step : list R -> list R.

  (** [WITH RECURSIVE t AS (base UNION ALL step)]: the working table starts
      as the base rows; each round appends the working table to the result
      and replaces it by [step] of itself; evaluation ends when the working
      table is empty.  [fuel] bounds the number of rounds; [None] means the
      bound was hit before the working table emptied. *)
Fixpoint with_recursive (fuel : nat) (work : list R) : option (list R) :=
    match work with
    | [] => Some []
    | _ :: _ =>
        match fuel with
        | O => None
        | S f => option_map (app work) (with_recursive f (step work))
        end
    end.

  (** The working table of round [k]. *)
Fixpoint round (k : nat) (work : list R) : list R :=
    match k with
    | O => work
    | S k' => round k' (step work)
    end.
End WithRecursive.

(** [LIMIT n]: a negative count is an error in PostgreSQL
    ("LIMIT must not be negative"). *)
Definition limit {A : Type} (n : Z) (l : list A) : option (list A) :=
  if n <? 0 then None else Some (firstn (Z.to_nat n) l).

End Sql.

(* ================================================================= *)
(** ** Data model: the tables of the schema *)

(** [UUID]: 128 bits, compared as unsigned big-endian numbers. *)
Definition uuid := N.

(** [JSONB] payloads in their canonical text form. *)
Definition jsonb := string.

(** pgvector's [vector(1536)]. *)
Definition vector := list Q.

(** A JavaScript string as its UTF-16 code units; text that JavaScript
    cuts or measures ([slice], [substring], [length], [trim]) is held in
    this form. *)
Definition js_string := list N.

(** The code units of a string of ASCII characters. *)
Definition js (s : string) : js_string :=
  map (fun c => N.of_nat (nat_of_ascii c)) (list_ascii_of_string s).

(** The errors of the store that the code can meet. *)
Inductive sql_error :=
| unique_violation (constraint_name : string)        (* SQLSTATE 23505 *)
| foreign_key_violation (constraint_name : string)   (* SQLSTATE 23503 *)
| invalid_row_count_in_limit_clause                  (* negative LIMIT *)
| numeric_value_out_of_range                         (* 22003, float8 overflow *)
| string_data_right_truncation                       (* 22001, value too long *)
| data_exception                                     (* 22000, vector dimensions *)
| connection_error.                                  (* store unreachable *)

(* ----------------------------------------------------------------- *)
(** *** float8 *)

(** [FLOAT] (float8) is an IEEE 754 double.  A finite double is given by
    its value, a rational number; the two zeros are one value here, as they
    are for every comparison and sum below.  A nullable float column is an
    [option float8], [None] being SQL NULL. *)
Inductive float8 :=
| F8 (q : Q)
| Infinity (negative : bool)
| NaN.

Definition pow2 (e : Z) : Q := (2 ^ e)%Q.

(** The binade of a positive rational [q]: the [b] with [2^b <= q <
    2^(b+1)]. *)
Definition binade (q : Q) : Z :=
  let d := Z.log2 (Qnum q) - Z.log2 (Zpos (Qden q)) in
  if Qle_bool (pow2 d) q then d else d - 1.

(** The nearest integer, ties to the even one. *)
Definition round_half_even (x : Q) : Z :=
  let f := Qfloor x in
  match (x - inject_Z f ?= 1 # 2)%Q with
  | Lt => f
  | Gt => f + 1
  | Eq => if Z.even f then f else f + 1
  end.

(** The nearest number with 53 significant bits and an exponent of at
    least -1074 (the spacing of the subnormal doubles). *)
Definition round_positive (q : Q) : Q :=
  let e := Z.max (binade q - 52) (-1074) in
  (inject_Z (round_half_even (q / pow2 e)) * pow2 e)%Q.

(** Rounding of a real result to double precision, the exponent not yet
    bounded from above; the result is in lowest terms. *)
Definition round_float8 (q : Q) : Q :=
  Qred (match (q ?= 0)%Q with
        | Eq => 0
        | Gt => round_positive q
        | Lt => - round_positive (- q)
        end).

(** A rounded result of magnitude [2^1024] or more is an infinity. *)
Definition overflows (r : Q) : bool := Qle_bool (pow2 1024) (Qabs r).

(** [float8pl], the [+] of float8: PostgreSQL raises "value out of range:
    overflow" when the sum of two finite numbers is infinite. *)
Definition float8pl (a b : float8) : sql_error + float8 :=
  match a, b with
  | NaN, _ | _, NaN => inr NaN
  | Infinity x, Infinity y => if Bool.eqb x y then inr (Infinity x) else inr NaN
  | Infinity x, F8 _ | F8 _, Infinity x => inr (Infinity x)
  | F8 x, F8 y =>
      let r := round_float8 (x + y) in
      if overflows r then inl numeric_value_out_of_range else inr (F8 r)
  end.

(** [1 - x] for a distance [x] of the operator [<=>], which lies between
    0 and 2 or is NaN: the subtraction cannot overflow there. *)
Definition float8_one_minus (x : float8) : float8 :=
  match x with
  | F8 q => F8 (round_float8 (1 - q))
  | Infinity negative => Infinity (negb negative)
  | NaN => NaN
  end.

(** The order of float8 in comparisons and in [ORDER BY]: the order of the
    numbers, with NaN equal to itself and above every other value. *)
Definition float8_leb (a b : float8) : bool :=
  match a, b with
  | _, NaN => true
  | NaN, _ => false
  | Infinity true, _ => true
  | _, Infinity false => true
  | F8 x, F8 y => Qle_bool x y
  | _, _ => false
  end.

(** Row of [kg_nodes] (the timestamps are left out: no function reads
    them). *)
Record kg_node := mk_node {
  n_id : uuid;                     (* id UUID PRIMARY KEY *)
  n_label : string;                (* label VARCHAR(255) NOT NULL *)
  n_type : option string;          (* type VARCHAR(100) *)
  n_properties : option jsonb;     (* properties JSONB DEFAULT '{}' *)
  n_embedding : option vector      (* embedding vector(1536) *)
}.

(** Row of [kg_edges]. *)
Record kg_edge := mk_edge {
  e_id : uuid;                     (* id UUID PRIMARY KEY *)
  source_id : uuid;                (* NOT NULL REFERENCES kg_nodes(id) *)
  target_id : uuid;                (* NOT NULL REFERENCES kg_nodes(id) *)
  relationship : string;           (* VARCHAR(255) NOT NULL *)
  e_properties : option jsonb;     (* JSONB DEFAULT '{}' *)
  weight : option float8           (* FLOAT DEFAULT 1.0 *)
}.

(** Row of [document_chunks]. *)
Record document_chunk := mk_chunk {
  c_id : uuid;
  document_id : option uuid;       (* REFERENCES documents(id) *)
  chunk_index : Z;
  c_content : js_string;           (* content TEXT NOT NULL *)
  c_embedding : option vector;
  c_metadata : option jsonb
}.

Record store := mk_store {
  kg_nodes : list kg_node;
  kg_edges : list kg_edge;
  document_chunks : list document_chunk
}.

Definition mem_uuid (x : uuid) (l : list uuid) : bool := existsb (N.eqb x) l.

Definition node_exists (s : store) (x : uuid) : bool :=
  existsb (fun n => N.eqb (n_id n) x) (kg_nodes s).

(* ================================================================= *)
(** ** get_connected_nodes *)

(** Row of the recursive CTE [node_graph] and of the function's result. *)
Record node_graph_row := mk_ng {
  node_id : uuid;
  label : string;
  type : option string;
  properties : option jsonb;
  depth : Z;
  path : list uuid
}.

Definition node_graph_row_eq_dec (a b : node_graph_row) : {a = b} + {a <> b}.
Proof.
  decide equality;
    try apply Z.eq_dec; try apply N.eq_dec; try apply string_dec;
    try (apply list_eq_dec; apply N.eq_dec);
    decide equality; apply string_dec.
Defined.

Section ConnectedNodes.
Variable s : store.
Variable start : uuid.        (* $1, node_id *)
Variable max_depth : Z.       (* $2, max_depth INT DEFAULT 2 *)

  (** Base case: the start node at depth 0 with path [ARRAY[n.id]]. *)
Definition node_graph_base : list node_graph_row :=
    map (fun n => mk_ng (n_id n) (n_label n) (n_type n) (n_properties n) 0 [n_id n])
        (filter (fun n => N.eqb (n_id n) start) (kg_nodes s)).

  (** The join of one working row [ng] with one edge [e] and one node [n]. *)
Definition node_graph_join (ng : node_graph_row) (e : kg_edge) (n : kg_node)
    : list node_graph_row :=
    if ((N.eqb (source_id e) (node_id ng) && N.eqb (target_id e) (n_id n))
        || (N.eqb (target_id e) (node_id ng) && N.eqb (source_id e) (n_id n)))
       && (depth ng <? max_depth)
       && negb (mem_uuid (n_id n) (path ng))
    then [mk_ng (n_id n) (n_label n) (n_type n) (n_properties n)
                (depth ng + 1) (path ng ++ [n_id n])]
    else [].

  (** Recursive case: [SELECT DISTINCT ... FROM node_graph ng JOIN kg_edges e
      ON (...) JOIN kg_nodes n ON (...) WHERE ng.depth < $2 AND NOT n.id =
      ANY(ng.path)]. *)
Definition node_graph_step (work : list node_graph_row) : list node_graph_row :=
    nodup node_graph_row_eq_dec
      (flat_map (fun ng =>
         flat_map (fun e =>
           if N.eqb (node_id ng) (source_id e) || N.eqb (node_id ng) (target_id e)
           then flat_map (node_graph_join ng e) (kg_nodes s)
           else [])
         (kg_edges s))
       work).

  (** [ORDER BY node_id, depth]. *)
Definition by_node_id_depth (a b : node_graph_row) : bool :=
    N.ltb (node_id a) (node_id b)
    || (N.eqb (node_id a) (node_id b) && (depth a <=? depth b)).

Definition node_graph (fuel : nat) : option (list node_graph_row) :=
    Sql.with_recursive node_graph_step fuel node_graph_base.

Definition select_connected (rows : list node_graph_row) : list node_graph_row :=
    Sql.distinct_on node_id N.eqb (Sql.order_by by_node_id_depth rows).
End ConnectedNodes.

(** The function as the database runs it.  Every round raises [depth] by
    one and a row is extended only while [depth < max_depth], so
    [max_depth + 1] rounds always empty the working table
    ([node_graph_total] below). *)
Definition get_connected_nodes (s : store) (node : uuid) (max_depth : Z)
  : option (list node_graph_row) :=
  option_map select_connected
    (node_graph s node max_depth (S (Z.to_nat max_depth))).

(* ================================================================= *)
(** ** find_shortest_path *)

(** Row of the recursive CTE [paths].  The evaluation of [p.total_weight +
    e.weight] can raise an error, which ends the whole statement: a row
    whose sum failed carries the error instead of a weight, and
    [find_shortest_path] below answers with the error when any row of the
    table carries one. *)
Record paths_row := mk_paths {
  p_path : list uuid;
  total_weight : sql_error + option float8;
  current_node : uuid
}.

(** Float addition; the operator is strict: NULL absorbs and nothing is
    computed. *)
Definition float8_add (a b : option float8) : sql_error + option float8 :=
  match a, b with
  | Some x, Some y =>
      match float8pl x y with
      | inr r => inr (Some r)
      | inl e => inl e
      end
  | _, _ => inr None
  end.

(** [p.total_weight + e.weight] along a path. *)
Definition accumulate (w : sql_error + option float8) (x : option float8)
  : sql_error + option float8 :=
  match w with
  | inr a => float8_add a x
  | inl e => inl e
  end.

(** The order of [ORDER BY ... ASC]: NULLs come last. *)
Definition float8_le (a b : option float8) : bool :=
  match a, b with
  | Some x, Some y => float8_leb x y
  | _, None => true
  | None, Some _ => false
  end.

(** The weight of a row whose sums all succeeded. *)
Definition weight_of (p : paths_row) : option float8 :=
  match total_weight p with
  | inr w => w
  | inl _ => None
  end.

Section ShortestPath.
Variable s : store.
Variable start_id end_id : uuid.
Variable max_depth : Z.          (* max_depth INT DEFAULT 10 *)

(** Base case: [SELECT ARRAY[start_id], 0::FLOAT, start_id WHERE EXISTS
    (SELECT 1 FROM kg_nodes WHERE id = start_id)]. *)
Definition paths_base : list paths_row :=
  if node_exists s start_id then [mk_paths [start_id] (inr (Some (F8 0))) start_id]
  else [].

(** Recursive case: [FROM paths p JOIN kg_edges e ON e.source_id =
    p.current_node WHERE NOT e.target_id = ANY(p.path) AND
    array_length(p.path, 1) < max_depth].  No DISTINCT here. *)
Definition paths_join (p : paths_row) (e : kg_edge) : list paths_row :=
  if N.eqb (source_id e) (current_node p)
     && negb (mem_uuid (target_id e) (p_path p))
     && (Z.of_nat (List.length (p_path p)) <? max_depth)
  then [mk_paths (p_path p ++ [target_id e])
                 (accumulate (total_weight p) (weight e))
                 (target_id e)]
  else [].

Definition paths_step (work : list paths_row) : list paths_row :=
  flat_map (fun p => flat_map (paths_join p) (kg_edges s)) work.

Definition paths (fuel : nat) : option (list paths_row) :=
  Sql.with_recursive paths_step fuel paths_base.

(** [SELECT path, total_weight FROM paths WHERE current_node = end_id
    ORDER BY total_weight ASC LIMIT 1]. *)
Definition select_shortest (rows : list paths_row) : list (list uuid * option float8) :=
  map (fun p => (p_path p, weight_of p))
    (firstn 1
       (Sql.order_by (fun a b => float8_le (weight_of a) (weight_of b))
          (filter (fun p => N.eqb (current_node p) end_id) rows))).
End ShortestPath.

(** The error of the first row whose sum failed. *)
Fixpoint first_error (rows : list paths_row) : option sql_error :=
  match rows with
  | [] => None
  | p :: rest =>
      match total_weight p with
      | inl e => Some e
      | inr _ => first_error rest
      end
  end.

(** The function as the database runs it: an error when a sum overflowed,
    otherwise a table, the empty table being the "not found" answer.  A row
    is extended only while its path has fewer than [max_depth] elements, so
    [max_depth + 1] rounds empty the working table ([paths_total] below). *)
Definition find_shortest_path (s : store) (start_id end_id : uuid) (max_depth : Z)
  : option (sql_error + list (list uuid * option float8)) :=
  option_map (fun rows =>
                match first_error rows with
                | Some e => inl e
                | None => inr (select_shortest end_id rows)
                end)
    (paths s start_id max_depth (S (Z.to_nat max_depth))).

(* ================================================================= *)
(** ** The graph store: constraints of the schema and its operations *)

(** The rows below hold the values as they are stored.  A statement first
    converts its parameters to the types of the columns, which can fail:
    [varchar] for [VARCHAR(n)], [vector_1536] for [vector(1536)]. *)

(** The bytes [10xxxxxx] of UTF-8, which continue a character. *)
Definition is_continuation (c : ascii) : bool :=
  (128 <=? nat_of_ascii c)%nat && (nat_of_ascii c <? 192)%nat.

(** The first [n] characters of a UTF-8 text and what follows them. *)
Fixpoint split_chars (n : nat) (s : string) : string * string :=
  match s with
  | EmptyString => (EmptyString, EmptyString)
  | String c rest =>
      if is_continuation c
      then let (kept, excess) := split_chars n rest in (String c kept, excess)
      else match n with
           | O => (EmptyString, s)
           | S k => let (kept, excess) := split_chars k rest in (String c kept, excess)
           end
  end.

Fixpoint all_spaces (s : string) : bool :=
  match s with
  | EmptyString => true
  | String c rest => (nat_of_ascii c =? 32)%nat && all_spaces rest
  end.

(** Assignment to a [VARCHAR(n)] column: a text of more than [n]
    characters is refused ("value too long for type character varying"),
    unless the characters beyond the [n]-th are all spaces, which are cut
    off. *)
Definition varchar (n : nat) (s : string) : sql_error + string :=
  let (kept, excess) := split_chars n s in
  if all_spaces excess then inr kept else inl string_data_right_truncation.

(** Assignment to a [vector(1536)] column. *)
Definition vector_1536 (v : list Q) : sql_error + vector :=
  if (List.length v =? 1536)%nat then inr v else inl data_exception.

Definition same_triple (a b : kg_edge) : bool :=
  N.eqb (source_id a) (source_id b)
  && N.eqb (target_id a) (target_id b)
  && String.eqb (relationship a) (relationship b).

(** [INSERT INTO kg_nodes]: the primary key is the only constraint.  The
    list takes the new row at its end; the place at which the database
    stores a row, and with it the order of a scan without [ORDER BY], is
    not determined ([nodes_reordered] below). *)
Definition insert_node (s : store) (n : kg_node) : sql_error + store :=
  if node_exists s (n_id n) then inl (unique_violation "kg_nodes_pkey")
  else inr (mk_store (kg_nodes s ++ [n]) (kg_edges s) (document_chunks s)).

(** [INSERT INTO kg_edges]: the unique indexes (primary key, then
    [UNIQUE(source_id, target_id, relationship)]) are checked when the row
    is inserted, the two foreign keys at the end of the statement. *)
Definition insert_edge (s : store) (e : kg_edge) : sql_error + store :=
  if existsb (fun x => N.eqb (e_id x) (e_id e)) (kg_edges s)
  then inl (unique_violation "kg_edges_pkey")
  else if existsb (same_triple e) (kg_edges s)
  then inl (unique_violation "kg_edges_source_id_target_id_relationship_key")
  else if negb (node_exists s (source_id e))
  then inl (foreign_key_violation "kg_edges_source_id_fkey")
  else if negb (node_exists s (target_id e))
  then inl (foreign_key_violation "kg_edges_target_id_fkey")
  else inr (mk_store (kg_nodes s) (kg_edges s ++ [e]) (document_chunks s)).

(** [DELETE FROM kg_nodes WHERE cond]: [ON DELETE CASCADE] removes the
    edges whose source or target is deleted. *)
Definition delete_nodes (s : store) (cond : kg_node -> bool) : store :=
  mk_store
    (filter (fun n => negb (cond n)) (kg_nodes s))
    (filter (fun e =>
               negb (existsb (fun n => cond n
                                       && (N.eqb (n_id n) (source_id e)
                                           || N.eqb (n_id n) (target_id e)))
                             (kg_nodes s)))
            (kg_edges s))
    (document_chunks s).

(** [DELETE FROM kg_edges WHERE cond]. *)
Definition delete_edges (s : store) (cond : kg_edge -> bool) : store :=
  mk_store (kg_nodes s) (filter (fun e => negb (cond e)) (kg_edges s))
           (document_chunks s).

(** [UPDATE kg_nodes SET embedding = v WHERE id = x]: the parameter is
    converted to [vector(1536)] first.  The list keeps the row at its
    place; the database writes a new version of the row, and the place at
    which a later scan meets it is not determined ([nodes_reordered]
    below). *)
Definition update_node_embedding (s : store) (x : uuid) (v : list Q) : sql_error + store :=
  match vector_1536 v with
  | inl e => inl e
  | inr v' =>
      inr (mk_store
             (map (fun n => if N.eqb (n_id n) x
                            then mk_node (n_id n) (n_label n) (n_type n) (n_properties n)
                                         (Some v')
                            else n) (kg_nodes s))
             (kg_edges s) (document_chunks s))
  end.

(** The statements the repository issues against the graph tables. *)
Inductive store_op :=
| InsertNode (n : kg_node)
| InsertEdge (e : kg_edge)
| DeleteNodes (cond : kg_node -> bool)
| DeleteEdges (cond : kg_edge -> bool)
| UpdateNodeEmbedding (x : uuid) (v : list Q).

Definition apply_op (s : store) (op : store_op) : sql_error + store :=
  match op with
  | InsertNode n => insert_node s n
  | InsertEdge e => insert_edge s e
  | DeleteNodes c => inr (delete_nodes s c)
  | DeleteEdges c => inr (delete_edges s c)
  | UpdateNodeEmbedding x v => update_node_embedding s x v
  end.

(** A failed statement leaves the tables as they were. *)
Definition after (s : store) (op : store_op) : store :=
  match apply_op s op with
  | inl _ => s
  | inr s' => s'
  end.

Definition empty_store : store := mk_store [] [] [].

(** The stores that sequences of statements build from empty tables. *)
Inductive reachable_store : store -> Prop :=
| reach_empty : reachable_store empty_store
| reach_op s op : reachable_store s -> reachable_store (after s op).

(** [UNIQUE(source_id, target_id, relationship)]. *)
Definition triple (e : kg_edge) : uuid * uuid * string :=
  (source_id e, target_id e, relationship e).

Definition unique_triples (s : store) : Prop := NoDup (map triple (kg_edges s)).

(** Both [REFERENCES kg_nodes(id)] constraints. *)
Definition edges_reference_nodes (s : store) : Prop :=
  forall e, In e (kg_edges s) ->
    node_exists s (source_id e) = true /\ node_exists s (target_id e) = true.

(** [t] holds the rows of [s] with the rows of [kg_nodes] in another heap
    order: what a scan of the table can meet after the rows of [s] were
    written. *)
Definition nodes_reordered (s t : store) : Prop :=
  Permutation (kg_nodes s) (kg_nodes t) /\
  kg_edges t = kg_edges s /\ document_chunks t = document_chunks s.

(* ================================================================= *)
(** ** Graph notions the properties are stated with *)

(** [u] and [v] are joined by an edge, in either direction. *)
Definition adjacent (s : store) (u v : uuid) : Prop :=
  exists e, In e (kg_edges s) /\
    ((source_id e = u /\ target_id e = v) \/ (target_id e = u /\ source_id e = v)).

(** [v] is reachable from [start] by [k] edges followed from either
    endpoint. *)
Inductive reach (s : store) (start : uuid) : nat -> uuid -> Prop :=
| reach_O : reach s start O start
| reach_S k u v : reach s start k u -> adjacent s u v -> reach s start (S k) v.

(** Simple undirected paths from [start], as node sequences. *)
Inductive upath (s : store) (start : uuid) : list uuid -> uuid -> Prop :=
| upath_start : upath s start [start] start
| upath_snoc p u v :
    upath s start p u -> adjacent s u v -> ~ In v p -> upath s start (p ++ [v]) v.

(** Simple directed paths from [start]: the node sequence, the weight
    accumulated along the edges taken in float8 arithmetic (parallel edges
    give different paths; [inl] when a sum on the way overflows) and the
    end node. *)
Inductive dpath (s : store) (start : uuid)
  : list uuid -> sql_error + option float8 -> uuid -> Prop :=
| dpath_start : dpath s start [start] (inr (Some (F8 0))) start
| dpath_snoc p w u e :
    dpath s start p w u -> In e (kg_edges s) -> source_id e = u ->
    ~ In (target_id e) p ->
    dpath s start (p ++ [target_id e]) (accumulate w (weight e)) (target_id e).

(** The paths [find_shortest_path] extends its search to: the start node
    alone, or a path of at most [max_depth] nodes, that is of at most
    [max_depth - 1] edges. *)
Definition within_depth_bound (max_depth : Z) (p : list uuid) : Prop :=
  List.length p = 1%nat \/ Z.of_nat (List.length p) <= max_depth.

(** The number of edges of a path. *)
Definition edges_of (p : list uuid) : Z := Z.of_nat (List.length p) - 1.

(* ================================================================= *)
(** ** Scenario data *)

(** The graph of the specification's scenarios: A = 1, B = 2, C = 3, with
    edges A->B ("x", 1), B->C ("y", 1), A->C ("z", 5). *)
Definition nodeA := mk_node 1%N "A" None None None.
Definition nodeB := mk_node 2%N "B" None None None.
Definition nodeC := mk_node 3%N "C" None None None.
Definition edgeAB := mk_edge 11%N 1%N 2%N "x" None (Some (F8 1)).
Definition edgeBC := mk_edge 12%N 2%N 3%N "y" None (Some (F8 1)).
Definition edgeAC := mk_edge 13%N 1%N 3%N "z" None (Some (F8 5)).
Definition abc_store := mk_store [nodeA; nodeB; nodeC] [edgeAB; edgeBC; edgeAC] [].

Definition id_depth (r : node_graph_row) : uuid * Z := (node_id r, depth r).

(* ================================================================= *)
(** ** search_nodes_semantic, search_chunks_semantic *)

(** Result row of [search_nodes_semantic]. *)
Record node_match := mk_node_match {
  nm_id : uuid;
  nm_label : string;
  nm_type : option string;
  nm_properties : option jsonb;
  nm_similarity : option float8
}.

(** Result row of [search_chunks_semantic]. *)
Record chunk_match := mk_chunk_match {
  cm_id : uuid;
  cm_document_id : option uuid;
  cm_content : js_string;
  cm_metadata : option jsonb;
  cm_similarity : option float8
}.

(** [a > b] in a WHERE clause: a NULL comparison does not select; a NaN
    is above every number. *)
Definition float8_gt (a : option float8) (b : float8) : bool :=
  match a with
  | Some x => negb (float8_leb x b)
  | None => false
  end.

Section VectorIndex.
(** pgvector's cosine distance operator [<=>], which the schema takes from
    the [vector] extension; its value is NaN when one of the vectors is
    zero. *)
Variable cosine_distance : vector -> vector -> float8.

Variable query_embedding : vector.
Variable match_threshold : float8.   (* FLOAT DEFAULT 0.7 *)
Variable match_count : Z.            (* INT DEFAULT 10 *)

(** [embedding <=> query_embedding], NULL on a NULL embedding. *)
Definition distance_to (embedding : option vector) : option float8 :=
  option_map (fun v => cosine_distance v query_embedding) embedding.

(** [1 - (embedding <=> query_embedding)]. *)
Definition similarity_to (embedding : option vector) : option float8 :=
  option_map float8_one_minus (distance_to embedding).

(** [WHERE embedding IS NOT NULL AND 1 - (embedding <=> query_embedding) >
    match_threshold]. *)
Definition is_match (embedding : option vector) : bool :=
  match embedding with Some _ => true | None => false end
  && float8_gt (similarity_to embedding) match_threshold.

(** The WHERE and ORDER BY clauses the two functions share: [ORDER BY
    embedding <=> query_embedding].  Both embedding columns carry an
    ivfflat index ([idx_nodes_embedding], [idx_chunks_embedding]), which is
    approximate: when the statement is answered from the index, only the
    rows of the lists it probes are met.  [visited] tells which rows the
    scan meets; a sequential scan meets them all. *)
Definition ranked_matches {Row : Type} (embedding_of : Row -> option vector)
           (visited : Row -> bool) (table : list Row) : list Row :=
  Sql.order_by
    (fun a b => float8_le (distance_to (embedding_of a)) (distance_to (embedding_of b)))
    (filter (fun r => is_match (embedding_of r)) (filter visited table)).

Definition search_nodes_semantic (visited : uuid -> bool) (s : store)
  : option (list node_match) :=
  Sql.limit match_count
    (map (fun n => mk_node_match (n_id n) (n_label n) (n_type n) (n_properties n)
                                 (similarity_to (n_embedding n)))
         (ranked_matches n_embedding (fun n => visited (n_id n)) (kg_nodes s))).

Definition search_chunks_semantic (visited : uuid -> bool) (s : store)
  : option (list chunk_match) :=
  Sql.limit match_count
    (map (fun c => mk_chunk_match (c_id c) (document_id c) (c_content c) (c_metadata c)
                                  (similarity_to (c_embedding c)))
         (ranked_matches c_embedding (fun c => visited (c_id c)) (document_chunks s))).
End VectorIndex.

(** A scan that meets every row. *)
Definition every_row (id : uuid) : bool := true.

(** The value of [<=>] on vectors of norm 1 (the embeddings of the
    OpenAI models are normalised), one minus the dot product, and on a zero
    vector, NaN. *)
Definition dot (a b : vector) : Q :=
  fold_right Qplus 0%Q (map (fun xy => (fst xy * snd xy)%Q) (combine a b)).

Definition is_zero_vector (a : vector) : bool := forallb (fun x => Qeq_bool x 0) a.

Definition unit_cosine_distance (a b : vector) : float8 :=
  if is_zero_vector a || is_zero_vector b then NaN
  else F8 (round_float8 (1 - dot a b)).

(** [x] before [y] in a result: descending similarity, ties allowed, the
    rows whose similarity is NaN (they are the last in the order of the
    distance) after all others. *)
Definition similarity_ge (x y : option float8) : Prop :=
  exists a b, x = Some a /\ y = Some b /\
    (b = NaN \/ (a <> NaN /\ float8_leb b a = true)).

(** Descending without ties, in the order of float8. *)
Definition similarity_gt (x y : option float8) : Prop :=
  exists a b, x = Some a /\ y = Some b /\ float8_leb a b = false.

(** Vectors of dimension 1536 from their leading components. *)
Definition pad_1536 (v : list Q) : vector := v ++ repeat 0%Q (1536 - List.length v).

(** Unit vectors with similarity 1, 3/4 and 1/2 to the first of them, and
    the zero vector. *)
Definition unit_e1 : vector := pad_1536 [1%Q].
Definition unit_e2 : vector := pad_1536 [3 # 4; 1 # 2; 1 # 4; 1 # 4; 1 # 4]%Q.
Definition unit_e3 : vector := pad_1536 [1 # 2; 1 # 2; 1 # 2; 1 # 2]%Q.
Definition zero_1536 : vector := pad_1536 [].

(** Three stored candidates (nodes and chunks) with embeddings [e1], [e2],
    [e3], stored in the order 3, 2, 1. *)
Definition candidates (e1 e2 e3 : vector) : store :=
  mk_store
    [mk_node 3%N "c" None None (Some e3);
     mk_node 2%N "b" None None (Some e2);
     mk_node 1%N "a" None None (Some e1)]
    []
    [mk_chunk 3%N None 2 (js "c") (Some e3) None;
     mk_chunk 2%N None 1 (js "b") (Some e2) None;
     mk_chunk 1%N None 0 (js "a") (Some e1) None].

(** Two nodes and two chunks that carry the same embedding, and a node and
    a chunk whose embedding is the zero vector. *)
Definition twins : store :=
  mk_store
    [mk_node 1%N "a" None None (Some unit_e1);
     mk_node 2%N "b" None None (Some unit_e1);
     mk_node 3%N "z" None None (Some zero_1536)]
    []
    [mk_chunk 1%N None 0 (js "a") (Some unit_e1) None;
     mk_chunk 2%N None 1 (js "b") (Some unit_e1) None;
     mk_chunk 3%N None 2 (js "z") (Some zero_1536) None].

(* ================================================================= *)
(** ** The chat route: tools by mode and request validation *)

(** The keys of the [tools] object. *)
Inductive tool_name :=
| searchDocuments | traverseGraph | createNode | createEdge | updateGraph
| searchNodesSemanticaly.

Definition tool_name_eqb (a b : tool_name) : bool :=
  match a, b with
  | searchDocuments, searchDocuments | traverseGraph, traverseGraph
  | createNode, createNode | createEdge, createEdge | updateGraph, updateGraph
  | searchNodesSemanticaly, searchNodesSemanticaly => true
  | _, _ => false
  end.

(** [const tools = { ...(mode === 'vector' || mode === 'hybrid' ? {...} :
    {}), ...(mode === 'graph' || mode === 'hybrid' ? {...} : {}),
    ...(mode === 'hybrid' ? {...} : {}) }]. *)
Definition tools (mode : string) : list tool_name :=
  (if String.eqb mode "vector" || String.eqb mode "hybrid"
   then [searchDocuments] else [])
  ++ (if String.eqb mode "graph" || String.eqb mode "hybrid"
      then [traverseGraph; createNode; createEdge; updateGraph] else [])
  ++ (if String.eqb mode "hybrid" then [searchNodesSemanticaly] else []).

(** Values of a parsed JSON body. *)
Inductive json :=
| JNull
| JBool (b : bool)
| JNumber (q : Q)
| JString (s : string)
| JArray (items : list json)
| JObject (fields : list (string * json)).

(** Property read [v.k]; [None] is [undefined].  Of the values a JSON body
    can be, only objects have the properties read here; an object lists
    each of its keys once. *)
Definition get_property (v : json) (k : string) : option json :=
  match v with
  | JObject fields => option_map snd (find (fun kv => String.eqb (fst kv) k) fields)
  | _ => None
  end.

(** JavaScript truthiness, [!v] being its negation. *)
Definition truthy (v : option json) : bool :=
  match v with
  | None | Some JNull => false
  | Some (JBool b) => b
  | Some (JNumber q) => negb (Qeq_bool q 0)
  | Some (JString s) => negb (String.eqb s "")
  | Some (JArray _) | Some (JObject _) => true
  end.

(** [Array.isArray(v)]. *)
Definition isArray (v : option json) : bool :=
  match v with Some (JArray _) => true | _ => false end.

(** [l.includes(v)] for an array of strings. *)
Definition includes (l : list string) (v : option json) : bool :=
  match v with Some (JString s) => existsb (String.eqb s) l | _ => false end.

(** What [POST] does with a request: answer at once with a status and an
    error text, or hand the conversation to [streamText] with the tools of
    the mode and [maxSteps: 5]. *)
Inductive post_result :=
| Respond (status : Z) (error : string)
| StreamText (mode : string) (messages : list json) (offered : list tool_name)
             (maxSteps : nat).

Definition internal_error : post_result :=
  Respond 500 "An error occurred processing your request".

(** [POST]: the body is [None] when [req.json()] throws; destructuring
    [null] throws as well; both land in the [catch] block.
    [createServerSideClient] and the call of [streamText] are taken to
    succeed. *)
Definition POST (body : option json) : post_result :=
  match body with
  | None | Some JNull => internal_error
  | Some b =>
      let messages := get_property b "messages" in
      let mode := get_property b "mode" in
      if negb (truthy messages) || negb (isArray messages)
      then Respond 400 "Invalid messages format"
      else if negb (truthy mode) || negb (includes ["vector"; "graph"; "hybrid"]%string mode)
      then Respond 400 "Invalid mode. Must be vector, graph, or hybrid"
      else match messages, mode with
           | Some (JArray msgs), Some (JString m) => StreamText m msgs (tools m) 5
           | _, _ => internal_error   (* not reached: both checks passed *)
           end
  end.

(** The request declares a mode of the three. *)
Definition declares_mode (body : option json) : Prop :=
  exists b m, body = Some b /\ get_property b "mode" = Some (JString m) /\
              In m ["vector"; "graph"; "hybrid"]%string.

(** The request carries a message sequence (an array, possibly empty). *)
Definition has_messages (body : option json) : Prop :=
  exists b msgs, body = Some b /\ get_property b "messages" = Some (JArray msgs).

(** The request carries a non-empty message sequence. *)
Definition has_nonempty_messages (body : option json) : Prop :=
  exists b m msgs, body = Some b /\ get_property b "messages" = Some (JArray (m :: msgs)).

(* ================================================================= *)
(** ** The chat route: executing tools *)

(** What lies outside the repository, as one tool execution meets it. *)
Record env := mk_env {
  (** [openaiClient.embeddings.create] on the given input: the embedding,
      or [None] when the call throws. *)
  openai_embed : js_string -> option vector;
  (** the successive values of [Math.random()] *)
  math_random : nat -> Q;
  (** the value of [DEFAULT uuid_generate_v4()] for a row inserted now *)
  uuid_generate_v4 : uuid;
  (** whether the [k]-th store call of this execution reaches the store *)
  db_up : nat -> bool;
  (** pgvector's [<=>] *)
  cosine : vector -> vector -> float8;
  (** the rows that the scans of [kg_nodes] and of [document_chunks] meet
      when they answer a search for the given query vector: all of them,
      or those the ivfflat index probes *)
  nodes_scan : vector -> uuid -> bool;
  chunks_scan : vector -> uuid -> bool;
  (** [properties?.description] of a node *)
  description_of : option jsonb -> option string;
  (** the RPC [get_node_connections], which the schema does not define:
      nodes, each with its [source_edges] *)
  get_node_connections : store -> string -> sql_error + list (kg_node * list kg_edge)
}.

(** The state a request runs against: the tables and the server console
    ([console.error] and [console.warn] lines; debug output of
    [console.log] is left out). *)
Record world := mk_world {
  db : store;
  console : list string
}.

Definition log_line (w : world) (line : string) : world :=
  mk_world (db w) (console w ++ [line]).

(** [generateEmbedding]: never throws; when the provider fails it returns
    [Array(1536).fill(0).map(() => Math.random())]. *)
Definition generateEmbedding (ev : env) (text : js_string) (w : world) : vector * world :=
  match openai_embed ev (firstn (8 * 1000) text) with      (* text.slice(0, 8000) *)
  | Some embedding => (embedding, w)
  | None =>
      (map (math_random ev) (seq 0 1536),
       log_line (log_line w "Embedding generation failed:")
                "Using mock embeddings as fallback")
  end.

Inductive graph_operation := op_add | op_refresh.

(** Arguments of a tool call, after the defaults of its schema.  A search
    takes its query as a JavaScript string and its threshold as a number of
    JSON; labels and relationships, which go to [VARCHAR] columns, are given
    by their UTF-8 bytes. *)
Inductive tool_call :=
| SearchDocuments (query : js_string) (threshold : Q) (limit : Z)
| TraverseGraph (nodeLabel : string) (maxDepth : Z)
| CreateNode (label : string) (type : option string) (properties : jsonb)
| CreateEdge (sourceLabel targetLabel relationship : string)
| UpdateGraph (operation : graph_operation) (nodeId : option string)
| SearchNodesSemanticaly (query : js_string) (threshold : Q) (limit : Z).

Definition tool_of (c : tool_call) : tool_name :=
  match c with
  | SearchDocuments _ _ _ => searchDocuments
  | TraverseGraph _ _ => traverseGraph
  | CreateNode _ _ _ => createNode
  | CreateEdge _ _ _ => createEdge
  | UpdateGraph _ _ => updateGraph
  | SearchNodesSemanticaly _ _ _ => searchNodesSemanticaly
  end.

(** A chunk row as [searchDocuments] returns it. *)
Record document_result := mk_document_result {
  dr_chunk : chunk_match;
  document_title : string;
  excerpt : js_string;
  dr_similarity : option float8
}.

Record vis_node := mk_vis_node {
  vn_id : uuid; vn_label : string; vn_type : string; vn_description : option string
}.

Record vis_edge := mk_vis_edge {
  ve_id : uuid; ve_source : uuid; ve_target : uuid; ve_label : string
}.

(** What a tool's [execute] resolves to. *)
Inductive tool_value :=
| DocumentResults (results : list document_result)
| SafeError (message : string)          (* { error: true, message, details } *)
| ErrorObject (error : string)          (* { error: '...' } *)
| Traversal (startNode : kg_node) (connectedNodes : list node_graph_row)
| NodeRow (data : kg_node)
| EdgeRow (data : kg_edge)
| GraphRefresh (nodes : list vis_node) (edges : list vis_edge)
| GraphAdded                            (* { operation: 'add', message: 'Graph updated' } *)
| NodeMatches (data : list node_match).

(** An [execute] either resolves to a value or rejects with the error it
    throws. *)
Inductive outcome :=
| Return (v : tool_value)
| Throw (e : sql_error).

(** [.from('kg_nodes').select(...).eq('label', l).limit(1)]. *)
Definition first_node_labelled (s : store) (l : string) : option kg_node :=
  find (fun n => String.eqb (n_label n) l) (kg_nodes s).

(** [createSafeExecute(fn, toolName)]: a thrown error is logged and turned
    into an error value that names the tool.  Its text ends in
    [error.message] when the error is an instance of [Error] and in
    "Unknown error" otherwise.  What the wrapped function throws is the
    [error] object that the store client returned, a plain object (the
    client reports a request that failed as such an object too), so the
    text is always the latter. *)
Definition createSafeExecute (fn : env -> world -> outcome * world)
           (toolName : string) (ev : env) (w : world) : outcome * world :=
  match fn ev w with
  | (Return v, w') => (Return v, w')
  | (Throw e, w') =>
      (Return (SafeError ("Failed to execute " ++ toolName ++ ": Unknown error")%string),
       log_line w' ("Error in " ++ toolName ++ ":")%string)
  end.

Definition searchDocuments_fn (query : js_string) (threshold : Q) (limit : Z)
           (ev : env) (w : world) : outcome * world :=
  let '(embedding, w1) := generateEmbedding ev query w in
  if db_up ev 0%nat then
    match search_chunks_semantic (cosine ev) embedding
            (F8 (if Qeq_bool threshold 0 then (1 # 2)%Q else threshold)) (* threshold || 0.5 *)
            (if limit =? 0 then 10 else limit)                           (* limit || 10 *)
            (chunks_scan ev embedding) (db w1) with
    | Some data =>
        (Return (DocumentResults
           (map (fun chunk =>
                   mk_document_result chunk "Unknown Document"
                     (firstn 200 (cm_content chunk) ++ js "...")  (* substring(0, 200) + '...' *)
                     (cm_similarity chunk))
                data)), w1)
    | None => (Throw invalid_row_count_in_limit_clause, w1)
    end
  else (Throw connection_error, w1).

Definition traverseGraph_execute (nodeLabel : string) (maxDepth : Z)
           (ev : env) (w : world) : outcome * world :=
  match (if db_up ev 0%nat then first_node_labelled (db w) nodeLabel else None) with
  | None => (Return (ErrorObject "Node not found"), w)
  | Some node =>
      if db_up ev 1%nat then
        match get_connected_nodes (db w) (n_id node) maxDepth with
        | Some data => (Return (Traversal node data), w)
        | None => (Throw connection_error, log_line w "RPC Error:")
            (* not reached: the function always returns, [node_graph_total] *)
        end
      else (Throw connection_error, log_line w "RPC Error:")
  end.

(** An optional text for a [VARCHAR(n)] column: [undefined] is left out of
    the statement and the column is NULL. *)
Definition optional_varchar (n : nat) (s : option string) : sql_error + option string :=
  match s with
  | None => inr None
  | Some x => match varchar n x with
              | inr x' => inr (Some x')
              | inl e => inl e
              end
  end.

Definition createNode_execute (label : string) (type : option string)
           (properties : jsonb) (ev : env) (w : world) : outcome * world :=
  if db_up ev 0%nat then
    match varchar 255 label, optional_varchar 100 type with
    | inr label', inr type' =>
        let row := mk_node (uuid_generate_v4 ev) label' type' (Some properties) None in
        match insert_node (db w) row with
        | inr s' => (Return (NodeRow row), mk_world s' (console w))
        | inl e => (Throw e, w)
        end
    | inl e, _ | inr _, inl e => (Throw e, w)
    end
  else (Throw connection_error, w).

Definition createEdge_execute (sourceLabel targetLabel relationship : string)
           (ev : env) (w : world) : outcome * world :=
  let sourceNodes := if db_up ev 0%nat then first_node_labelled (db w) sourceLabel else None in
  let targetNodes := if db_up ev 1%nat then first_node_labelled (db w) targetLabel else None in
  match sourceNodes, targetNodes with
  | Some src, Some tgt =>
      if db_up ev 2%nat then
        match varchar 255 relationship with
        | inr relationship' =>
            let row := mk_edge (uuid_generate_v4 ev) (n_id src) (n_id tgt) relationship'
                               (Some "{}"%string) (Some (F8 1)) in
            match insert_edge (db w) row with
            | inr s' => (Return (EdgeRow row), mk_world s' (console w))
            | inl e => (Throw e, w)
            end
        | inl e => (Throw e, w)
        end
      else (Throw connection_error, w)
  | _, _ => (Return (ErrorObject "One or both nodes not found"), w)
  end.

(** The refresh query on [kg_nodes] with the embedded [source_edges] and
    [target_edges], limited to 50 nodes: each node with the edges that
    leave it (the edges that enter it are not read afterwards). *)
Definition nodes_with_source_edges (s : store) : list (kg_node * list kg_edge) :=
  map (fun node =>
         (node, filter (fun edge => N.eqb (source_id edge) (n_id node)) (kg_edges s)))
      (firstn 50 (kg_nodes s)).

Definition updateGraph_execute (operation : graph_operation) (nodeId : option string)
           (ev : env) (w : world) : outcome * world :=
  match operation with
  | op_refresh =>
      let query :=
        if db_up ev 0%nat then
          match nodeId with
          | Some x => if String.eqb x "" then inr (nodes_with_source_edges (db w))
                      else get_node_connections ev (db w) x
          | None => inr (nodes_with_source_edges (db w))
          end
        else inl connection_error in
      match query with
      | inl e => (Throw e, w)
      | inr data =>
          (Return (GraphRefresh
             (map (fun row =>
                     let node := fst row in
                     mk_vis_node (n_id node) (n_label node)
                       (match n_type node with
                        | Some t => if String.eqb t "" then "entity" else t
                        | None => "entity"
                        end)
                       (description_of ev (n_properties node)))
                  data)
             (flat_map (fun row =>
                          map (fun edge =>
                                 mk_vis_edge (e_id edge) (source_id edge)
                                             (target_id edge) (relationship edge))
                              (snd row))
                       data)), w)
      end
  | op_add => (Return GraphAdded, w)
  end.

Definition searchNodesSemanticaly_execute (query : js_string) (threshold : Q)
           (limit : Z) (ev : env) (w : world) : outcome * world :=
  let '(embedding, w1) := generateEmbedding ev query w in
  if db_up ev 0%nat then
    match search_nodes_semantic (cosine ev) embedding (F8 threshold) limit
            (nodes_scan ev embedding) (db w1) with
    | Some data => (Return (NodeMatches data), w1)
    | None => (Throw invalid_row_count_in_limit_clause, w1)
    end
  else (Throw connection_error, w1).

(** The [execute] of each tool as [tools] defines it: only
    [searchDocuments] goes through [createSafeExecute]. *)
Definition execute (ev : env) (c : tool_call) (w : world) : outcome * world :=
  match c with
  | SearchDocuments query threshold limit =>
      createSafeExecute (searchDocuments_fn query threshold limit)
                        "searchDocuments" ev w
  | TraverseGraph nodeLabel maxDepth => traverseGraph_execute nodeLabel maxDepth ev w
  | CreateNode label type properties => createNode_execute label type properties ev w
  | CreateEdge sourceLabel targetLabel relationship =>
      createEdge_execute sourceLabel targetLabel relationship ev w
  | UpdateGraph operation nodeId => updateGraph_execute operation nodeId ev w
  | SearchNodesSemanticaly query threshold limit =>
      searchNodesSemanticaly_execute query threshold limit ev w
  end.

(** One call proposed by the model: a tool that was not offered is not
    run. *)
Inductive invocation :=
| Executed (o : outcome)
| NoSuchTool.

Definition invoke (offered : list tool_name) (ev : env) (c : tool_call) (w : world)
  : invocation * world :=
  if existsb (tool_name_eqb (tool_of c)) offered
  then let '(o, w') := execute ev c w in (Executed o, w')
  else (NoSuchTool, w).

(** The calls of a conversation in the order they are made, each with the
    outside world it meets; the record of a call is its provenance entry. *)
Fixpoint run_calls (offered : list tool_name) (calls : list (env * tool_call))
         (w : world) : list (tool_call * invocation) * world :=
  match calls with
  | [] => ([], w)
  | (ev, c) :: rest =>
      let '(i, w1) := invoke offered ev c w in
      let '(log, w2) := run_calls offered rest w1 in
      ((c, i) :: log, w2)
  end.

(** [streamText] of the SDK as far as the route relies on it: the model
    proposes tool calls step by step and at most [maxSteps] steps are
    run. *)
Definition streamText (offered : list tool_name) (maxSteps : nat)
           (steps : list (list (env * tool_call))) (w : world)
  : list (tool_call * invocation) * world :=
  run_calls offered (List.concat (firstn maxSteps steps)) w.

(** What the caller receives. *)
Inductive response :=
| ErrorResponse (status : Z) (error : string)
| DataStream (provenance : list (tool_call * invocation)).

(** A whole request: [POST] and, when it hands over, the tool calls that
    [streamText] runs. *)
Definition handle_request (body : option json)
           (steps : list (list (env * tool_call))) (w : world) : response * world :=
  match POST body with
  | Respond status error =>
      (ErrorResponse status error,
       if status =? 500 then log_line w "Chat API error:" else w)
  | StreamText mode messages offered maxSteps =>
      let '(log, w') := streamText offered maxSteps steps w in
      (DataStream log, w')
  end.

(** An environment for examples: the store reachable as given, ids
    generated as given, the embedding provider as given, every search
    answered by a scan of the whole table. *)
Definition example_env (embed : js_string -> option vector) (rand : nat -> Q)
           (new_id : uuid) (up : nat -> bool) : env :=
  mk_env embed rand new_id up unit_cosine_distance
         (fun _ => every_row) (fun _ => every_row)
         (fun _ => None)
         (fun _ _ => inr []).

(** The same outside world, except that the embedding provider answers
    every input with [v]. *)
Definition with_embedding (ev : env) (v : vector) : env :=
  mk_env (fun _ => Some v) (math_random ev) (uuid_generate_v4 ev) (db_up ev)
         (cosine ev) (nodes_scan ev) (chunks_scan ev)
         (description_of ev) (get_node_connections ev).

(** The mode a request declares, when it declares a string. *)
Definition declared_mode (body : option json) : option string :=
  match body with
  | Some b => match get_property b "mode" with
              | Some (JString m) => Some m
              | _ => None
              end
  | None => None
  end.

(** Request bodies of the scenarios. *)
Definition user_message (text : string) : json :=
  JObject [("role", JString "user"); ("content", JString text)]%string.

Definition vector_request : option json :=
  Some (JObject [("messages", JArray [user_message "Please create a node named Laika"]);
                 ("mode", JString "vector")]%string).

Definition empty_messages_request : option json :=
  Some (JObject [("messages", JArray []); ("mode", JString "vector")]%string).

(** A unit vector of dimension 1536 with components in [0, 1), the
    draws of [Math.random()] that give it, and a store holding one chunk
    embedded with it. *)
Definition unit_1536 : vector := unit_e3.

Definition draws (i : nat) : Q := if (i <? 4)%nat then (1 # 2)%Q else 0%Q.

Definition chunk_store : store :=
  mk_store [] []
    [mk_chunk 1%N None 0 (js "Laika was a Soviet space dog.") (Some unit_1536) None].

(* ================================================================= *)
(** ** Further constraints of the schema *)

(** [id UUID PRIMARY KEY] of [kg_nodes] and of [kg_edges]. *)
Definition node_ids_unique (s : store) : Prop := NoDup (map n_id (kg_nodes s)).

Definition edge_ids_unique (s : store) : Prop := NoDup (map e_id (kg_edges s)).

(** All four constraints of the graph tables together. *)
Definition store_constraints (s : store) : Prop :=
  unique_triples s /\ edges_reference_nodes s /\ node_ids_unique s /\ edge_ids_unique s.

(* ================================================================= *)
(** ** The graph route: GET /api/graph *)

Record graph_node := mk_graph_node {
  gn_id : uuid; gn_label : string; gn_type : option string;
  gn_description : option string
}.

Record graph_edge := mk_graph_edge {
  ge_source : uuid; ge_target : uuid; ge_label : string
}.

(** [NextResponse.json({ nodes, edges }, { status })]. *)
Record graph_json := mk_graph_json {
  gj_status : Z; gj_nodes : list graph_node; gj_edges : list graph_edge
}.

(** The rows a [select('*')] without a limit delivers: the whole table, or
    its first [max_rows] rows when the API is configured with a cap. *)
Definition select_all {A : Type} (max_rows : option nat) (table : list A) : list A :=
  match max_rows with
  | Some k => firstn k table
  | None => table
  end.

(** [GET]: the nodes are fetched, then the edges; an error of either
    fetch is thrown into the [catch] block, which answers with an empty
    graph and status 500. *)
Definition GET (max_rows : option nat) (ev : env) (w : world) : graph_json * world :=
  if db_up ev 0%nat && db_up ev 1%nat then
    (mk_graph_json 200
       (map (fun node => mk_graph_node (n_id node) (n_label node) (n_type node)
                           (description_of ev (n_properties node)))
            (select_all max_rows (kg_nodes (db w))))
       (map (fun edge => mk_graph_edge (source_id edge) (target_id edge) (relationship edge))
            (select_all max_rows (kg_edges (db w)))),
     w)
  else (mk_graph_json 500 [] [], log_line w "Failed to fetch graph data:").

(* ================================================================= *)
(** ** The scripts: chunking and embedding updates *)

(** [content.split('\n\n')]: the pieces between the occurrences of two
    line feeds, found from left to right without overlap; [cur] holds the
    current piece in reverse. *)
Fixpoint split_paragraphs_from (cur : js_string) (s : js_string) : list js_string :=
  match s with
  | [] => [rev cur]
  | c :: rest =>
      match rest with
      | d :: rest' =>
          if N.eqb c 10 && N.eqb d 10
          then rev cur :: split_paragraphs_from [] rest'
          else split_paragraphs_from (c :: cur) rest
      | [] => [rev (c :: cur)]
      end
  end.

Definition split_paragraphs (content : js_string) : list js_string :=
  split_paragraphs_from [] content.

(** [pieces.join('\n\n')]. *)
Fixpoint join_paragraphs (pieces : list js_string) : js_string :=
  match pieces with
  | [] => []
  | [p] => p
  | p :: rest => p ++ [10%N; 10%N] ++ join_paragraphs rest
  end.

(** White space and line terminators of ECMAScript, which [trim]
    removes. *)
Definition is_white_space (c : N) : bool :=
  existsb (N.eqb c)
    [9; 10; 11; 12; 13; 32; 160; 5760; 8232; 8233; 8239; 8287; 12288; 65279]%N
  || (N.leb 8192 c && N.leb c 8202).

Fixpoint trim_start (s : js_string) : js_string :=
  match s with
  | c :: rest => if is_white_space c then trim_start rest else s
  | [] => []
  end.

Definition trim (s : js_string) : js_string := rev (trim_start (rev (trim_start s))).

(** [content.split('\n\n').filter(chunk => chunk.trim().length > 50)]. *)
Definition chunks_of (content : js_string) : list js_string :=
  filter (fun chunk => Nat.ltb 50 (List.length (trim chunk))) (split_paragraphs content).

(** The [chunk_index] and [content] of the rows the loop inserts: the
    index counts the chunks that were kept. *)
Definition chunk_rows (content : js_string) : list (Z * js_string) :=
  combine (map Z.of_nat (seq 0 (List.length (chunks_of content)))) (chunks_of content).

(** [updateNodeEmbeddings]: the nodes are fetched once; for each fetched
    node an embedding is generated from its text ([embedding_for], which
    always yields an array of numbers) and written with [UPDATE ... WHERE
    id = node.id]; an update that fails is logged and the loop goes on.
    [up k] tells whether the [k]-th store call reaches the store. *)
Fixpoint update_each (up : nat -> bool) (embedding_for : kg_node -> list Q)
         (k : nat) (fetched : list kg_node) (s : store) : store :=
  match fetched with
  | [] => s
  | node :: rest =>
      update_each up embedding_for (S k) rest
        (if up k then after s (UpdateNodeEmbedding (n_id node) (embedding_for node))
         else s)
  end.

Definition updateNodeEmbeddings (max_rows : option nat) (up : nat -> bool)
           (embedding_for : kg_node -> list Q) (s : store) : store :=
  if up 0%nat
  then update_each up embedding_for 1 (select_all max_rows (kg_nodes s)) s
  else s.

(** [checkEmbeddings]: the number of nodes it reports as missing an
    embedding, when its query succeeds and returns the whole table.  A
    stored vector has at least one dimension, so the test
    [!n.embedding || n.embedding.length === 0] holds of the NULL
    embeddings only. *)
Definition missing_embeddings (s : store) : nat :=
  List.length (filter (fun n => match n_embedding n with None => true | Some _ => false end)
                      (kg_nodes s)).

(** What the traversal functions read of a node. *)
Definition node_core (n : kg_node) : uuid * string * option string * option jsonb :=
  (n_id n, n_label n, n_type n, n_properties n).

(* ================================================================= *)
(** * Theorems *)

Example connected_A_1 :
  option_map (map id_depth) (get_connected_nodes abc_store 1%N 1)
  = Some [(1%N, 0); (2%N, 1); (3%N, 1)].
Proof. vm_compute. reflexivity. Qed.

Example shortest_A_C_3 :
  find_shortest_path abc_store 1%N 3%N 3 = Some (inr [([1%N; 2%N; 3%N], Some (F8 2))]).
Proof. vm_compute. reflexivity. Qed.

Example shortest_A_B_1 :
  find_shortest_path (mk_store [nodeA; nodeB] [edgeAB] []) 1%N 2%N 1 = Some (inr []).
Proof. vm_compute. reflexivity. Qed.

(** 0.1 + 0.2 = 0.30000000000000004 in float8, the operands being the
    doubles nearest to 0.1 and 0.2. *)
Example float8pl_tenths :
  float8pl (F8 (3602879701896397 # 2 ^ 55)) (F8 (3602879701896397 # 2 ^ 54))
  = inr (F8 (1351079888211149 # 2 ^ 52)).
Proof. vm_compute. reflexivity. Qed.

(** 2^53 + 1 is not a double: the sum is rounded to 2^53. *)
Example float8pl_rounds :
  float8pl (F8 (inject_Z (2 ^ 53))) (F8 1) = inr (F8 (inject_Z (2 ^ 53))).
Proof. vm_compute. reflexivity. Qed.

(** 1e308 + 1e308 is out of range. *)
Example float8pl_overflow :
  float8pl (F8 (inject_Z (10 ^ 308))) (F8 (inject_Z (10 ^ 308)))
  = inl numeric_value_out_of_range.
Proof. vm_compute. reflexivity. Qed.

(* ----------------------------------------------------------------- *)
(** ** Facts about float8 *)

Lemma pow2_pos (e : Z) : (0 < pow2 e)%Q.
Proof. apply Qpower_0_lt. reflexivity. Qed.

Lemma pow2_plus (a b : Z) : (pow2 (a + b) == pow2 a * pow2 b)%Q.
Proof. apply Qpower_plus. discriminate. Qed.

Lemma pow2_le (a b : Z) : a <= b -> (pow2 a <= pow2 b)%Q.
Proof. intro H. apply Qpower_le_compat_l; [exact H | discriminate]. Qed.

Lemma pow2_Z (k : Z) : 0 <= k -> (pow2 k == inject_Z (2 ^ k))%Q.
Proof. intro H. unfold pow2. now rewrite Zpower_Qpower. Qed.

Lemma Q_num_den (q : Q) : (q * inject_Z (Zpos (Qden q)) == inject_Z (Qnum q))%Q.
Proof.
  destruct q as [a b]. unfold Qeq, Qmult, inject_Z. simpl.
  rewrite Pos.mul_1_r. lia.
Qed.

(** [binade] gives the binade. *)
Lemma binade_spec (q : Q) :
  (0 < q)%Q -> (pow2 (binade q) <= q)%Q /\ (q < pow2 (binade q + 1))%Q.
Proof.
  intro Hq.
  assert (Ha : 0 < Qnum q) by (destruct q as [a b]; unfold Qlt in Hq; simpl in *; lia).
  pose proof (Z.log2_spec (Qnum q) Ha) as [Ha1 Ha2].
  pose proof (Z.log2_spec (Zpos (Qden q)) (Pos2Z.is_pos _)) as [Hb1 Hb2].
  pose proof (Z.log2_nonneg (Qnum q)) as Hla.
  pose proof (Z.log2_nonneg (Zpos (Qden q))) as Hlb.
  set (la := Z.log2 (Qnum q)) in *. set (lb := Z.log2 (Zpos (Qden q))) in *.
  pose proof (Q_num_den q) as Hq'.
  assert (A1 : (pow2 la <= inject_Z (Qnum q))%Q)
    by (rewrite pow2_Z by lia; now rewrite <- Zle_Qle).
  assert (A2 : (inject_Z (Qnum q) < pow2 (la + 1))%Q)
    by (rewrite pow2_Z by lia; rewrite <- Zlt_Qlt; unfold Z.succ in Ha2; lia).
  assert (B1 : (pow2 lb <= inject_Z (Zpos (Qden q)))%Q)
    by (rewrite pow2_Z by lia; now rewrite <- Zle_Qle).
  assert (B2 : (inject_Z (Zpos (Qden q)) < pow2 (lb + 1))%Q)
    by (rewrite pow2_Z by lia; rewrite <- Zlt_Qlt; unfold Z.succ in Hb2; lia).
  assert (U : (q < pow2 (la - lb + 1))%Q).
  { apply Qmult_lt_r with (z := pow2 lb); [apply pow2_pos|].
    rewrite <- pow2_plus. replace (la - lb + 1 + lb) with (la + 1) by lia.
    apply Qle_lt_trans with (y := (q * inject_Z (Zpos (Qden q)))%Q).
    - apply Qmult_le_l; [exact Hq | exact B1].
    - now rewrite Hq'. }
  assert (L : (pow2 (la - lb - 1) < q)%Q).
  { apply Qmult_lt_r with (z := pow2 (lb + 1)); [apply pow2_pos|].
    rewrite <- pow2_plus. replace (la - lb - 1 + (lb + 1)) with la by lia.
    apply Qle_lt_trans with (y := inject_Z (Qnum q)); [exact A1|].
    rewrite <- Hq'. apply Qmult_lt_l; [exact Hq | exact B2]. }
  unfold binade. fold la lb.
  destruct (Qle_bool (pow2 (la - lb)) q) eqn:E.
  - apply Qle_bool_iff in E. split; [exact E | exact U].
  - split; [now apply Qlt_le_weak|].
    replace (la - lb - 1 + 1) with (la - lb) by lia.
    apply Qnot_le_lt. intro H. apply Qle_bool_iff in H. congruence.
Qed.

Lemma round_half_even_floor (x : Q) :
  Qfloor x <= round_half_even x <= Qfloor x + 1.
Proof.
  unfold round_half_even. destruct (_ ?= _)%Q; [destruct (Z.even _)| |]; lia.
Qed.

Lemma round_half_even_Z (k : Z) (x : Q) : (x == inject_Z k)%Q -> round_half_even x = k.
Proof.
  intro H. unfold round_half_even. rewrite (Qfloor_comp _ _ H), Qfloor_Z.
  assert (E : (x - inject_Z k ?= 1 # 2)%Q = Lt).
  { apply Qlt_alt. rewrite H. unfold Qminus. rewrite Qplus_opp_r. reflexivity. }
  now rewrite E.
Qed.

Lemma round_half_even_ge (k : Z) (x : Q) : (inject_Z k <= x)%Q -> k <= round_half_even x.
Proof.
  intro H. apply Qfloor_resp_le in H. rewrite Qfloor_Z in H.
  pose proof (round_half_even_floor x). lia.
Qed.

Lemma round_half_even_le (k : Z) (x : Q) : (x <= inject_Z k)%Q -> round_half_even x <= k.
Proof.
  intro H. pose proof (Qfloor_resp_le _ _ H) as Hf. rewrite Qfloor_Z in Hf.
  destruct (Z.eq_dec (Qfloor x) k) as [Heq|Hne].
  - rewrite (round_half_even_Z k x); [lia|].
    apply Qle_antisym; [exact H|]. rewrite <- Heq. apply Qfloor_le.
  - pose proof (round_half_even_floor x). lia.
Qed.

Lemma round_half_even_mono (x y : Q) :
  (x <= y)%Q -> round_half_even x <= round_half_even y.
Proof.
  intro H. pose proof (Qfloor_resp_le _ _ H) as Hf.
  pose proof (round_half_even_floor x) as Hx. pose proof (round_half_even_floor y) as Hy.
  destruct (Z.eq_dec (Qfloor x) (Qfloor y)) as [Heq|Hne]; [|lia].
  unfold round_half_even in *. rewrite <- Heq in *.
  assert (Hfr : (x - inject_Z (Qfloor x) <= y - inject_Z (Qfloor x))%Q) by lra.
  destruct (Qcompare_spec (x - inject_Z (Qfloor x)) (1 # 2)) as [Ex|Ex|Ex];
    destruct (Qcompare_spec (y - inject_Z (Qfloor x)) (1 # 2)) as [Ey|Ey|Ey];
    try destruct (Z.even (Qfloor x)); try lia; exfalso; lra.
Qed.

Lemma round_positive_nonneg (q : Q) : (0 < q)%Q -> (0 <= round_positive q)%Q.
Proof.
  intro Hq. unfold round_positive.
  apply Qmult_le_0_compat; [|apply Qlt_le_weak, pow2_pos].
  change 0%Q with (inject_Z 0). rewrite <- Zle_Qle. apply round_half_even_ge.
  apply Qle_shift_div_l; [apply pow2_pos|].
  change (inject_Z 0) with 0%Q. rewrite Qmult_0_l. now apply Qlt_le_weak.
Qed.

Lemma round_positive_mono (x y : Q) :
  (0 < x)%Q -> (x <= y)%Q -> (round_positive x <= round_positive y)%Q.
Proof.
  intros Hx Hxy.
  assert (Hy : (0 < y)%Q) by lra.
  destruct (binade_spec x Hx) as [Lx Ux]. destruct (binade_spec y Hy) as [Ly Uy].
  assert (Hb : binade x <= binade y).
  { assert (H : (pow2 (binade x) < pow2 (binade y + 1))%Q) by lra.
    apply Qpower_lt_compat_l_inv in H; [lia | reflexivity]. }
  unfold round_positive.
  set (ex := Z.max (binade x - 52) (-1074)). set (ey := Z.max (binade y - 52) (-1074)).
  destruct (Z.eq_dec ex ey) as [Heq|Hne].
  - rewrite Heq. apply Qmult_le_compat_r; [|apply Qlt_le_weak, pow2_pos].
    rewrite <- Zle_Qle. apply round_half_even_mono.
    apply Qmult_le_compat_r; [exact Hxy|].
    apply Qlt_le_weak, Qinv_lt_0_compat, pow2_pos.
  - assert (Hlt : ex < ey) by lia.
    assert (Hey : ey = binade y - 52) by lia.
    set (N := Z.max 0 (binade x + 1 - ex)).
    apply Qle_trans with (y := pow2 (N + ex)).
    + rewrite pow2_plus. apply Qmult_le_compat_r; [|apply Qlt_le_weak, pow2_pos].
      rewrite (pow2_Z N) by lia. rewrite <- Zle_Qle. apply round_half_even_le.
      rewrite <- (pow2_Z N) by lia.
      apply Qle_shift_div_r; [apply pow2_pos|]. rewrite <- pow2_plus.
      apply Qle_trans with (y := pow2 (binade x + 1)); [now apply Qlt_le_weak|].
      apply pow2_le. lia.
    + apply Qle_trans with (y := pow2 (binade y)); [apply pow2_le; lia|].
      replace (binade y) with (52 + ey) at 1 by lia.
      rewrite pow2_plus. apply Qmult_le_compat_r; [|apply Qlt_le_weak, pow2_pos].
      rewrite (pow2_Z 52) by lia. rewrite <- Zle_Qle. apply round_half_even_ge.
      rewrite <- (pow2_Z 52) by lia.
      apply Qle_shift_div_l; [apply pow2_pos|]. rewrite <- pow2_plus.
      replace (52 + ey) with (binade y) by lia. exact Ly.
Qed.

(** Rounding keeps the order. *)
Lemma round_float8_mono (x y : Q) : (x <= y)%Q -> (round_float8 x <= round_float8 y)%Q.
Proof.
  intro H. unfold round_float8. apply Qred_le.
  destruct (Qcompare_spec x 0) as [Ex|Ex|Ex]; destruct (Qcompare_spec y 0) as [Ey|Ey|Ey];
    try (exfalso; lra); try apply Qle_refl.
  - now apply round_positive_nonneg.
  - pose proof (round_positive_nonneg (- x) ltac:(lra)). lra.
  - pose proof (round_positive_mono (- y) (- x) ltac:(lra) ltac:(lra)). lra.
  - pose proof (round_positive_nonneg (- x) ltac:(lra)).
    pose proof (round_positive_nonneg y Ey). lra.
  - now apply round_positive_mono.
Qed.

Lemma Qred_inject_Z (n : Z) : Qred (inject_Z n) = inject_Z n.
Proof.
  unfold Qred, inject_Z.
  pose proof (Z.ggcd_gcd n 1) as Hg. pose proof (Z.ggcd_correct_divisors n 1) as Hd.
  destruct (Z.ggcd n 1) as [g [a b]]. simpl in *.
  rewrite Z.gcd_1_r in Hg. subst g. destruct Hd as [Ha Hb].
  rewrite Z.mul_1_l in Ha, Hb. subst a b. reflexivity.
Qed.

(** The integers below 2^53 are doubles. *)
Lemma round_float8_integer (n : Z) :
  0 <= n < 2 ^ 53 -> round_float8 (inject_Z n) = inject_Z n.
Proof.
  intros [H0 H53]. rewrite <- (Qred_inject_Z n) at 2.
  unfold round_float8. apply Qred_complete.
  destruct (Z.eq_dec n 0) as [->|Hn]; [reflexivity|].
  assert (Hpos : (0 < inject_Z n)%Q) by (change 0%Q with (inject_Z 0); rewrite <- Zlt_Qlt; lia).
  destruct (Qcompare_spec (inject_Z n) 0) as [E|E|E]; try (exfalso; lra).
  assert (Hlog : 0 <= Z.log2 n < 53).
  { split; [apply Z.log2_nonneg|]. apply Z.log2_lt_pow2; lia. }
  destruct (Z.log2_spec n ltac:(lia)) as [Hlo Hhi].
  assert (Hb : binade (inject_Z n) = Z.log2 n).
  { unfold binade. simpl Qnum. simpl Qden. change (Z.log2 1) with 0. rewrite Z.sub_0_r.
    assert (Hle : Qle_bool (pow2 (Z.log2 n)) (inject_Z n) = true).
    { apply Qle_bool_iff. rewrite pow2_Z by lia. now rewrite <- Zle_Qle. }
    now rewrite Hle. }
  unfold round_positive. rewrite Hb.
  replace (Z.max (Z.log2 n - 52) (-1074)) with (- (52 - Z.log2 n)) by lia.
  set (k := 52 - Z.log2 n).
  assert (Hk : (pow2 (- k) == / inject_Z (2 ^ k))%Q).
  { unfold pow2. rewrite Qpower_opp. fold (pow2 k). rewrite pow2_Z by lia. reflexivity. }
  assert (Hnz : ~ (inject_Z (2 ^ k) == 0)%Q).
  { change 0%Q with (inject_Z 0). rewrite inject_Z_injective.
    pose proof (Z.pow_pos_nonneg 2 k). lia. }
  rewrite (round_half_even_Z (n * 2 ^ k)).
  - rewrite Hk, inject_Z_mult. field. exact Hnz.
  - rewrite Hk, inject_Z_mult. field. exact Hnz.
Qed.

(** Adding 1.0 to an integer below 2^53 - 1 is exact. *)
Lemma float8pl_succ (k : Z) :
  0 <= k < 2 ^ 53 - 1 ->
  float8pl (F8 (inject_Z k)) (F8 1) = inr (F8 (inject_Z (k + 1))).
Proof.
  intro Hk. unfold float8pl.
  assert (Hsum : (inject_Z k + 1)%Q = inject_Z (k + 1)).
  { unfold Qplus, inject_Z. simpl. now rewrite Z.mul_1_r. }
  rewrite Hsum, round_float8_integer by lia.
  assert (Hfin : overflows (inject_Z (k + 1)) = false).
  { unfold overflows. destruct (Qle_bool _ _) eqn:E; [exfalso | reflexivity].
    apply Qle_bool_iff in E.
    assert (Habs : (Qabs (inject_Z (k + 1)) == inject_Z (k + 1))%Q)
      by (apply Qabs_pos; change 0%Q with (inject_Z 0); rewrite <- Zle_Qle; lia).
    rewrite Habs in E.
    assert (H53 : (inject_Z (k + 1) < pow2 53)%Q)
      by (rewrite pow2_Z by lia; rewrite <- Zlt_Qlt; lia).
    pose proof (pow2_le 53 1024 ltac:(lia)). lra. }
  now rewrite Hfin.
Qed.

Lemma float8_leb_total (a b : float8) :
  float8_leb a b = true \/ float8_leb b a = true.
Proof.
  destruct a as [x|[|]|], b as [y|[|]|]; simpl; auto.
  rewrite !Qle_bool_iff.
  destruct (Qlt_le_dec x y) as [H|H]; [left; now apply Qlt_le_weak | now right].
Qed.

Lemma float8_leb_trans (a b c : float8) :
  float8_leb a b = true -> float8_leb b c = true -> float8_leb a c = true.
Proof.
  destruct a as [x|[|]|], b as [y|[|]|], c as [z|[|]|]; simpl; auto; try discriminate.
  rewrite !Qle_bool_iff. apply Qle_trans.
Qed.

Lemma float8_one_minus_NaN (a : float8) : float8_one_minus a = NaN <-> a = NaN.
Proof. destruct a as [x|[|]|]; simpl; split; congruence. Qed.

(** A greater distance is a smaller similarity. *)
Lemma float8_one_minus_antitone (a b : float8) :
  b <> NaN -> float8_leb a b = true ->
  float8_leb (float8_one_minus b) (float8_one_minus a) = true.
Proof.
  destruct a as [x|[|]|], b as [y|[|]|]; simpl; auto; try discriminate; try congruence.
  intros _ H. apply Qle_bool_iff in H. apply Qle_bool_iff.
  apply round_float8_mono. lra.
Qed.

(* ----------------------------------------------------------------- *)
(** ** Facts about the SQL building blocks *)

Section OrderByFacts.
Context {A : Type}.
Variable le : A -> A -> bool.

Lemma insert_row_perm (x : A) (l : list A) :
  Permutation (Sql.insert_row le x l) (x :: l).
Proof.
  induction l as [|y tl IH]; simpl.
  - apply Permutation_refl.
  - destruct (le x y).
    + apply Permutation_refl.
    + eapply perm_trans; [apply perm_skip, IH | apply perm_swap].
Qed.

Lemma order_by_perm (l : list A) : Permutation (Sql.order_by le l) l.
Proof.
  induction l as [|x tl IH]; simpl.
  - constructor.
  - eapply perm_trans; [apply insert_row_perm | apply perm_skip, IH].
Qed.

Lemma order_by_In (l : list A) (x : A) : In x (Sql.order_by le l) <-> In x l.
Proof.
  split; apply Permutation_in;
    [apply order_by_perm | apply Permutation_sym, order_by_perm].
Qed.

Hypothesis le_total : forall a b, le a b = true \/ le b a = true.
Hypothesis le_trans : forall a b c, le a b = true -> le b c = true -> le a c = true.

Lemma insert_row_sorted (x : A) (l : list A) :
  StronglySorted (fun a b => le a b = true) l ->
  StronglySorted (fun a b => le a b = true) (Sql.insert_row le x l).
Proof.
  induction 1 as [|y tl Hs IH Hall]; simpl.
  - repeat constructor.
  - destruct (le x y) eqn:Hxy.
    + constructor; [constructor; assumption|].
      constructor; [assumption|].
      eapply Forall_impl; [|exact Hall].
      intros z Hz. now apply le_trans with y.
    + constructor; [exact IH|].
      assert (Hyx : le y x = true)
        by (destruct (le_total x y) as [H|H]; [congruence | exact H]).
      apply Forall_forall. intros z Hz.
      apply (Permutation_in _ (insert_row_perm x tl)) in Hz.
      destruct Hz as [<-|Hz]; [exact Hyx|].
      rewrite Forall_forall in Hall. now apply Hall.
Qed.

Lemma order_by_sorted (l : list A) :
  StronglySorted (fun a b => le a b = true) (Sql.order_by le l).
Proof.
  induction l as [|x tl IH]; simpl.
  - constructor.
  - now apply insert_row_sorted.
Qed.
End OrderByFacts.

Section DistinctOnFacts.
Context {A : Type}.
Variable key : A -> N.
Variable le : A -> A -> bool.
Hypothesis le_key : forall a b, le a b = true -> (key a <= key b)%N.

Lemma distinct_on_from_incl (prev : option N) (l : list A) (r : A) :
  In r (Sql.distinct_on_from key N.eqb prev l) -> In r l.
Proof.
  revert prev. induction l as [|x tl IH]; simpl; intros prev H; [exact H|].
  destruct (match prev with Some k => N.eqb k (key x) | None => false end).
  - right. eapply IH, H.
  - destruct H as [H|H]; [now left | right; eapply IH, H].
Qed.

(** Every input row is represented in the output by a row with its key
    that sorts no later. *)
Lemma distinct_on_from_covers (l : list A) :
  StronglySorted (fun a b => le a b = true) l ->
  forall prev x, In x l ->
    prev = Some (key x) \/
    exists r, In r (Sql.distinct_on_from key N.eqb prev l) /\
              key r = key x /\ (r = x \/ le r x = true).
Proof.
  induction 1 as [|y tl Hs IH Hall]; intros prev x Hx; [destruct Hx|].
  simpl.
  destruct (match prev with Some k => N.eqb k (key y) | None => false end) eqn:Hp.
  - destruct prev as [k|]; [|discriminate].
    apply N.eqb_eq in Hp. subst k.
    destruct Hx as [->|Hx]; [now left|].
    apply IH; assumption.
  - destruct Hx as [->|Hx].
    + right. exists x. simpl. auto.
    + destruct (IH (Some (key y)) x Hx) as [Heq|(r & Hr & Hk & Hle)].
      * right. exists y. simpl. split; [now left|]. split; [congruence|].
        right. rewrite Forall_forall in Hall. now apply Hall.
      * right. exists r. simpl. auto.
Qed.

(** The keys of the output increase strictly. *)
Lemma distinct_on_from_increasing (l : list A) :
  StronglySorted (fun a b => le a b = true) l ->
  forall prev,
    (forall k x, prev = Some k -> In x l -> (k <= key x)%N) ->
    StronglySorted N.lt (map key (Sql.distinct_on_from key N.eqb prev l)) /\
    (forall k r, prev = Some k ->
       In r (Sql.distinct_on_from key N.eqb prev l) -> (k < key r)%N).
Proof.
  induction 1 as [|y tl Hs IH Hall]; intros prev Hprev; simpl.
  - split; [constructor | intros ? ? ? []].
  - rewrite Forall_forall in Hall.
    destruct (match prev with Some k => N.eqb k (key y) | None => false end) eqn:Hp.
    + apply IH. intros k x Hk Hx. apply (Hprev k x Hk). now right.
    + destruct (IH (Some (key y))) as [Hsorted Hgt].
      { intros k x [= <-] Hx. apply le_key. now apply Hall. }
      split.
      * simpl. constructor; [exact Hsorted|].
        apply Forall_forall. intros k Hk.
        apply in_map_iff in Hk. destruct Hk as (r & <- & Hr).
        now apply (Hgt (key y)).
      * intros k r Hk [<-|Hr].
        -- subst prev. apply N.eqb_neq in Hp.
           assert (k <= key y)%N by (apply (Hprev k y eq_refl); now left).
           lia.
        -- assert (key y < key r)%N by now apply (Hgt (key y)).
           assert (k <= key y)%N by (apply (Hprev k y Hk); now left).
           lia.
Qed.
End DistinctOnFacts.

Section WithRecursiveFacts.
Context {R : Type}.
Variable step : list R -> list R.

Lemma round_S (k : nat) (w : list R) :
  Sql.round step (S k) w = step (Sql.round step k w).
Proof.
  revert w. induction k as [|k IH]; intro w; [reflexivity|].
  change (Sql.round step (S (S k)) w) with (Sql.round step (S k) (step w)).
  rewrite IH. reflexivity.
Qed.

(** Enough fuel: when the working table of round [fuel] is empty, the
    evaluation ends within the bound. *)
Lemma with_recursive_some (fuel : nat) (w : list R) :
  Sql.round step fuel w = [] -> exists l, Sql.with_recursive step fuel w = Some l.
Proof.
  revert w. induction fuel as [|f IH]; intros w Hw; simpl in *.
  - subst w. now exists [].
  - destruct w as [|x tl]; [now exists []|].
    destruct (IH _ Hw) as [l Hl]. rewrite Hl. simpl. eauto.
Qed.

Hypothesis step_nil : step [] = [].

Lemma round_nil (k : nat) : Sql.round step k [] = [].
Proof. induction k as [|k IH]; simpl; [reflexivity | now rewrite step_nil]. Qed.

(** The rows of the recursive table are the rows of its rounds. *)
Lemma with_recursive_In (fuel : nat) (w l : list R) (x : R) :
  Sql.with_recursive step fuel w = Some l ->
  In x l <-> exists k, In x (Sql.round step k w).
Proof.
  revert w l. induction fuel as [|f IH]; intros w l Hl.
  - destruct w as [|y tl]; [|discriminate].
    injection Hl as <-. split; [intros []|].
    intros [k Hk]. now rewrite round_nil in Hk.
  - destruct w as [|y tl].
    + injection Hl as <-. split; [intros []|].
      intros [k Hk]. now rewrite round_nil in Hk.
    + simpl in Hl.
      destruct (Sql.with_recursive step f (step (y :: tl))) as [l'|] eqn:Hl';
        [|discriminate].
      injection Hl as <-.
      change (In x ((y :: tl) ++ l') <-> (exists k, In x (Sql.round step k (y :: tl)))).
      rewrite in_app_iff, (IH _ _ Hl'). split.
      * intros [H|[k Hk]]; [now exists O | now exists (S k)].
      * intros [[|k] Hk]; [now left | right; now exists k].
Qed.
End WithRecursiveFacts.

(* ----------------------------------------------------------------- *)
(** ** Paths and reachability *)

Lemma mem_uuid_In (x : uuid) (l : list uuid) : mem_uuid x l = true <-> In x l.
Proof.
  unfold mem_uuid. rewrite existsb_exists. split.
  - intros (y & Hy & Heq). apply N.eqb_eq in Heq. now subst.
  - intro H. exists x. split; [exact H | apply N.eqb_refl].
Qed.

Lemma node_exists_In (s : store) (x : uuid) :
  node_exists s x = true <-> exists n, In n (kg_nodes s) /\ n_id n = x.
Proof.
  unfold node_exists. rewrite existsb_exists.
  split; intros (n & Hn & H); exists n; (split; [exact Hn|]);
    [now apply N.eqb_eq | now apply N.eqb_eq].
Qed.

Lemma adjacent_sym (s : store) (u v : uuid) : adjacent s u v -> adjacent s v u.
Proof. intros (e & He & H). exists e. tauto. Qed.

(** The paths of [upath] and [dpath] repeat no node. *)
Lemma upath_NoDup (s : store) (start : uuid) (p : list uuid) (v : uuid) :
  upath s start p v -> NoDup p.
Proof.
  induction 1 as [|p u v Hp IH Hadj Hnin].
  - repeat constructor. intros [].
  - apply NoDup_rev in IH. rewrite <- (rev_involutive (p ++ [v])).
    apply NoDup_rev. rewrite rev_app_distr. simpl.
    constructor; [|exact IH]. now rewrite <- in_rev.
Qed.

Lemma dpath_NoDup (s : store) (start : uuid) (p : list uuid)
      (w : sql_error + option float8) (v : uuid) :
  dpath s start p w v -> NoDup p.
Proof.
  induction 1 as [|p w u e Hp IH He Hsrc Hnin].
  - repeat constructor. intros [].
  - apply NoDup_rev in IH. rewrite <- (rev_involutive (p ++ [target_id e])).
    apply NoDup_rev. rewrite rev_app_distr. simpl.
    constructor; [|exact IH]. now rewrite <- in_rev.
Qed.

(** A simple path is a walk. *)
Lemma upath_reach (s : store) (start : uuid) (p : list uuid) (v : uuid) :
  upath s start p v -> exists k, List.length p = S k /\ reach s start k v.
Proof.
  induction 1 as [|p u v Hp (k & Hlen & Hk) Hadj Hnin].
  - exists O. split; [reflexivity | constructor].
  - exists (S k). split.
    + rewrite length_app. simpl. lia.
    + econstructor; eassumption.
Qed.

(** Cutting a simple path at one of its nodes leaves a simple path. *)
Lemma upath_prefix (s : store) (start : uuid) (p : list uuid) (u : uuid) :
  upath s start p u ->
  forall p1 v p2, p = p1 ++ v :: p2 -> upath s start (p1 ++ [v]) v.
Proof.
  induction 1 as [|p u w Hp IH Hadj Hnin]; intros p1 v p2 Heq.
  - destruct p1 as [|a p1]; simpl in Heq.
    + injection Heq as <- _. constructor.
    + injection Heq as _ Heq. now destruct p1.
  - destruct (exists_last (l := v :: p2)) as (q & z & Hq); [discriminate|].
    rewrite Hq, app_assoc in Heq.
    apply app_inj_tail in Heq. destruct Heq as [Hpq <-].
    destruct q as [|a q].
    + simpl in Hq. injection Hq as <-. rewrite app_nil_r in Hpq. subst p1.
      econstructor; eassumption.
    + simpl in Hq. injection Hq as <- ->. eapply IH. exact Hpq.
Qed.

(** Loop erasure: a walk of [k] edges contains a simple path of at most
    [k] edges with the same ends. *)
Lemma reach_upath (s : store) (start : uuid) (k : nat) (v : uuid) :
  reach s start k v ->
  exists p j, upath s start p v /\ List.length p = S j /\ (j <= k)%nat.
Proof.
  induction 1 as [|k u v Hr (p & j & Hp & Hlen & Hj) Hadj].
  - exists [start], O. repeat split; [constructor | lia].
  - destruct (in_dec N.eq_dec v p) as [Hin|Hnin].
    + apply in_split in Hin. destruct Hin as (p1 & p2 & Heq).
      exists (p1 ++ [v]), (List.length p1). split; [|split].
      * eapply upath_prefix; eassumption.
      * rewrite length_app. simpl. lia.
      * subst p. rewrite length_app in Hlen. simpl in Hlen. lia.
    + exists (p ++ [v]), (S j). split; [|split].
      * econstructor; eassumption.
      * rewrite length_app. simpl. lia.
      * lia.
Qed.

(** Adding an edge between nodes that are already adjacent changes
    neither adjacency nor reachability. *)
Lemma reach_ext (s s' : store) (start : uuid) :
  (forall u v, adjacent s u v -> adjacent s' u v) ->
  forall k v, reach s start k v -> reach s' start k v.
Proof.
  intros Hadj k v H. induction H; [constructor | econstructor; eauto].
Qed.

(* ----------------------------------------------------------------- *)
(** ** get_connected_nodes: the rows of [node_graph] *)

Section NodeGraphFacts.
Variable s : store.
Variable start : uuid.
Variable max_depth : Z.

Lemma node_graph_step_In (work : list node_graph_row) (r : node_graph_row) :
  In r (node_graph_step s max_depth work) <->
  exists ng e n,
    In ng work /\ In e (kg_edges s) /\ In n (kg_nodes s) /\
    ((source_id e = node_id ng /\ target_id e = n_id n) \/
     (target_id e = node_id ng /\ source_id e = n_id n)) /\
    depth ng < max_depth /\ ~ In (n_id n) (path ng) /\
    r = mk_ng (n_id n) (n_label n) (n_type n) (n_properties n)
              (depth ng + 1) (path ng ++ [n_id n]).
Proof.
  unfold node_graph_step. rewrite nodup_In, in_flat_map. split.
  - intros (ng & Hng & H). apply in_flat_map in H. destruct H as (e & He & H).
    destruct (N.eqb (node_id ng) (source_id e) || N.eqb (node_id ng) (target_id e));
      [|destruct H].
    apply in_flat_map in H. destruct H as (n & Hn & H).
    unfold node_graph_join in H.
    destruct (_ && _) eqn:Hc in H; [|destruct H].
    destruct H as [<-|[]].
    apply andb_prop in Hc. destruct Hc as [Hc Hmem].
    apply andb_prop in Hc. destruct Hc as [Hjoin Hd].
    exists ng, e, n. repeat split; try assumption.
    + apply orb_prop in Hjoin.
      destruct Hjoin as [H|H]; apply andb_prop in H; destruct H as [H1 H2];
        apply N.eqb_eq in H1, H2; auto.
    + now apply Z.ltb_lt.
    + rewrite <- mem_uuid_In. now destruct (mem_uuid (n_id n) (path ng)).
  - intros (ng & e & n & Hng & He & Hn & Hjoin & Hd & Hnin & ->).
    exists ng. split; [exact Hng|].
    apply in_flat_map. exists e. split; [exact He|].
    assert (Hon : N.eqb (node_id ng) (source_id e) || N.eqb (node_id ng) (target_id e) = true).
    { apply orb_true_iff.
      destruct Hjoin as [[H _]|[H _]]; [left | right]; now apply N.eqb_eq. }
    rewrite Hon. apply in_flat_map. exists n. split; [exact Hn|].
    unfold node_graph_join.
    assert (Hc : ((N.eqb (source_id e) (node_id ng) && N.eqb (target_id e) (n_id n))
                  || (N.eqb (target_id e) (node_id ng) && N.eqb (source_id e) (n_id n)))
                 && (depth ng <? max_depth)
                 && negb (mem_uuid (n_id n) (path ng)) = true).
    { rewrite !andb_true_iff, orb_true_iff, !andb_true_iff, !N.eqb_eq.
      split; [split|].
      - exact Hjoin.
      - now apply Z.ltb_lt.
      - destruct (mem_uuid (n_id n) (path ng)) eqn:Hm; [|reflexivity].
        apply mem_uuid_In in Hm. contradiction. }
    rewrite Hc. now left.
Qed.

Lemma node_graph_step_nil : node_graph_step s max_depth [] = [].
Proof. reflexivity. Qed.

Lemma node_graph_base_In (r : node_graph_row) :
  In r (node_graph_base s start) <->
  exists n, In n (kg_nodes s) /\ n_id n = start /\
    r = mk_ng (n_id n) (n_label n) (n_type n) (n_properties n) 0 [n_id n].
Proof.
  unfold node_graph_base. rewrite in_map_iff. split.
  - intros (n & <- & Hn). apply filter_In in Hn. destruct Hn as [Hn Heq].
    apply N.eqb_eq in Heq. eauto.
  - intros (n & Hn & Heq & ->). exists n. split; [reflexivity|].
    apply filter_In. split; [exact Hn | now apply N.eqb_eq].
Qed.

(** Every row of round [k] carries a simple path of [k] edges from the
    start node to its node, and rounds after the first stay within
    [max_depth]. *)
Lemma round_sound (k : nat) (r : node_graph_row) :
  In r (Sql.round (node_graph_step s max_depth) k (node_graph_base s start)) ->
  depth r = Z.of_nat k /\ upath s start (path r) (node_id r) /\
  List.length (path r) = S k /\ (k = O \/ Z.of_nat k <= max_depth).
Proof.
  revert r. induction k as [|k IH]; intros r Hr.
  - simpl in Hr. apply node_graph_base_In in Hr.
    destruct Hr as (n & Hn & Heq & ->). simpl. rewrite Heq.
    repeat split; [constructor | now left].
  - rewrite round_S in Hr. apply node_graph_step_In in Hr.
    destruct Hr as (ng & e & n & Hng & He & Hn & Hjoin & Hd & Hnin & ->).
    destruct (IH _ Hng) as (Hdepth & Hpath & Hlen & _). simpl.
    split; [lia|]. split; [|split].
    + eapply upath_snoc; [exact Hpath | | exact Hnin].
      exists e. split; [exact He|]. exact Hjoin.
    + rewrite length_app. simpl. lia.
    + right. lia.
Qed.

Hypothesis FK : edges_reference_nodes s.
Hypothesis start_exists : node_exists s start = true.

(** Every simple path of at most [max_depth] edges from the start node
    is the path of a row. *)
Lemma round_complete (p : list uuid) (v : uuid) :
  upath s start p v ->
  forall k, List.length p = S k -> (k = O \/ Z.of_nat k <= max_depth) ->
  exists r, In r (Sql.round (node_graph_step s max_depth) k (node_graph_base s start))
            /\ node_id r = v /\ path r = p /\ depth r = Z.of_nat k.
Proof.
  induction 1 as [|p u v Hp IH Hadj Hnin]; intros k Hlen Hk.
  - injection Hlen as <-. simpl.
    destruct (proj1 (node_exists_In _ _) start_exists) as (n & Hn & Heq).
    exists (mk_ng (n_id n) (n_label n) (n_type n) (n_properties n) 0 [n_id n]).
    split; [apply node_graph_base_In; eauto|]. simpl. now rewrite Heq.
  - rewrite length_app in Hlen. simpl in Hlen.
    destruct (upath_reach _ _ _ _ Hp) as (j & Hj & _).
    destruct k as [|k]; [lia|].
    destruct Hk as [Hk|Hk]; [discriminate|].
    destruct (IH k) as (ng & Hng & Hid & Hpath & Hdepth); [lia | right; lia|].
    destruct Hadj as (e & He & Hends).
    assert (Hv : node_exists s v = true).
    { destruct (FK e He) as [Hs Ht].
      destruct Hends as [[_ <-]|[_ <-]]; assumption. }
    apply node_exists_In in Hv. destruct Hv as (n & Hn & Heq).
    exists (mk_ng (n_id n) (n_label n) (n_type n) (n_properties n)
                  (depth ng + 1) (path ng ++ [n_id n])).
    split; [|simpl; rewrite Heq, Hpath, Hdepth; repeat split; lia].
    rewrite round_S. apply node_graph_step_In.
    exists ng, e, n. rewrite Hid, Heq, Hpath. repeat split; auto. lia.
Qed.
End NodeGraphFacts.

(** The recursion always ends within the fuel given to it. *)
Lemma node_graph_total (s : store) (start : uuid) (max_depth : Z) :
  exists rows, node_graph s start max_depth (S (Z.to_nat max_depth)) = Some rows.
Proof.
  apply with_recursive_some.
  destruct (Sql.round _ _ _) as [|r tl] eqn:Hround; [reflexivity|].
  assert (Hr : In r (Sql.round (node_graph_step s max_depth) (S (Z.to_nat max_depth))
                       (node_graph_base s start)))
    by (rewrite Hround; now left).
  apply round_sound in Hr. destruct Hr as (_ & _ & _ & [H|H]); [discriminate | lia].
Qed.

(* ----------------------------------------------------------------- *)
(** ** get_connected_nodes: the final selection *)

Lemma by_node_id_depth_spec (a b : node_graph_row) :
  by_node_id_depth a b = true <->
  (node_id a < node_id b)%N \/ (node_id a = node_id b /\ depth a <= depth b).
Proof.
  unfold by_node_id_depth.
  rewrite orb_true_iff, andb_true_iff, N.ltb_lt, N.eqb_eq, Z.leb_le. tauto.
Qed.

Lemma by_node_id_depth_total (a b : node_graph_row) :
  by_node_id_depth a b = true \/ by_node_id_depth b a = true.
Proof. rewrite !by_node_id_depth_spec. lia. Qed.

Lemma by_node_id_depth_trans (a b c : node_graph_row) :
  by_node_id_depth a b = true -> by_node_id_depth b c = true ->
  by_node_id_depth a c = true.
Proof. rewrite !by_node_id_depth_spec. lia. Qed.

Lemma by_node_id_depth_key (a b : node_graph_row) :
  by_node_id_depth a b = true -> (node_id a <= node_id b)%N.
Proof. rewrite by_node_id_depth_spec. lia. Qed.

Lemma select_connected_incl (all : list node_graph_row) (r : node_graph_row) :
  In r (select_connected all) -> In r all.
Proof.
  intro H. apply distinct_on_from_incl in H. now apply order_by_In in H.
Qed.

Lemma select_connected_covers (all : list node_graph_row) (x : node_graph_row) :
  In x all ->
  exists r, In r (select_connected all) /\ node_id r = node_id x /\ depth r <= depth x.
Proof.
  intro Hx.
  destruct (distinct_on_from_covers node_id by_node_id_depth
              (Sql.order_by by_node_id_depth all)
              (order_by_sorted _ by_node_id_depth_total by_node_id_depth_trans all)
              None x) as [H|(r & Hr & Hk & Hle)].
  - now apply order_by_In.
  - discriminate.
  - exists r. split; [exact Hr|]. split; [exact Hk|].
    destruct Hle as [->|Hle]; [lia|].
    apply by_node_id_depth_spec in Hle. lia.
Qed.

Lemma select_connected_sorted (all : list node_graph_row) :
  StronglySorted N.lt (map node_id (select_connected all)).
Proof.
  apply (distinct_on_from_increasing node_id by_node_id_depth by_node_id_depth_key
           (Sql.order_by by_node_id_depth all)
           (order_by_sorted _ by_node_id_depth_total by_node_id_depth_trans all)
           None).
  discriminate.
Qed.

Lemma sorted_lt_NoDup (l : list N) : StronglySorted N.lt l -> NoDup l.
Proof.
  induction 1 as [|x tl Hs IH Hall]; constructor; [|exact IH].
  intro Hin. rewrite Forall_forall in Hall. specialize (Hall x Hin). lia.
Qed.

Lemma NoDup_map_eq {A B : Type} (f : A -> B) (l : list A) (a b : A) :
  NoDup (map f l) -> In a l -> In b l -> f a = f b -> a = b.
Proof.
  induction l as [|x tl IH]; simpl; intros Hnd Ha Hb Hf; [destruct Ha|].
  inversion Hnd as [|? ? Hnin Hnd']; subst.
  destruct Ha as [->|Ha], Hb as [->|Hb]; auto.
  - exfalso. apply Hnin. rewrite Hf. now apply in_map.
  - exfalso. apply Hnin. rewrite <- Hf. now apply in_map.
Qed.

(** What [get_connected_nodes] returns on a store whose edges reference
    existing nodes, for an existing start node: the nodes reachable within
    [max_depth] undirected steps, each once, at its least number of steps,
    by ascending id. *)
Lemma get_connected_nodes_rows (s : store) (n : uuid) (max_depth : Z) :
  edges_reference_nodes s -> node_exists s n = true ->
  exists rows,
    get_connected_nodes s n max_depth = Some rows /\
    StronglySorted N.lt (map node_id rows) /\
    (forall r, In r rows ->
       exists k, depth r = Z.of_nat k /\ (k = O \/ Z.of_nat k <= max_depth) /\
                 reach s n k (node_id r) /\
                 forall j, reach s n j (node_id r) -> (k <= j)%nat) /\
    (forall k v, reach s n k v -> (k = O \/ Z.of_nat k <= max_depth) ->
       In v (map node_id rows)).
Proof.
  intros FK Hstart.
  destruct (node_graph_total s n max_depth) as [all Hall].
  unfold get_connected_nodes. rewrite Hall. simpl.
  exists (select_connected all). split; [reflexivity|].
  pose proof (select_connected_sorted all) as Hsorted.
  assert (Hrounds : forall x, In x all <->
            exists k, In x (Sql.round (node_graph_step s max_depth) k (node_graph_base s n)))
    by (intro x; apply (with_recursive_In _ (node_graph_step_nil s max_depth) _ _ _ x Hall)).
  (* a walk within the bound yields a row of the recursive table *)
  assert (Hwalk : forall k v, reach s n k v -> (k = O \/ Z.of_nat k <= max_depth) ->
            exists x j, In x all /\ node_id x = v /\ depth x = Z.of_nat j /\ (j <= k)%nat).
  { intros k v Hreach Hk.
    destruct (reach_upath _ _ _ _ Hreach) as (p & j & Hp & Hlen & Hj).
    destruct (round_complete s n max_depth FK Hstart p v Hp j Hlen)
      as (x & Hx & Hid & _ & Hd); [lia|].
    exists x, j. split; [apply Hrounds; eauto | auto]. }
  split; [exact Hsorted|]. split.
  - intros r Hr.
    pose proof (select_connected_incl _ _ Hr) as Hin.
    apply Hrounds in Hin. destruct Hin as [k Hk].
    destruct (round_sound _ _ _ _ _ Hk) as (Hd & Hp & Hlen & Hbound).
    exists k. split; [exact Hd|]. split; [exact Hbound|]. split.
    + destruct (upath_reach _ _ _ _ Hp) as (k' & Hlen' & Hreach).
      assert (k' = k) by lia. now subst.
    + intros j Hj.
      destruct (Nat.le_gt_cases k j) as [|Hlt]; [assumption|exfalso].
      destruct (Hwalk j (node_id r) Hj) as (x & j' & Hx & Hid & Hdx & Hj'); [lia|].
      destruct (select_connected_covers all x Hx) as (r' & Hr' & Hid' & Hd').
      assert (r' = r).
      { apply (NoDup_map_eq node_id (select_connected all)); auto.
        - now apply sorted_lt_NoDup.
        - congruence. }
      subst r'. lia.
  - intros k v Hreach Hk.
    destruct (Hwalk k v Hreach Hk) as (x & j & Hx & Hid & _ & _).
    destruct (select_connected_covers all x Hx) as (r & Hr & Hid' & _).
    apply in_map_iff. exists r. split; [congruence | exact Hr].
Qed.

Lemma in_id_depth (rows : list node_graph_row) (v : uuid) (d : Z) :
  In (v, d) (map id_depth rows) <-> exists r, In r rows /\ node_id r = v /\ depth r = d.
Proof.
  rewrite in_map_iff. unfold id_depth. split.
  - intros (r & [= <- <-] & Hr). eauto.
  - intros (r & Hr & <- & <-). eauto.
Qed.

(** C1 (amended): for a store whose edges reference existing nodes and an
    existing start node [n], [get_connected_nodes] returns [n] at depth 0
    and at no other depth; every returned node id occurs once, at the least
    number of undirected steps by which it is reachable from [n]; every
    node reachable within [max_depth] steps is returned; no depth exceeds
    [max 0 max_depth]; the rows are in ascending id order.  On the graph
    A->B, B->C, A->C the call with start A and depth 1 returns A at depth 0
    and both B and C at depth 1. *)
Theorem connected_min_depth (s : store) (n : uuid) (max_depth : Z) :
  edges_reference_nodes s -> node_exists s n = true ->
  (exists rows,
     get_connected_nodes s n max_depth = Some rows /\
     In (n, 0) (map id_depth rows) /\
     (forall d, In (n, d) (map id_depth rows) -> d = 0) /\
     NoDup (map node_id rows) /\
     (forall v d, In (v, d) (map id_depth rows) ->
        exists k, d = Z.of_nat k /\ reach s n k v /\
                  forall j, reach s n j v -> (k <= j)%nat) /\
     (forall k v, reach s n k v -> Z.of_nat k <= max_depth ->
        In v (map node_id rows)) /\
     (forall v d, In (v, d) (map id_depth rows) -> d <= Z.max 0 max_depth) /\
     StronglySorted N.lt (map node_id rows)) /\
  option_map (map id_depth) (get_connected_nodes abc_store 1%N 1)
  = Some [(1%N, 0); (2%N, 1); (3%N, 1)].
Proof.
  intros FK Hstart. split; [|vm_compute; reflexivity].
  destruct (get_connected_nodes_rows s n max_depth FK Hstart)
    as (rows & Hrows & Hsorted & Hmin & Hall).
  exists rows. split; [exact Hrows|].
  assert (Hpair : forall v d, In (v, d) (map id_depth rows) ->
            exists k, d = Z.of_nat k /\ (k = O \/ Z.of_nat k <= max_depth) /\
                      reach s n k v /\ forall j, reach s n j v -> (k <= j)%nat).
  { intros v d Hin. apply in_id_depth in Hin. destruct Hin as (r & Hr & <- & <-).
    destruct (Hmin r Hr) as (k & Hd & Hb & Hreach & Hleast). eauto 6. }
  assert (Hn : forall d, In (n, d) (map id_depth rows) -> d = 0).
  { intros d Hin. destruct (Hpair n d Hin) as (k & -> & _ & _ & Hleast).
    specialize (Hleast O (reach_O s n)). lia. }
  repeat split.
  - assert (Hin : In n (map node_id rows)) by (apply (Hall O); [constructor | now left]).
    apply in_map_iff in Hin. destruct Hin as (r & Hid & Hr).
    assert (Hd : In (n, depth r) (map id_depth rows))
      by (apply in_id_depth; eauto).
    now rewrite <- (Hn _ Hd).
  - exact Hn.
  - now apply sorted_lt_NoDup.
  - intros v d Hin. destruct (Hpair v d Hin) as (k & Hd & _ & Hreach & Hleast). eauto.
  - intros k v Hreach Hk. apply (Hall k); [exact Hreach | now right].
  - intros v d Hin. destruct (Hpair v d Hin) as (k & -> & Hb & _). lia.
  - exact Hsorted.
Qed.

Lemma connected_min_depth_witness :
  (exists rows,
     get_connected_nodes abc_store 1%N 1 = Some rows /\
     In (1%N, 0) (map id_depth rows) /\
     (forall d, In (1%N, d) (map id_depth rows) -> d = 0) /\
     NoDup (map node_id rows) /\
     (forall v d, In (v, d) (map id_depth rows) ->
        exists k, d = Z.of_nat k /\ reach abc_store 1%N k v /\
                  forall j, reach abc_store 1%N j v -> (k <= j)%nat) /\
     (forall k v, reach abc_store 1%N k v -> Z.of_nat k <= 1 ->
        In v (map node_id rows)) /\
     (forall v d, In (v, d) (map id_depth rows) -> d <= Z.max 0 1) /\
     StronglySorted N.lt (map node_id rows)) /\
  option_map (map id_depth) (get_connected_nodes abc_store 1%N 1)
  = Some [(1%N, 0); (2%N, 1); (3%N, 1)].
Proof.
  apply (connected_min_depth abc_store 1%N 1).
  - intros e [<-|[<-|[<-|[]]]]; split; reflexivity.
  - reflexivity.
Defined.

(** C1 as stated fails: on A->B, B->C, A->C the node C is adjacent to A,
    so the call with start A and depth 1 returns C at depth 1 as well; and
    with a negative [max_depth] the start node is still returned at depth
    0, above the bound. *)
Lemma connected_scenario_counterexample :
  option_map (map id_depth) (get_connected_nodes abc_store 1%N 1)
    <> Some [(1%N, 0); (2%N, 1)]
  /\ (exists rows, get_connected_nodes abc_store 1%N 1 = Some rows
                   /\ In (3%N, 1) (map id_depth rows))
  /\ (exists rows, get_connected_nodes abc_store 1%N (-1) = Some rows
                   /\ In (1%N, 0) (map id_depth rows) /\ 0 > -1).
Proof.
  split; [vm_compute; discriminate|]. split.
  - eexists. split; [vm_compute; reflexivity|]. vm_compute. tauto.
  - eexists. split; [vm_compute; reflexivity|]. split; [vm_compute; tauto | lia].
Qed.

(* ----------------------------------------------------------------- *)
(** ** Adding a reverse-direction duplicate *)

Lemma sorted_lt_ext (l1 l2 : list N) :
  StronglySorted N.lt l1 -> StronglySorted N.lt l2 ->
  (forall x, In x l1 <-> In x l2) -> l1 = l2.
Proof.
  intro H1. revert l2. induction H1 as [|a l1 Hs1 IH Ha]; intros l2 H2 Hext.
  - destruct l2 as [|b l2]; [reflexivity|].
    exfalso. apply (Hext b). now left.
  - destruct H2 as [|b l2 Hs2 Hb].
    + exfalso. apply (Hext a). now left.
    + rewrite Forall_forall in Ha, Hb.
      assert (a = b).
      { destruct (proj1 (Hext a) (or_introl eq_refl)) as [->|Hin]; [reflexivity|].
        destruct (proj2 (Hext b) (or_introl eq_refl)) as [->|Hin']; [reflexivity|].
        specialize (Ha _ Hin'). specialize (Hb _ Hin). lia. }
      subst b. f_equal. apply IH; [exact Hs2|].
      intro x. split; intro Hx.
      * destruct (proj1 (Hext x) (or_intror Hx)) as [->|]; [|assumption].
        specialize (Ha _ Hx). lia.
      * destruct (proj2 (Hext x) (or_intror Hx)) as [->|]; [|assumption].
        specialize (Hb _ Hx). lia.
Qed.

Lemma id_depth_ext (l1 l2 : list node_graph_row) :
  map node_id l1 = map node_id l2 ->
  (forall r1 r2, In r1 l1 -> In r2 l2 -> node_id r1 = node_id r2 -> depth r1 = depth r2) ->
  map id_depth l1 = map id_depth l2.
Proof.
  revert l2. induction l1 as [|a l1 IH]; intros [|b l2] Hids Hd;
    try discriminate; [reflexivity|].
  simpl in *. injection Hids as Hab Hids. unfold id_depth at 1 3.
  rewrite Hab, (Hd a b); auto. f_equal. apply IH; auto.
Qed.

Lemma insert_edge_inr (s s' : store) (e : kg_edge) :
  insert_edge s e = inr s' ->
  s' = mk_store (kg_nodes s) (kg_edges s ++ [e]) (document_chunks s) /\
  existsb (fun x => N.eqb (e_id x) (e_id e)) (kg_edges s) = false /\
  existsb (same_triple e) (kg_edges s) = false /\
  node_exists s (source_id e) = true /\ node_exists s (target_id e) = true.
Proof.
  unfold insert_edge.
  destruct (existsb (fun x => N.eqb (e_id x) (e_id e)) (kg_edges s)); [discriminate|].
  destruct (existsb (same_triple e) (kg_edges s)); [discriminate|].
  destruct (node_exists s (source_id e)); [|discriminate].
  destruct (node_exists s (target_id e)); [|discriminate].
  simpl. intros [= <-]. auto.
Qed.

Lemma adjacent_add_reverse (s : store) (e e' : kg_edge) (u v : uuid) :
  In e (kg_edges s) ->
  source_id e' = target_id e -> target_id e' = source_id e ->
  adjacent (mk_store (kg_nodes s) (kg_edges s ++ [e']) (document_chunks s)) u v
  <-> adjacent s u v.
Proof.
  intros He Hs Ht. unfold adjacent. simpl. split.
  - intros (x & Hx & Hends). apply in_app_or in Hx. destruct Hx as [Hx|[<-|[]]].
    + eauto.
    + exists e. split; [exact He|]. rewrite Hs, Ht in Hends. tauto.
  - intros (x & Hx & Hends). exists x. split; [|exact Hends].
    apply in_or_app. now left.
Qed.

(** Two results with the same reachability relation list the same ids at
    the same depths. *)
Lemma connected_rows_determined (s s' : store) (n : uuid) (max_depth : Z)
      (rows rows' : list node_graph_row) :
  (forall k v, reach s n k v <-> reach s' n k v) ->
  edges_reference_nodes s -> node_exists s n = true ->
  edges_reference_nodes s' -> node_exists s' n = true ->
  get_connected_nodes s n max_depth = Some rows ->
  get_connected_nodes s' n max_depth = Some rows' ->
  map id_depth rows' = map id_depth rows.
Proof.
  intros Hreach FK Hn FK' Hn' Hrows Hrows'.
  destruct (get_connected_nodes_rows s n max_depth FK Hn)
    as (l & Hl & Hsorted & Hmin & Hall).
  destruct (get_connected_nodes_rows s' n max_depth FK' Hn')
    as (l' & Hl' & Hsorted' & Hmin' & Hall').
  assert (l = rows) by congruence. assert (l' = rows') by congruence. subst l l'.
  apply id_depth_ext.
  - apply sorted_lt_ext; [assumption | assumption|].
    intro v. rewrite !in_map_iff. split; intros (r & <- & Hr).
    + destruct (Hmin' r Hr) as (k & _ & Hb & Hk & _).
      apply in_map_iff. apply (Hall k); [now apply Hreach | exact Hb].
    + destruct (Hmin r Hr) as (k & _ & Hb & Hk & _).
      apply in_map_iff. apply (Hall' k); [now apply Hreach | exact Hb].
  - intros r1 r2 H1 H2 Hid.
    destruct (Hmin' r1 H1) as (k1 & -> & _ & Hk1 & Hleast1).
    destruct (Hmin r2 H2) as (k2 & -> & _ & Hk2 & Hleast2).
    rewrite Hid in Hk1, Hleast1.
    assert (k1 <= k2)%nat by (apply Hleast1; now apply Hreach).
    assert (k2 <= k1)%nat by (apply Hleast2; now apply Hreach).
    lia.
Qed.

(** C9: [get_connected_nodes] treats edges as undirected.  From an
    existing node it returns exactly the nodes that walks along edges taken
    in either direction reach within the bound (the start node among
    them); whenever it returns one endpoint of an edge below the bound it
    returns the other endpoint too, at most one step deeper, whichever of
    the two is the source; and inserting an edge that runs opposite to an
    existing edge leaves the node ids returned, and their depths,
    unchanged, whether the insert succeeds or is rejected. *)
Theorem connected_reverse_duplicate
        (s : store) (e e' : kg_edge) (n : uuid) (max_depth : Z) :
  edges_reference_nodes s -> node_exists s n = true ->
  In e (kg_edges s) ->
  source_id e' = target_id e -> target_id e' = source_id e ->
  exists rows rows',
    get_connected_nodes s n max_depth = Some rows /\
    get_connected_nodes (after s (InsertEdge e')) n max_depth = Some rows' /\
    map node_id rows' = map node_id rows /\
    map depth rows' = map depth rows /\
    (forall v, In v (map node_id rows) <->
       exists k, reach s n k v /\ (k = O \/ Z.of_nat k <= max_depth)) /\
    (forall x d, In x (kg_edges s) -> d < max_depth ->
       (In (source_id x, d) (map id_depth rows) ->
        exists z, In (target_id x, z) (map id_depth rows) /\ z <= d + 1) /\
       (In (target_id x, d) (map id_depth rows) ->
        exists z, In (source_id x, z) (map id_depth rows) /\ z <= d + 1)).
Proof.
  intros FK Hn He Hs Ht.
  destruct (get_connected_nodes_rows s n max_depth FK Hn)
    as (rows & Hrows & _ & Hmin & Hall).
  exists rows.
  assert (Hset : forall v, In v (map node_id rows) <->
            exists k, reach s n k v /\ (k = O \/ Z.of_nat k <= max_depth)).
  { intro v. split.
    - intro Hv. apply in_map_iff in Hv. destruct Hv as (r & <- & Hr).
      destruct (Hmin r Hr) as (k & _ & Hb & Hreach & _). eauto.
    - intros (k & Hreach & Hb). now apply (Hall k). }
  assert (Hstep : forall u v d, adjacent s u v -> d < max_depth ->
            In (u, d) (map id_depth rows) ->
            exists z, In (v, z) (map id_depth rows) /\ z <= d + 1).
  { intros u v d Huv Hd Hin. apply in_id_depth in Hin.
    destruct Hin as (r & Hr & Hid & Hdepth).
    destruct (Hmin r Hr) as (k & Hk & _ & Hreach & _). rewrite Hid in Hreach.
    assert (Hv : reach s n (S k) v) by (apply (reach_S s n k u v); assumption).
    assert (Hin : In v (map node_id rows)) by (apply (Hall (S k)); [exact Hv | right; lia]).
    apply in_map_iff in Hin. destruct Hin as (r' & Hid' & Hr').
    destruct (Hmin r' Hr') as (k' & Hk' & _ & _ & Hleast).
    rewrite Hid' in Hleast. specialize (Hleast (S k) Hv).
    exists (depth r'). split; [apply in_id_depth; eauto | lia]. }
  assert (Hedges : forall x d, In x (kg_edges s) -> d < max_depth ->
            (In (source_id x, d) (map id_depth rows) ->
             exists z, In (target_id x, z) (map id_depth rows) /\ z <= d + 1) /\
            (In (target_id x, d) (map id_depth rows) ->
             exists z, In (source_id x, z) (map id_depth rows) /\ z <= d + 1)).
  { intros x d Hx Hd. split; apply Hstep; try exact Hd; exists x; auto. }
  unfold after, apply_op.
  destruct (insert_edge s e') as [err|s'] eqn:Hins.
  - exists rows. auto 7.
  - apply insert_edge_inr in Hins. destruct Hins as (-> & _ & _ & Hsrc & Htgt).
    set (s' := mk_store (kg_nodes s) (kg_edges s ++ [e']) (document_chunks s)).
    assert (FK' : edges_reference_nodes s').
    { intros x Hx. simpl in Hx. apply in_app_or in Hx.
      destruct Hx as [Hx|[<-|[]]]; [now apply FK | split; assumption]. }
    assert (Hn' : node_exists s' n = true) by exact Hn.
    destruct (get_connected_nodes_rows s' n max_depth FK' Hn') as (rows' & Hrows' & _).
    exists rows'. split; [exact Hrows|]. split; [exact Hrows'|].
    assert (Heq : map id_depth rows' = map id_depth rows).
    { apply (connected_rows_determined s s' n max_depth); auto.
      intros k v. split; apply reach_ext; intros a b Hab;
        now apply (adjacent_add_reverse s e e' a b He Hs Ht). }
    split; [|split; [|split; [exact Hset | exact Hedges]]].
    + apply (f_equal (map fst)) in Heq. now rewrite !map_map in Heq.
    + apply (f_equal (map snd)) in Heq. now rewrite !map_map in Heq.
Qed.

Lemma connected_reverse_duplicate_witness :
  exists rows rows',
    get_connected_nodes abc_store 1%N 2 = Some rows /\
    get_connected_nodes
      (after abc_store (InsertEdge (mk_edge 14%N 2%N 1%N "x" None (Some (F8 1)))))
      1%N 2 = Some rows' /\
    map node_id rows' = map node_id rows /\
    map depth rows' = map depth rows /\
    (exists z, In (3%N, z) (map id_depth rows) /\ z <= 1 + 1).
Proof.
  destruct (connected_reverse_duplicate abc_store edgeAB
              (mk_edge 14%N 2%N 1%N "x" None (Some (F8 1))) 1%N 2)
    as (rows & rows' & Hrows & Hrows' & Hids & Hdepths & _ & Hedges).
  - intros e [<-|[<-|[<-|[]]]]; split; reflexivity.
  - reflexivity.
  - simpl. tauto.
  - reflexivity.
  - reflexivity.
  - exists rows, rows'. split; [exact Hrows|]. split; [exact Hrows'|].
    split; [exact Hids|]. split; [exact Hdepths|].
    destruct (Hedges edgeBC 1) as [Hfwd _]; [simpl; tauto | lia|].
    apply Hfwd. vm_compute in Hrows. injection Hrows as <-. vm_compute. tauto.
Defined.

(* ----------------------------------------------------------------- *)
(** ** find_shortest_path: the rows of [paths] *)

Lemma float8_le_total (a b : option float8) :
  float8_le a b = true \/ float8_le b a = true.
Proof.
  destruct a as [x|], b as [y|]; simpl; auto. apply float8_leb_total.
Qed.

Lemma float8_le_trans (a b c : option float8) :
  float8_le a b = true -> float8_le b c = true -> float8_le a c = true.
Proof.
  destruct a as [x|], b as [y|], c as [z|]; simpl; auto; try discriminate.
  apply float8_leb_trans.
Qed.

(** The first row of an ordered non-empty table is least. *)
Lemma first_of_order_by {A : Type} (le : A -> A -> bool) (l : list A) (x : A) :
  (forall a b, le a b = true \/ le b a = true) ->
  (forall a b c, le a b = true -> le b c = true -> le a c = true) ->
  In x l ->
  exists m, firstn 1 (Sql.order_by le l) = [m] /\ In m l /\
            forall y, In y l -> le m y = true.
Proof.
  intros Htot Htrans Hx.
  pose proof (order_by_sorted le Htot Htrans l) as Hsorted.
  pose proof (order_by_In le l) as Hin.
  destruct (Sql.order_by le l) as [|m tl].
  - exfalso. now apply (Hin x).
  - exists m. split; [reflexivity|]. split; [apply Hin; now left|].
    intros y Hy. apply Hin in Hy. destruct Hy as [<-|Hy].
    + destruct (Htot m m); assumption.
    + inversion Hsorted as [|? ? _ Hall]; subst.
      rewrite Forall_forall in Hall. now apply Hall.
Qed.

Section PathsFacts.
Variable s : store.
Variable start_id : uuid.
Variable max_depth : Z.

Lemma paths_step_In (work : list paths_row) (r : paths_row) :
  In r (paths_step s max_depth work) <->
  exists p e,
    In p work /\ In e (kg_edges s) /\ source_id e = current_node p /\
    ~ In (target_id e) (p_path p) /\
    Z.of_nat (List.length (p_path p)) < max_depth /\
    r = mk_paths (p_path p ++ [target_id e])
                 (accumulate (total_weight p) (weight e)) (target_id e).
Proof.
  unfold paths_step. rewrite in_flat_map. split.
  - intros (p & Hp & H). apply in_flat_map in H. destruct H as (e & He & H).
    unfold paths_join in H. destruct (_ && _) eqn:Hc in H; [|destruct H].
    destruct H as [<-|[]].
    apply andb_prop in Hc. destruct Hc as [Hc Hlen].
    apply andb_prop in Hc. destruct Hc as [Hsrc Hmem].
    exists p, e. repeat split; try assumption.
    + now apply N.eqb_eq.
    + rewrite <- mem_uuid_In. now destruct (mem_uuid (target_id e) (p_path p)).
    + now apply Z.ltb_lt.
  - intros (p & e & Hp & He & Hsrc & Hnin & Hlen & ->).
    exists p. split; [exact Hp|]. apply in_flat_map. exists e. split; [exact He|].
    unfold paths_join.
    assert (Hc : N.eqb (source_id e) (current_node p)
                 && negb (mem_uuid (target_id e) (p_path p))
                 && (Z.of_nat (List.length (p_path p)) <? max_depth) = true).
    { rewrite !andb_true_iff, N.eqb_eq, Z.ltb_lt. repeat split; try assumption.
      destruct (mem_uuid (target_id e) (p_path p)) eqn:Hm; [|reflexivity].
      apply mem_uuid_In in Hm. contradiction. }
    rewrite Hc. now left.
Qed.

Lemma paths_step_nil : paths_step s max_depth [] = [].
Proof. reflexivity. Qed.

(** Every row of round [k] is a simple directed path of [k] edges from an
    existing start node, within the bound. *)
Lemma paths_round_sound (k : nat) (r : paths_row) :
  In r (Sql.round (paths_step s max_depth) k (paths_base s start_id)) ->
  node_exists s start_id = true /\
  dpath s start_id (p_path r) (total_weight r) (current_node r) /\
  List.length (p_path r) = S k /\ within_depth_bound max_depth (p_path r).
Proof.
  revert r. induction k as [|k IH]; intros r Hr.
  - simpl in Hr. unfold paths_base in Hr.
    destruct (node_exists s start_id); [|destruct Hr].
    destruct Hr as [<-|[]]. simpl.
    repeat split; [constructor | now left].
  - rewrite round_S in Hr. apply paths_step_In in Hr.
    destruct Hr as (p & e & Hp & He & Hsrc & Hnin & Hlen & ->).
    destruct (IH _ Hp) as (Hex & Hd & Hl & _). simpl.
    split; [exact Hex|]. split; [|split].
    + now apply dpath_snoc with (u := current_node p).
    + rewrite length_app. simpl. lia.
    + right. rewrite length_app. simpl. lia.
Qed.

(** Every simple directed path within the bound is a row. *)
Lemma paths_round_complete (p : list uuid) (w : sql_error + option float8) (v : uuid) :
  node_exists s start_id = true ->
  dpath s start_id p w v ->
  forall k, List.length p = S k -> within_depth_bound max_depth p ->
  In (mk_paths p w v)
     (Sql.round (paths_step s max_depth) k (paths_base s start_id)).
Proof.
  intros Hex. induction 1 as [|p w u e Hp IH He Hsrc Hnin]; intros k Hlen Hb.
  - injection Hlen as <-. simpl. unfold paths_base. rewrite Hex. now left.
  - rewrite length_app in Hlen. simpl in Hlen.
    unfold within_depth_bound in Hb. rewrite length_app in Hb. simpl in Hb.
    assert (Hpos : exists j, List.length p = S j).
    { clear -Hp. destruct Hp; [now exists O|].
      rewrite length_app. simpl. exists (List.length p). lia. }
    destruct Hpos as [j Hj].
    destruct k as [|k]; [lia|].
    rewrite round_S. apply paths_step_In.
    exists (mk_paths p w u), e. simpl. repeat split; auto; [|lia].
    apply IH; [lia|]. right. lia.
Qed.
End PathsFacts.

Lemma paths_total (s : store) (start_id : uuid) (max_depth : Z) :
  exists rows, paths s start_id max_depth (S (Z.to_nat max_depth)) = Some rows.
Proof.
  apply with_recursive_some.
  destruct (Sql.round _ _ _) as [|r tl] eqn:Hround; [reflexivity|].
  assert (Hr : In r (Sql.round (paths_step s max_depth) (S (Z.to_nat max_depth))
                       (paths_base s start_id)))
    by (rewrite Hround; now left).
  apply paths_round_sound in Hr. destruct Hr as (_ & _ & Hlen & [H|H]); lia.
Qed.

(** The rows of [paths] are the simple directed paths within the bound. *)
Lemma paths_rows (s : store) (start_id : uuid) (max_depth : Z)
      (rows : list paths_row) :
  paths s start_id max_depth (S (Z.to_nat max_depth)) = Some rows ->
  forall r, In r rows <->
    node_exists s start_id = true /\
    dpath s start_id (p_path r) (total_weight r) (current_node r) /\
    within_depth_bound max_depth (p_path r).
Proof.
  intros Hrows r.
  rewrite (with_recursive_In _ (paths_step_nil s max_depth) _ _ _ r Hrows).
  split.
  - intros [k Hk]. apply paths_round_sound in Hk. tauto.
  - intros (Hex & Hd & Hb).
    assert (Hpos : exists k, List.length (p_path r) = S k).
    { clear -Hd. destruct Hd; [now exists O|].
      rewrite length_app. simpl. exists (List.length p). lia. }
    destruct Hpos as [k Hk]. exists k.
    destruct r as [p w v]. simpl in *. now apply paths_round_complete.
Qed.

Lemma first_error_None (rows : list paths_row) :
  first_error rows = None <-> forall r, In r rows -> exists w, total_weight r = inr w.
Proof.
  induction rows as [|r rest IH]; simpl.
  - split; [intros _ ? [] | reflexivity].
  - destruct (total_weight r) as [e|w] eqn:Hr.
    + split; [discriminate|]. intro H.
      destruct (H r (or_introl eq_refl)) as [w Hw]. congruence.
    + rewrite IH. split.
      * intros H x [<-|Hx]; [eauto | now apply H].
      * intros H x Hx. apply H. now right.
Qed.

Lemma first_error_Some (rows : list paths_row) (e : sql_error) :
  first_error rows = Some e -> exists r, In r rows /\ total_weight r = inl e.
Proof.
  induction rows as [|r rest IH]; simpl; [discriminate|].
  destruct (total_weight r) as [e'|w] eqn:Hr.
  - intros [= <-]. exists r. auto.
  - intro H. destruct (IH H) as (x & Hx & He). exists x. auto.
Qed.

(** A sum fails by overflow only. *)
Lemma dpath_error (s : store) (a : uuid) (p : list uuid) (e : sql_error) (v : uuid) :
  dpath s a p (inl e) v -> e = numeric_value_out_of_range.
Proof.
  intro H. remember (inl e) as w eqn:Hw. revert e Hw.
  induction H as [|p w u x Hp IH Hx Hsrc Hnin]; intros e Hw; [discriminate|].
  destruct w as [e'|a']; simpl in Hw.
  - injection Hw as <-. now apply IH.
  - unfold float8_add in Hw. destruct a' as [y|]; [|discriminate].
    destruct (weight x) as [z|]; [|discriminate].
    unfold float8pl in Hw.
    destruct y as [y|ny|], z as [z|nz|]; try discriminate;
      try (destruct (Bool.eqb ny nz); discriminate).
    destruct (overflows _); [|discriminate]. now injection Hw as <-.
Qed.

(** No sum overflows on the paths that the search explores. *)
Definition sums_succeed (s : store) (start_id : uuid) (max_depth : Z) : Prop :=
  forall p w v, dpath s start_id p w v -> within_depth_bound max_depth p ->
    exists x, w = inr x.

(** What [find_shortest_path] answers.  It always answers: with the
    overflow error when a sum overflows on an explored path; otherwise with
    no row, when the start node is missing or no simple directed path
    within the bound ends at [end_id]; otherwise with one row, a least path
    among those. *)
Lemma find_shortest_path_answer (s : store) (a b : uuid) (max_depth : Z) :
  exists res,
    find_shortest_path s a b max_depth = Some res /\
    ((exists e p v,
        res = inl e /\ node_exists s a = true /\
        dpath s a p (inl e) v /\ within_depth_bound max_depth p) \/
     (res = inr [] /\
      (node_exists s a = false \/
       (sums_succeed s a max_depth /\
        forall p w, dpath s a p (inr w) b -> ~ within_depth_bound max_depth p))) \/
     (exists p0 w0,
        res = inr [(p0, w0)] /\ node_exists s a = true /\
        sums_succeed s a max_depth /\
        dpath s a p0 (inr w0) b /\ within_depth_bound max_depth p0 /\
        forall p w, dpath s a p (inr w) b -> within_depth_bound max_depth p ->
                    float8_le w0 w = true)).
Proof.
  destruct (paths_total s a max_depth) as [rows Hrows].
  pose proof (paths_rows s a max_depth rows Hrows) as Hchar.
  unfold find_shortest_path. rewrite Hrows. simpl.
  eexists. split; [reflexivity|].
  destruct (first_error rows) as [e|] eqn:Herr.
  - left. apply first_error_Some in Herr. destruct Herr as (r & Hr & He).
    apply Hchar in Hr. destruct Hr as (Hex & Hd & Hb). rewrite He in Hd.
    exists e, (p_path r), (current_node r). auto.
  - right.
    assert (Hok : forall r, In r rows -> exists w, total_weight r = inr w)
      by now apply first_error_None.
    assert (Hsums : node_exists s a = true -> sums_succeed s a max_depth).
    { intros Hex p w v Hd Hb.
      destruct (Hok (mk_paths p w v)) as [x Hx]; [apply Hchar; simpl; auto|].
      simpl in Hx. eauto. }
    unfold select_shortest.
    set (cands := filter (fun r => N.eqb (current_node r) b) rows).
    destruct cands as [|c tl] eqn:Hc.
    + left. split; [reflexivity|].
      destruct (node_exists s a) eqn:Hex; [right | now left].
      split; [now apply Hsums|]. intros p w Hd Hb.
      assert (Hin : In (mk_paths p (inr w) b) cands)
        by (apply filter_In; split; [apply Hchar; simpl; auto | apply N.eqb_refl]).
      rewrite Hc in Hin. destruct Hin.
    + right.
      destruct (first_of_order_by
                  (fun x y => float8_le (weight_of x) (weight_of y)) cands c
                  (fun x y => float8_le_total _ _)
                  (fun x y z => float8_le_trans _ _ _))
        as (m & Hm & Hin & Hleast); [rewrite Hc; now left|].
      rewrite <- Hc, Hm. simpl.
      exists (p_path m), (weight_of m). split; [reflexivity|].
      apply filter_In in Hin. destruct Hin as [Hin Hend]. apply N.eqb_eq in Hend.
      destruct (Hok m Hin) as [wm Hwm].
      apply Hchar in Hin. destruct Hin as (Hex & Hd & Hb). rewrite Hend in Hd.
      assert (Hw : total_weight m = inr (weight_of m))
        by (unfold weight_of; now rewrite Hwm).
      rewrite Hw in Hd.
      split; [exact Hex|]. split; [now apply Hsums|].
      split; [exact Hd|]. split; [exact Hb|].
      intros p w Hp Hw'.
      apply (Hleast (mk_paths p (inr w) b)). apply filter_In.
      split; [apply Hchar; simpl; auto | apply N.eqb_refl].
Qed.

(** [find_shortest_path] returns no row exactly when the start node is
    missing or no sum overflows and no simple directed path within the
    bound ends at [end_id]. *)
Lemma find_shortest_path_not_found (s : store) (start_id end_id : uuid) (max_depth : Z) :
  exists res,
    find_shortest_path s start_id end_id max_depth = Some res /\
    (res = inr [] <->
     node_exists s start_id = false \/
     (sums_succeed s start_id max_depth /\
      forall p w, dpath s start_id p (inr w) end_id -> ~ within_depth_bound max_depth p)).
Proof.
  destruct (find_shortest_path_answer s start_id end_id max_depth)
    as (res & Hres & Hcase).
  exists res. split; [exact Hres|].
  destruct Hcase as [(e & p & v & -> & Hex & Hd & Hb)
                    |[[-> Hno]|(p0 & w0 & -> & Hex & Hs & Hd & Hb & _)]].
  - split; [discriminate|]. intros [Hmiss|[Hsum _]]; [congruence|].
    destruct (Hsum p (inl e) v Hd Hb) as [x Hx]. discriminate.
  - split; [intros _; exact Hno | reflexivity].
  - split; [discriminate|]. intros [Hmiss|[_ Hnone]]; [congruence|].
    exfalso. exact (Hnone p0 w0 Hd Hb).
Qed.

(** An answer without error tells that no sum overflowed. *)
Lemma sums_succeed_when (s : store) (a b : uuid) (max_depth : Z)
      (rows : list (list uuid * option float8)) :
  find_shortest_path s a b max_depth = Some (inr rows) ->
  node_exists s a = true -> sums_succeed s a max_depth.
Proof.
  intros Hres Hex.
  destruct (find_shortest_path_answer s a b max_depth)
    as (res & Hres' & [(e & p & v & -> & _)
                      |[[-> [Hmiss|[Hs _]]]|(p0 & w0 & -> & _ & Hs & _)]]);
    rewrite Hres in Hres'; try discriminate; try congruence; assumption.
Qed.

Lemma dpath_A_B_C : dpath abc_store 1%N [1%N; 2%N; 3%N] (inr (Some (F8 2))) 3%N.
Proof.
  assert (H1 : dpath abc_store 1%N ([1%N] ++ [target_id edgeAB])
                 (accumulate (inr (Some (F8 0))) (weight edgeAB)) (target_id edgeAB)).
  { apply dpath_snoc with (u := 1%N);
      [constructor | simpl; tauto | reflexivity | simpl; intros [H|[]]; discriminate H]. }
  assert (H2 : dpath abc_store 1%N (([1%N] ++ [target_id edgeAB]) ++ [target_id edgeBC])
                 (accumulate (accumulate (inr (Some (F8 0))) (weight edgeAB))
                             (weight edgeBC))
                 (target_id edgeBC)).
  { apply dpath_snoc with (u := 2%N);
      [exact H1 | simpl; tauto | reflexivity
      | simpl; intros [H|[H|[]]]; discriminate H]. }
  vm_compute in H2. exact H2.
Qed.

Lemma dpath_A_C : dpath abc_store 1%N [1%N; 3%N] (inr (Some (F8 5))) 3%N.
Proof.
  assert (H1 : dpath abc_store 1%N ([1%N] ++ [target_id edgeAC])
                 (accumulate (inr (Some (F8 0))) (weight edgeAC)) (target_id edgeAC)).
  { apply dpath_snoc with (u := 1%N);
      [constructor | simpl; tauto | reflexivity | simpl; intros [H|[]]; discriminate H]. }
  vm_compute in H1. exact H1.
Qed.

(** C2 at its failing input, and what the code does instead.  The search
    answers every call; an answer without error is no row or one row, whose
    path is a simple directed path of at most [max_depth] nodes (one edge
    fewer than the bound of the claim) with a total weight that is least, in
    the order of [ORDER BY total_weight ASC], among all such paths; it
    returns a row when such a path exists and no sum overflows; the only
    error is the float8 overflow of a sum on an explored path.  On A->B (1),
    B->C (1), A->C (5) the call from A to C with depth 3 returns [A, B, C]
    with weight 2.  With depth 2 the path [A, B, C], of two edges and weight
    2, lies within the bound of the claim, yet the call returns [A, C] with
    weight 5: paths of [max_depth] edges are never explored. *)
Theorem shortest_path_least_weight
        (s : store) (start_id end_id : uuid) (max_depth : Z) :
  (exists res,
     find_shortest_path s start_id end_id max_depth = Some res /\
     (forall rows, res = inr rows ->
        rows = [] \/
        exists p0 w0,
          rows = [(p0, w0)] /\
          dpath s start_id p0 (inr w0) end_id /\ within_depth_bound max_depth p0 /\
          forall p w, dpath s start_id p (inr w) end_id ->
                      within_depth_bound max_depth p ->
            float8_le w0 w = true /\
            forall x y, w0 = Some (F8 x) -> w = Some (F8 y) -> (x <= y)%Q) /\
     (forall e, res = inl e ->
        e = numeric_value_out_of_range /\
        exists p v, dpath s start_id p (inl e) v /\ within_depth_bound max_depth p) /\
     (node_exists s start_id = true ->
      (exists p w, dpath s start_id p (inr w) end_id /\ within_depth_bound max_depth p) ->
      sums_succeed s start_id max_depth ->
      exists p0 w0, res = inr [(p0, w0)])) /\
  find_shortest_path abc_store 1%N 3%N 3 = Some (inr [([1%N; 2%N; 3%N], Some (F8 2))]) /\
  (dpath abc_store 1%N [1%N; 2%N; 3%N] (inr (Some (F8 2))) 3%N /\
   edges_of [1%N; 2%N; 3%N] <= 2 /\
   find_shortest_path abc_store 1%N 3%N 2 = Some (inr [([1%N; 3%N], Some (F8 5))]) /\
   float8_le (Some (F8 5)) (Some (F8 2)) = false).
Proof.
  split; [|split; [vm_compute; reflexivity|]].
  - destruct (find_shortest_path_answer s start_id end_id max_depth)
      as (res & Hres & Hcase).
    exists res. split; [exact Hres|]. split; [|split].
    + intros rows ->.
      destruct Hcase as [(e & p & v & Heq & _)
                        |[[Heq _]|(p0 & w0 & Heq & Hex & Hs & Hd & Hb & Hleast)]].
      * discriminate.
      * left. now injection Heq.
      * right. injection Heq as ->. exists p0, w0.
        split; [reflexivity|]. split; [exact Hd|]. split; [exact Hb|].
        intros p w Hp Hw. pose proof (Hleast p w Hp Hw) as Hle.
        split; [exact Hle|]. intros x y -> ->. now apply Qle_bool_iff.
    + intros e ->.
      destruct Hcase as [(e' & p & v & Heq & Hex & Hd & Hb)
                        |[[Heq _]|(p0 & w0 & Heq & _)]]; try discriminate.
      injection Heq as <-. split; [eapply dpath_error; exact Hd | eauto].
    + intros Hex (p & w & Hd & Hb) Hsum.
      destruct Hcase as [(e & p' & v & _ & _ & Hd' & Hb')
                        |[[_ [Hmiss|[_ Hnone]]]|(p0 & w0 & Heq & _)]].
      * destruct (Hsum p' (inl e) v Hd' Hb') as [x Hx]. discriminate.
      * congruence.
      * exfalso. exact (Hnone p w Hd Hb).
      * eauto.
  - split; [exact dpath_A_B_C|]. split; [unfold edges_of; simpl; lia|].
    split; vm_compute; reflexivity.
Qed.

Lemma shortest_path_least_weight_witness :
  exists p0 w0,
    find_shortest_path abc_store 1%N 3%N 3 = Some (inr [(p0, w0)]) /\
    dpath abc_store 1%N p0 (inr w0) 3%N.
Proof.
  destruct (shortest_path_least_weight abc_store 1%N 3%N 3)
    as [(res & Hres & Hrows & _ & Hfound) _].
  destruct Hfound as (p0 & w0 & ->).
  - reflexivity.
  - exists [1%N; 3%N], (Some (F8 5)). split; [exact dpath_A_C | right; simpl; lia].
  - apply (sums_succeed_when abc_store 1%N 3%N 3 [([1%N; 2%N; 3%N], Some (F8 2))]);
      vm_compute; reflexivity.
  - exists p0, w0. split; [exact Hres|].
    destruct (Hrows _ eq_refl) as [H|(p1 & w1 & H & Hd & _)]; [discriminate|].
    injection H as -> ->. exact Hd.
Defined.

(** C3 at its failing input: on the graph with the single edge A->B the
    simple directed path [A, B] has one edge, within [max_depth = 1], yet
    [find_shortest_path] returns no row, because it compares the number of
    nodes on the path with [max_depth]; with [max_depth = 2] it finds the
    path.  [get_connected_nodes] on the same graph with [max_depth = 1]
    does follow one edge. *)
Theorem shortest_path_depth_off_by_one :
  let s := mk_store [nodeA; nodeB] [edgeAB] [] in
  node_exists s 1%N = true /\
  dpath s 1%N [1%N; 2%N] (inr (Some (F8 1))) 2%N /\
  Z.of_nat (List.length [1%N; 2%N] - 1) <= 1 /\
  find_shortest_path s 1%N 2%N 1 = Some (inr []) /\
  find_shortest_path s 1%N 2%N 2 = Some (inr [([1%N; 2%N], Some (F8 1))]) /\
  option_map (map id_depth) (get_connected_nodes s 1%N 1)
  = Some [(1%N, 0); (2%N, 1)].
Proof.
  intro s. split; [reflexivity|]. split.
  - assert (H : dpath s 1%N ([1%N] ++ [target_id edgeAB])
                  (accumulate (inr (Some (F8 0))) (weight edgeAB)) (target_id edgeAB)).
    { apply dpath_snoc with (u := 1%N);
        [constructor | simpl; tauto | reflexivity | simpl; intros [H|[]]; discriminate H]. }
    vm_compute in H. exact H.
  - split; [simpl; lia|]. repeat split; vm_compute; reflexivity.
Qed.


(* ----------------------------------------------------------------- *)
(** ** The graph store: constraints are invariants *)

Lemma same_triple_spec (a b : kg_edge) :
  same_triple a b = true <-> triple a = triple b.
Proof.
  unfold same_triple, triple.
  rewrite !andb_true_iff, !N.eqb_eq, String.eqb_eq. split.
  - intros [[-> ->] ->]. reflexivity.
  - intros [= -> -> ->]. auto.
Qed.

Lemma existsb_same_triple (e : kg_edge) (l : list kg_edge) :
  existsb (same_triple e) l = true <-> In (triple e) (map triple l).
Proof.
  rewrite existsb_exists, in_map_iff. split.
  - intros (x & Hx & H). apply same_triple_spec in H. eauto.
  - intros (x & H & Hx). exists x. split; [exact Hx|].
    now apply same_triple_spec.
Qed.

(** Deleting rows cannot create a duplicate triple. *)
Lemma unique_triples_filter (keep : kg_edge -> bool) (edges : list kg_edge) :
  NoDup (map triple edges) -> NoDup (map triple (filter keep edges)).
Proof.
  induction edges as [|e rest IH]; simpl; intro Hnd; [constructor|].
  apply NoDup_cons_iff in Hnd. destruct Hnd as [Hfresh Hrest].
  destruct (keep e); simpl; [|now apply IH].
  apply NoDup_cons_iff. split; [|now apply IH].
  intro Hin. apply Hfresh. apply in_map_iff in Hin.
  destruct Hin as (e' & Heq & Hin). apply filter_In in Hin.
  apply in_map_iff. exists e'. tauto.
Qed.

Lemma NoDup_snoc {A : Type} (l : list A) (x : A) :
  NoDup l -> ~ In x l -> NoDup (l ++ [x]).
Proof.
  intros Hnd Hnin. apply NoDup_rev in Hnd.
  rewrite <- (rev_involutive (l ++ [x])). apply NoDup_rev.
  rewrite rev_app_distr. simpl. constructor; [|exact Hnd]. now rewrite <- in_rev.
Qed.

Lemma update_node_embedding_inr (s s' : store) (x : uuid) (v : list Q) :
  update_node_embedding s x v = inr s' ->
  s' = mk_store
         (map (fun n => if N.eqb (n_id n) x
                        then mk_node (n_id n) (n_label n) (n_type n) (n_properties n)
                                     (Some v)
                        else n) (kg_nodes s))
         (kg_edges s) (document_chunks s) /\
  List.length v = 1536%nat.
Proof.
  unfold update_node_embedding, vector_1536.
  destruct (List.length v =? 1536)%nat eqn:Hlen; [|discriminate].
  apply Nat.eqb_eq in Hlen. intros [= <-]. auto.
Qed.

Lemma unique_triples_after (s : store) (op : store_op) :
  unique_triples s -> unique_triples (after s op).
Proof.
  unfold unique_triples, after. intro H.
  destruct op as [n|e|c|c|x v]; simpl.
  - unfold insert_node. now destruct (node_exists s (n_id n)).
  - destruct (insert_edge s e) as [err|s'] eqn:Hins; [exact H|].
    apply insert_edge_inr in Hins. destruct Hins as (-> & _ & Hdup & _). simpl.
    rewrite map_app. simpl. apply NoDup_snoc; [exact H|].
    rewrite <- existsb_same_triple. now rewrite Hdup.
  - now apply unique_triples_filter.
  - now apply unique_triples_filter.
  - destruct (update_node_embedding s x v) as [err|s'] eqn:Hupd; [exact H|].
    apply update_node_embedding_inr in Hupd. now destruct Hupd as [-> _].
Qed.

Lemma node_exists_app (s : store) (n : kg_node) (x : uuid) :
  node_exists s x = true ->
  node_exists (mk_store (kg_nodes s ++ [n]) (kg_edges s) (document_chunks s)) x = true.
Proof.
  unfold node_exists. simpl. rewrite existsb_app. intros ->. reflexivity.
Qed.

Lemma edges_reference_nodes_after (s : store) (op : store_op) :
  edges_reference_nodes s -> edges_reference_nodes (after s op).
Proof.
  unfold after. intro FK.
  destruct op as [n|e|c|c|x v]; simpl.
  - unfold insert_node. destruct (node_exists s (n_id n)); [exact FK|].
    intros e He. destruct (FK e He). split; now apply node_exists_app.
  - destruct (insert_edge s e) as [err|s'] eqn:Hins; [exact FK|].
    apply insert_edge_inr in Hins. destruct Hins as (-> & _ & _ & Hsrc & Htgt).
    intros x Hx. simpl in Hx. apply in_app_or in Hx.
    destruct Hx as [Hx|[<-|[]]]; [now apply FK | split; assumption].
  - intros e He. simpl in He. apply filter_In in He. destruct He as [He Hkept].
    apply negb_true_iff in Hkept.
    assert (Hstay : forall x, (x = source_id e \/ x = target_id e) ->
              node_exists s x = true -> node_exists (delete_nodes s c) x = true).
    { intros x Hx Hex. apply node_exists_In in Hex. destruct Hex as (n & Hn & Hid).
      apply node_exists_In. exists n. split; [|exact Hid].
      simpl. apply filter_In. split; [exact Hn|].
      destruct (c n) eqn:Hc; [|reflexivity]. exfalso.
      assert (Hdel : existsb (fun n0 => c n0 && (N.eqb (n_id n0) (source_id e)
                                                 || N.eqb (n_id n0) (target_id e)))
                             (kg_nodes s) = true).
      { apply existsb_exists. exists n. split; [exact Hn|].
        rewrite Hc, Hid. simpl. apply orb_true_iff.
        destruct Hx as [Hx | Hx]; subst x; [left | right]; apply N.eqb_refl. }
      congruence. }
    destruct (FK e He) as [Hs Ht]. split; apply Hstay; auto.
  - intros e He. simpl in He. apply filter_In in He. destruct He as [He _].
    now apply FK.
  - destruct (update_node_embedding s x v) as [err|s'] eqn:Hupd; [exact FK|].
    apply update_node_embedding_inr in Hupd. destruct Hupd as [-> _].
    intros e He. destruct (FK e He) as [Hs Ht].
    unfold node_exists in *. simpl.
    rewrite !existsb_exists in *.
    destruct Hs as (a & Ha & Hae), Ht as (b & Hb & Hbe).
    split; [exists (if N.eqb (n_id a) x
                    then mk_node (n_id a) (n_label a) (n_type a) (n_properties a) (Some v)
                    else a)
           | exists (if N.eqb (n_id b) x
                     then mk_node (n_id b) (n_label b) (n_type b) (n_properties b) (Some v)
                     else b)];
      (split; [apply in_map_iff; eauto | destruct (N.eqb _ x); assumption]).
Qed.

Lemma reachable_store_invariants (s : store) :
  reachable_store s -> unique_triples s /\ edges_reference_nodes s.
Proof.
  induction 1 as [|s op Hs [Hu Hf]].
  - split; [constructor | intros e []].
  - split; [now apply unique_triples_after | now apply edges_reference_nodes_after].
Qed.

(** C5: no reachable store holds two edges with the same (source, target,
    relationship); every statement keeps that; inserting an edge whose
    triple is already stored fails with a unique violation and leaves the
    store as it was; inserting an edge with a missing endpoint fails and
    leaves the store as it was, the failure being the foreign-key violation
    when the generated edge id is new. *)
Theorem edge_triples_unique :
  (forall s, reachable_store s -> unique_triples s) /\
  (forall s op, unique_triples s -> unique_triples (after s op)) /\
  (forall s e x, In x (kg_edges s) -> triple x = triple e ->
     (exists c, insert_edge s e = inl (unique_violation c)) /\
     after s (InsertEdge e) = s) /\
  (forall s e,
     node_exists s (source_id e) = false \/ node_exists s (target_id e) = false ->
     (exists err, insert_edge s e = inl err) /\
     after s (InsertEdge e) = s /\
     (reachable_store s ->
      existsb (fun x => N.eqb (e_id x) (e_id e)) (kg_edges s) = false ->
      exists c, insert_edge s e = inl (foreign_key_violation c))).
Proof.
  split; [intros s Hs; now apply reachable_store_invariants|].
  split; [exact unique_triples_after|]. split.
  - intros s e x Hx Htr.
    assert (Hdup : existsb (same_triple e) (kg_edges s) = true).
    { apply existsb_same_triple. rewrite <- Htr. now apply in_map. }
    unfold after, apply_op, insert_edge. rewrite Hdup.
    destruct (existsb (fun x0 => N.eqb (e_id x0) (e_id e)) (kg_edges s)); eauto.
  - intros s e Hmiss.
    assert (Hfail : exists err, insert_edge s e = inl err).
    { unfold insert_edge.
      destruct (existsb (fun x => N.eqb (e_id x) (e_id e)) (kg_edges s)); [eauto|].
      destruct (existsb (same_triple e) (kg_edges s)); [eauto|].
      destruct (node_exists s (source_id e)); simpl; [|eauto].
      destruct (node_exists s (target_id e)); simpl; [|eauto].
      destruct Hmiss; discriminate. }
    split; [exact Hfail|]. split.
    + unfold after, apply_op. destruct Hfail as [err ->]. reflexivity.
    + intros Hs Hfresh.
      destruct (reachable_store_invariants s Hs) as [_ FK].
      assert (Hdup : existsb (same_triple e) (kg_edges s) = false).
      { destruct (existsb (same_triple e) (kg_edges s)) eqn:Hd; [|reflexivity].
        apply existsb_exists in Hd. destruct Hd as (x & Hx & Hsame).
        apply same_triple_spec in Hsame. injection Hsame as Hsrc Htgt _.
        destruct (FK x Hx) as [H1 H2]. rewrite <- Hsrc in H1. rewrite <- Htgt in H2.
        destruct Hmiss; congruence. }
      unfold insert_edge. rewrite Hfresh, Hdup.
      destruct (node_exists s (source_id e)); simpl; [|eauto].
      destruct (node_exists s (target_id e)); simpl; [|eauto].
      destruct Hmiss; discriminate.
Qed.

Lemma abc_store_reachable : reachable_store abc_store.
Proof.
  exact (reach_op _ (InsertEdge edgeAC)
          (reach_op _ (InsertEdge edgeBC)
            (reach_op _ (InsertEdge edgeAB)
              (reach_op _ (InsertNode nodeC)
                (reach_op _ (InsertNode nodeB)
                  (reach_op _ (InsertNode nodeA) reach_empty)))))).
Qed.

Lemma edge_triples_unique_witness :
  unique_triples abc_store /\
  ((exists c, insert_edge abc_store (mk_edge 20%N 1%N 2%N "x" None None)
              = inl (unique_violation c)) /\
   after abc_store (InsertEdge (mk_edge 20%N 1%N 2%N "x" None None)) = abc_store) /\
  (exists c, insert_edge abc_store (mk_edge 21%N 1%N 9%N "x" None None)
             = inl (foreign_key_violation c)).
Proof.
  destruct edge_triples_unique as (Hreach & _ & Hdup & Hmiss).
  split; [exact (Hreach abc_store abc_store_reachable)|]. split.
  - apply (Hdup abc_store (mk_edge 20%N 1%N 2%N "x" None None) edgeAB).
    + simpl. tauto.
    + reflexivity.
  - apply (Hmiss abc_store (mk_edge 21%N 1%N 9%N "x" None None)).
    + right. reflexivity.
    + exact abc_store_reachable.
    + reflexivity.
Defined.

(* ----------------------------------------------------------------- *)
(** ** Semantic search *)

Lemma StronglySorted_map {A B : Type} (R : B -> B -> Prop) (f : A -> B) (l : list A) :
  StronglySorted (fun a b => R (f a) (f b)) l -> StronglySorted R (map f l).
Proof.
  induction 1 as [|x tl Hs IH Hall]; simpl; constructor; [exact IH|].
  apply Forall_forall. intros y Hy. apply in_map_iff in Hy.
  destruct Hy as (z & <- & Hz). rewrite Forall_forall in Hall. now apply Hall.
Qed.

Lemma StronglySorted_firstn {A : Type} (R : A -> A -> Prop) (n : nat) (l : list A) :
  StronglySorted R l -> StronglySorted R (firstn n l).
Proof.
  intro H. revert n. induction H as [|x tl Hs IH Hall]; intros [|n]; simpl;
    try constructor; [apply IH|].
  rewrite Forall_forall in *. intros y Hy. apply Hall.
  revert Hy. clear. revert n. induction tl as [|z tl IH]; intros [|n]; simpl; try tauto.
  intros [->|H]; [now left | right; eapply IH, H].
Qed.

Lemma StronglySorted_strengthen {A : Type} (R R' : A -> A -> Prop) (P : A -> Prop)
      (l : list A) :
  (forall a b, P a -> P b -> R a b -> R' a b) ->
  Forall P l -> StronglySorted R l -> StronglySorted R' l.
Proof.
  intros Himp HP H. induction H as [|x tl Hs IH Hall]; constructor.
  - apply IH. now inversion HP.
  - inversion HP as [|? ? Px Ptl]; subst.
    rewrite Forall_forall in *. intros y Hy. apply Himp; auto.
Qed.

Lemma limit_Some {A : Type} (n : Z) (l rows : list A) :
  Sql.limit n l = Some rows -> 0 <= n /\ rows = firstn (Z.to_nat n) l.
Proof.
  unfold Sql.limit. destruct (n <? 0) eqn:Hn; [discriminate|].
  apply Z.ltb_ge in Hn. intros [= <-]. auto.
Qed.

Section VectorIndexFacts.
Variable cosine_distance : vector -> vector -> float8.
Variable query_embedding : vector.
Variable match_threshold : float8.

Lemma is_match_spec (embedding : option vector) :
  is_match cosine_distance query_embedding match_threshold embedding = true <->
  exists v, embedding = Some v /\
            float8_leb (float8_one_minus (cosine_distance v query_embedding))
                       match_threshold = false.
Proof.
  unfold is_match, float8_gt, similarity_to, distance_to.
  destruct embedding as [v|]; simpl.
  - rewrite negb_true_iff. split; [eauto | now intros (v' & [= <-] & H)].
  - split; [discriminate | intros (v & H & _); discriminate].
Qed.

Lemma ranked_matches_In {Row : Type} (embedding_of : Row -> option vector)
      (visited : Row -> bool) (table : list Row) (r : Row) :
  In r (ranked_matches cosine_distance query_embedding match_threshold embedding_of
          visited table)
  <-> In r table /\ visited r = true /\
      exists v, embedding_of r = Some v /\
                float8_leb (float8_one_minus (cosine_distance v query_embedding))
                           match_threshold = false.
Proof.
  unfold ranked_matches. rewrite order_by_In, !filter_In, is_match_spec. tauto.
Qed.

(** Ordered by ascending distance, the rows are in descending order of
    similarity, equal similarities allowed, with the rows of similarity NaN
    at the end. *)
Lemma ranked_matches_sorted {Row : Type} (embedding_of : Row -> option vector)
      (visited : Row -> bool) (table : list Row) :
  StronglySorted
    (fun a b => similarity_ge
                  (similarity_to cosine_distance query_embedding (embedding_of a))
                  (similarity_to cosine_distance query_embedding (embedding_of b)))
    (ranked_matches cosine_distance query_embedding match_threshold embedding_of
       visited table).
Proof.
  apply (StronglySorted_strengthen
           (fun a b => float8_le
                         (distance_to cosine_distance query_embedding (embedding_of a))
                         (distance_to cosine_distance query_embedding (embedding_of b))
                       = true)
           _ (fun r => exists v, embedding_of r = Some v)).
  - intros a b (va & Ha) (vb & Hb) Hle.
    unfold similarity_ge, similarity_to, distance_to in *.
    rewrite Ha, Hb in *. simpl in *.
    do 2 eexists. split; [reflexivity|]. split; [reflexivity|].
    destruct (cosine_distance vb query_embedding) as [y|ny|] eqn:Hdb; [| |now left];
      right; (split; [|apply float8_one_minus_antitone; [discriminate | exact Hle]]);
      rewrite float8_one_minus_NaN; intro Hda; rewrite Hda in Hle; discriminate.
  - apply Forall_forall. intros r Hr. apply ranked_matches_In in Hr.
    destruct Hr as (_ & _ & v & Hv & _). eauto.
  - apply order_by_sorted.
    + intros a b. apply float8_le_total.
    + intros a b c. apply float8_le_trans.
Qed.
End VectorIndexFacts.

Lemma Qle_bool_false (x y : Q) : (y < x)%Q -> Qle_bool x y = false.
Proof.
  intro H. destruct (Qle_bool x y) eqn:E; [|reflexivity].
  apply Qle_bool_iff in E. exfalso. exact (Qlt_not_le _ _ H E).
Qed.

Lemma Qle_bool_true (x y : Q) : (x <= y)%Q -> Qle_bool x y = true.
Proof. apply Qle_bool_iff. Qed.

Lemma float8_leb_F8_false (x y : Q) : float8_leb (F8 x) (F8 y) = false <-> (y < x)%Q.
Proof.
  simpl. split; [|apply Qle_bool_false].
  intro H. apply Qnot_le_lt. intro Hle. apply Qle_bool_iff in Hle. congruence.
Qed.

(** A similarity that is a number comes from a distance that is one, and
    a strictly greater similarity from a strictly smaller distance. *)
Lemma float8_one_minus_F8 (d : float8) (x : Q) :
  float8_one_minus d = F8 x -> exists y, d = F8 y /\ x = round_float8 (1 - y).
Proof. destruct d as [y|ny|]; simpl; [|discriminate..]. intros [= <-]. eauto. Qed.

Lemma similarity_lt_distance (y1 y2 : Q) :
  (round_float8 (1 - y2) < round_float8 (1 - y1))%Q -> (y1 < y2)%Q.
Proof.
  intro H. apply Qnot_le_lt. intro Hle.
  assert (H' : (round_float8 (1 - y1) <= round_float8 (1 - y2))%Q)
    by (apply round_float8_mono; lra).
  exact (Qlt_not_le _ _ H H').
Qed.

Lemma firstn_In {A : Type} (n : nat) (l : list A) (x : A) :
  In x (firstn n l) -> In x l.
Proof.
  revert n. induction l as [|y tl IH]; intros [|n]; simpl; try tauto.
  intros [->|H]; [now left | right; eapply IH, H].
Qed.

(** C4 (amended): whenever [search_nodes_semantic] or
    [search_chunks_semantic] returns, every returned row comes from a
    stored entity with a non-null embedding whose similarity, one minus the
    cosine distance to the query, is above the threshold in the order of
    float8: a number strictly greater than the threshold, or NaN (the
    similarity of a zero vector); the rows are in descending order of
    similarity, rows of equal similarity being allowed and rows of
    similarity NaN coming last; and there are at most [match_count] rows.
    Over three candidates of similarity [x1 > x2 > x3] and a threshold
    between [x3] and [x2] (0.9, 0.75, 0.6 and 0.7), scanned in full, the
    result is the first two, [x1] before [x2]. *)
Theorem semantic_search_ranked
        (cosine_distance : vector -> vector -> float8)
        (q : vector) (t : float8) (n : Z) (visited : uuid -> bool) (s : store) :
  (forall rows, search_nodes_semantic cosine_distance q t n visited s = Some rows ->
     (forall r, In r rows ->
        exists node v, In node (kg_nodes s) /\ n_id node = nm_id r /\
          n_embedding node = Some v /\
          nm_similarity r = Some (float8_one_minus (cosine_distance v q)) /\
          float8_leb (float8_one_minus (cosine_distance v q)) t = false /\
          (forall x y, float8_one_minus (cosine_distance v q) = F8 x -> t = F8 y ->
                       (y < x)%Q)) /\
     StronglySorted similarity_ge (map nm_similarity rows) /\
     Z.of_nat (List.length rows) <= n) /\
  (forall rows, search_chunks_semantic cosine_distance q t n visited s = Some rows ->
     (forall r, In r rows ->
        exists chunk v, In chunk (document_chunks s) /\ c_id chunk = cm_id r /\
          c_embedding chunk = Some v /\
          cm_similarity r = Some (float8_one_minus (cosine_distance v q)) /\
          float8_leb (float8_one_minus (cosine_distance v q)) t = false /\
          (forall x y, float8_one_minus (cosine_distance v q) = F8 x -> t = F8 y ->
                       (y < x)%Q)) /\
     StronglySorted similarity_ge (map cm_similarity rows) /\
     Z.of_nat (List.length rows) <= n) /\
  (forall e1 e2 e3 x1 x2 x3 y,
     float8_one_minus (cosine_distance e1 q) = F8 x1 ->
     float8_one_minus (cosine_distance e2 q) = F8 x2 ->
     float8_one_minus (cosine_distance e3 q) = F8 x3 ->
     (x2 < x1)%Q -> (y < x2)%Q -> (x3 <= y)%Q ->
     option_map (map nm_id)
       (search_nodes_semantic cosine_distance q (F8 y) 10 every_row
          (candidates e1 e2 e3))
     = Some [1%N; 2%N] /\
     option_map (map cm_id)
       (search_chunks_semantic cosine_distance q (F8 y) 10 every_row
          (candidates e1 e2 e3))
     = Some [1%N; 2%N]).
Proof.
  split; [|split].
  - intros rows Hrows. unfold search_nodes_semantic in Hrows.
    apply limit_Some in Hrows. destruct Hrows as [Hn ->]. split; [|split].
    + intros r Hr. apply firstn_In, in_map_iff in Hr.
      destruct Hr as (node & <- & Hnode). apply ranked_matches_In in Hnode.
      destruct Hnode as (Hin & _ & v & Hv & Hgt).
      exists node, v. simpl. unfold similarity_to, distance_to. rewrite Hv. simpl.
      repeat split; auto.
      intros x y Hx ->. rewrite Hx in Hgt. now apply float8_leb_F8_false.
    + rewrite <- firstn_map. apply StronglySorted_firstn.
      rewrite map_map. simpl. apply StronglySorted_map, ranked_matches_sorted.
    + rewrite length_firstn. lia.
  - intros rows Hrows. unfold search_chunks_semantic in Hrows.
    apply limit_Some in Hrows. destruct Hrows as [Hn ->]. split; [|split].
    + intros r Hr. apply firstn_In, in_map_iff in Hr.
      destruct Hr as (chunk & <- & Hchunk). apply ranked_matches_In in Hchunk.
      destruct Hchunk as (Hin & _ & v & Hv & Hgt).
      exists chunk, v. simpl. unfold similarity_to, distance_to. rewrite Hv. simpl.
      repeat split; auto.
      intros x y Hx ->. rewrite Hx in Hgt. now apply float8_leb_F8_false.
    + rewrite <- firstn_map. apply StronglySorted_firstn.
      rewrite map_map. simpl. apply StronglySorted_map, ranked_matches_sorted.
    + rewrite length_firstn. lia.
  - intros e1 e2 e3 x1 x2 x3 y H1 H2 H3 H21 Hy2 H3y.
    destruct (float8_one_minus_F8 _ _ H1) as (d1 & D1 & X1).
    destruct (float8_one_minus_F8 _ _ H2) as (d2 & D2 & X2).
    assert (F1 : Qle_bool x1 y = false) by (apply Qle_bool_false; lra).
    assert (F2 : Qle_bool x2 y = false) by (apply Qle_bool_false; lra).
    assert (F3 : Qle_bool x3 y = true) by (apply Qle_bool_true; lra).
    assert (F4 : Qle_bool d2 d1 = false).
    { apply Qle_bool_false, similarity_lt_distance. now rewrite <- X1, <- X2. }
    unfold search_nodes_semantic, search_chunks_semantic, ranked_matches,
      is_match, float8_gt, similarity_to, distance_to, candidates, every_row.
    simpl. rewrite H1, H2, H3. simpl. rewrite F1, F2, F3. simpl.
    rewrite D1, D2. simpl. rewrite F4. simpl. split; reflexivity.
Qed.

Lemma semantic_search_ranked_witness :
  option_map (map nm_id)
    (search_nodes_semantic unit_cosine_distance unit_e1 (F8 (round_float8 (7 # 10))) 10
       every_row (candidates unit_e1 unit_e2 unit_e3)) = Some [1%N; 2%N] /\
  option_map (map cm_id)
    (search_chunks_semantic unit_cosine_distance unit_e1 (F8 (round_float8 (7 # 10))) 10
       every_row (candidates unit_e1 unit_e2 unit_e3)) = Some [1%N; 2%N].
Proof.
  destruct (semantic_search_ranked unit_cosine_distance unit_e1
              (F8 (round_float8 (7 # 10))) 10 every_row
              (candidates unit_e1 unit_e2 unit_e3)) as (_ & _ & Hscen).
  apply (Hscen unit_e1 unit_e2 unit_e3 1%Q (3 # 4)%Q (1 # 2)%Q (round_float8 (7 # 10)));
    vm_compute; solve [reflexivity | discriminate].
Defined.

(** C4 as stated fails.  Two stored entities with the same embedding have
    the same similarity and are both returned, so the order of the result
    is not strictly descending.  An entity whose embedding is the zero
    vector has the similarity NaN, which passes the comparison with the
    threshold: it is returned, after all others, with a similarity that is
    no number above the threshold. *)
Lemma semantic_search_ties_counterexample :
  (exists rows,
     search_nodes_semantic unit_cosine_distance unit_e1 (F8 (1 # 2)) 10 every_row twins
     = Some rows /\
     Permutation (map nm_id rows) [1%N; 2%N; 3%N] /\
     map nm_similarity rows = [Some (F8 1); Some (F8 1); Some NaN] /\
     ~ StronglySorted similarity_gt (map nm_similarity rows)) /\
  (exists rows,
     search_chunks_semantic unit_cosine_distance unit_e1 (F8 (1 # 2)) 10 every_row twins
     = Some rows /\
     Permutation (map cm_id rows) [1%N; 2%N; 3%N] /\
     map cm_similarity rows = [Some (F8 1); Some (F8 1); Some NaN] /\
     ~ StronglySorted similarity_gt (map cm_similarity rows)).
Proof.
  split; eexists; (split; [vm_compute; reflexivity|]);
    (split; [apply Permutation_refl|]); (split; [reflexivity|]);
    intro H; inversion H as [|? ? _ Hall]; subst;
    inversion Hall as [|? ? (a & b & Ha & Hb & Hlt) _]; subst;
    injection Ha as <-; injection Hb as <-; discriminate Hlt.
Qed.

(* ----------------------------------------------------------------- *)
(** ** The chat route *)

Lemma POST_StreamText (body : option json) (m : string) (msgs : list json)
      (offered : list tool_name) (k : nat) :
  POST body = StreamText m msgs offered k ->
  exists b, body = Some b /\
    get_property b "mode" = Some (JString m) /\
    get_property b "messages" = Some (JArray msgs) /\
    In m ["vector"; "graph"; "hybrid"]%string /\
    offered = tools m /\ k = 5%nat.
Proof.
  intro H. destruct body as [b|]; [|discriminate].
  exists b. split; [reflexivity|].
  destruct b; try discriminate.
  unfold POST in H. cbv beta iota zeta in H.
  set (ms := get_property (JObject fields) "messages") in *.
  set (md := get_property (JObject fields) "mode") in *.
  clearbody ms md.
  destruct ms as [[| | | |items|]|];
    simpl in H; rewrite ?orb_true_r in H; try discriminate.
  destruct md as [[| | |mode| |]|];
    simpl in H; rewrite ?orb_true_r in H; try discriminate.
  destruct (negb (negb (mode =? "")%string) || _) eqn:Hc in H; [discriminate|].
  injection H as <- <- <- <-.
  apply orb_false_elim in Hc. destruct Hc as [_ Hinc].
  apply negb_false_iff in Hinc.
  rewrite !orb_true_iff, !String.eqb_eq in Hinc. simpl. intuition (auto; discriminate).
Qed.

Lemma generateEmbedding_db (ev : env) (text : js_string) (w : world) :
  db (snd (generateEmbedding ev text w)) = db w.
Proof.
  unfold generateEmbedding. now destruct (openai_embed ev _).
Qed.

(** What went through [createSafeExecute] never throws. *)
Lemma createSafeExecute_returns (fn : env -> world -> outcome * world)
      (toolName : string) (ev : env) (w : world) :
  exists v, fst (createSafeExecute fn toolName ev w) = Return v.
Proof.
  unfold createSafeExecute. destruct (fn ev w) as [[v|e] w']; simpl; eauto.
Qed.

Lemma searchDocuments_fn_db (query : js_string) (threshold : Q) (limit : Z)
      (ev : env) (w : world) :
  db (snd (searchDocuments_fn query threshold limit ev w)) = db w.
Proof.
  unfold searchDocuments_fn.
  pose proof (generateEmbedding_db ev query w) as Hdb.
  destruct (generateEmbedding ev query w) as [embedding w1]. simpl in Hdb.
  destruct (db_up ev 0%nat); [|exact Hdb].
  now destruct (search_chunks_semantic _ _ _ _ _ _).
Qed.

Lemma tool_name_eqb_eq (a b : tool_name) : tool_name_eqb a b = true <-> a = b.
Proof. destruct a, b; simpl; split; congruence. Qed.

(** With only [searchDocuments] offered, a call either is not run or is a
    document search, and the tables stay as they were. *)
Lemma invoke_searchDocuments_only (ev : env) (c : tool_call) (w : world) :
  db (snd (invoke [searchDocuments] ev c w)) = db w /\
  (fst (invoke [searchDocuments] ev c w) = NoSuchTool \/ tool_of c = searchDocuments).
Proof.
  unfold invoke. destruct c; simpl; auto.
  pose proof (searchDocuments_fn_db query threshold limit ev w) as Hdb.
  unfold createSafeExecute.
  destruct (searchDocuments_fn query threshold limit ev w) as [[v|e] w']; simpl in *; auto.
Qed.

Lemma run_calls_searchDocuments_only (calls : list (env * tool_call)) (w : world) :
  db (snd (run_calls [searchDocuments] calls w)) = db w /\
  forall c i, In (c, i) (fst (run_calls [searchDocuments] calls w)) ->
    i = NoSuchTool \/ tool_of c = searchDocuments.
Proof.
  revert w. induction calls as [|[ev c] rest IH]; intro w; simpl.
  - split; [reflexivity | intros ? ? []].
  - destruct (invoke_searchDocuments_only ev c w) as [Hdb Hentry].
    destruct (invoke [searchDocuments] ev c w) as [i w1]. simpl in *.
    destruct (IH w1) as [Hdb' Hlog].
    destruct (run_calls [searchDocuments] rest w1) as [log w2]. simpl in *.
    split; [congruence|].
    intros c' i' [[= <- <-]|Hin]; [exact Hentry | now apply Hlog].
Qed.

(** C6: in a request that declares the mode "vector" only
    [searchDocuments] is offered; whatever calls the model proposes, the
    tables of the store stay as they were, and every call that was run is
    a document search: a proposed [createNode] or [createEdge] is not
    executed and leaves no executed entry in the response. *)
Theorem vector_mode_read_only
        (body : option json) (steps : list (list (env * tool_call))) (w : world) :
  declared_mode body = Some "vector"%string ->
  tools "vector" = [searchDocuments] /\
  db (snd (handle_request body steps w)) = db w /\
  (forall log, fst (handle_request body steps w) = DataStream log ->
     forall c o, In (c, Executed o) log -> tool_of c = searchDocuments) /\
  (forall ev label type properties,
     handle_request vector_request [[(ev, CreateNode label type properties)]] w
     = (DataStream [(CreateNode label type properties, NoSuchTool)], w)).
Proof.
  intro Hmode. split; [reflexivity|].
  assert (Hrun :
    db (snd (handle_request body steps w)) = db w /\
    forall log, fst (handle_request body steps w) = DataStream log ->
      forall c i, In (c, i) log -> i = NoSuchTool \/ tool_of c = searchDocuments).
  { unfold handle_request.
    destruct (POST body) as [status err|m msgs offered k] eqn:HP.
    - simpl. split; [now destruct (status =? 500) | discriminate].
    - apply POST_StreamText in HP.
      destruct HP as (b & -> & Hm & _ & _ & -> & ->).
      unfold declared_mode in Hmode. rewrite Hm in Hmode. injection Hmode as ->.
      change (tools "vector") with [searchDocuments]. unfold streamText.
      destruct (run_calls_searchDocuments_only (List.concat (firstn 5 steps)) w)
        as [Hdb Hlog].
      destruct (run_calls [searchDocuments] (List.concat (firstn 5 steps)) w)
        as [log w']. simpl in *.
      split; [exact Hdb|]. intros log' [= <-]. exact Hlog. }
  destruct Hrun as [Hdb Hlog]. split; [exact Hdb|]. split.
  - intros log Hresp c o Hin.
    destruct (Hlog log Hresp c _ Hin) as [H|H]; [discriminate | exact H].
  - reflexivity.
Qed.

Lemma vector_mode_read_only_witness :
  tools "vector" = [searchDocuments] /\
  db (snd (handle_request vector_request [] (mk_world abc_store []))) = abc_store.
Proof.
  destruct (vector_mode_read_only vector_request [] (mk_world abc_store []))
    as (Htools & Hdb & _).
  - reflexivity.
  - split; [exact Htools | exact Hdb].
Defined.

Lemma POST_Respond (body : option json) (status : Z) (error : string) :
  POST body = Respond status error ->
  status = 400 \/ (status = 500 /\ (body = None \/ body = Some JNull)).
Proof.
  intro H. destruct body as [b|]; [|injection H as <- _; auto].
  destruct b; try (injection H as <- _; auto; fail).
  unfold POST in H. cbv beta iota zeta in H.
  set (ms := get_property (JObject fields) "messages") in *.
  set (md := get_property (JObject fields) "mode") in *.
  clearbody ms md.
  destruct ms as [[| | | |items|]|];
    simpl in H; rewrite ?orb_true_r in H; try (injection H as <- _; auto; fail).
  destruct md as [[| | |mode| |]|];
    simpl in H; rewrite ?orb_true_r in H; try (injection H as <- _; auto; fail).
  destruct (negb (negb (mode =? "")%string) || _) in H; [|discriminate].
  injection H as <- _. auto.
Qed.

(** C8 (amended): a request that declares no mode of vector, graph and
    hybrid, or whose [messages] is not an array, is answered with an error
    before any tool runs and with the tables untouched: status 400, or
    status 500 when the body is not JSON or is [null]. *)
Theorem invalid_request_rejected
        (body : option json) (steps : list (list (env * tool_call))) (w : world) :
  ~ declares_mode body \/ ~ has_messages body ->
  exists status error,
    fst (handle_request body steps w) = ErrorResponse status error /\
    db (snd (handle_request body steps w)) = db w /\
    ((status = 400 /\ snd (handle_request body steps w) = w) \/
     (status = 500 /\ (body = None \/ body = Some JNull))).
Proof.
  intro Hbad. unfold handle_request.
  destruct (POST body) as [status err|m msgs offered k] eqn:HP.
  - exists status, err. simpl. split; [reflexivity|].
    split; [now destruct (status =? 500)|].
    destruct (POST_Respond _ _ _ HP) as [->|[-> Hb]]; [left | right]; auto.
  - exfalso. apply POST_StreamText in HP.
    destruct HP as (b & -> & Hm & Hmsgs & Hin & _).
    destruct Hbad as [Hbad|Hbad]; apply Hbad.
    + exists b, m. auto.
    + exists b, msgs. auto.
Qed.

Lemma invalid_request_rejected_witness :
  exists status error,
    fst (handle_request (Some (JObject [("mode", JString "vector")]%string)) []
                        (mk_world abc_store []))
    = ErrorResponse status error /\
    db (snd (handle_request (Some (JObject [("mode", JString "vector")]%string)) []
                            (mk_world abc_store []))) = abc_store /\
    ((status = 400 /\
      snd (handle_request (Some (JObject [("mode", JString "vector")]%string)) []
                          (mk_world abc_store [])) = mk_world abc_store []) \/
     (status = 500 /\
      (Some (JObject [("mode", JString "vector")]%string) = None \/
       Some (JObject [("mode", JString "vector")]%string) = Some JNull))).
Proof.
  apply (invalid_request_rejected
           (Some (JObject [("mode", JString "vector")]%string)) []
           (mk_world abc_store [])).
  right. intros (b & msgs & [= <-] & H). simpl in H. discriminate H.
Defined.

(** C8 as stated fails: a request whose message sequence is the empty
    array passes the validation and is handed to [streamText] with the
    tools of its mode; and a [null] body is answered with status 500, not
    with the 400 of an invalid request. *)
Lemma empty_messages_counterexample :
  ~ has_nonempty_messages empty_messages_request /\
  POST empty_messages_request = StreamText "vector" [] [searchDocuments] 5 /\
  ~ declares_mode (Some JNull) /\
  POST (Some JNull) = Respond 500 "An error occurred processing your request".
Proof.
  split; [|split; [|split]].
  - intros (b & m & msgs & [= <-] & H). simpl in H. discriminate H.
  - reflexivity.
  - intros (b & m & [= <-] & H & _). simpl in H. discriminate H.
  - reflexivity.
Qed.

(* ----------------------------------------------------------------- *)
(** ** Error handling of the tools *)

(** C7 at its failing inputs: only [searchDocuments] goes through
    [createSafeExecute].  [createEdge] on a triple that is already stored
    throws the unique violation; [traverseGraph], [createNode] and
    [searchNodesSemanticaly] throw when the store call fails; the failure
    of a missing node is returned as an error value that does not name the
    tool.  [searchDocuments], the wrapped sibling, turns the failure of its
    store call into an error value that names it (its text ends in
    "Unknown error", the thrown object being no instance of [Error]). *)
Theorem unwrapped_tools_throw :
  let up := example_env (fun _ => None) draws 99%N (fun _ => true) in
  let down := example_env (fun _ => None) draws 99%N (fun _ => false) in
  let lost := example_env (fun _ => None) draws 99%N (fun k => Nat.eqb k 0) in
  let w := mk_world abc_store [] in
  execute up (CreateEdge "A" "B" "x") w
  = (Throw (unique_violation "kg_edges_source_id_target_id_relationship_key"), w) /\
  execute lost (TraverseGraph "A" 2) w
  = (Throw connection_error, log_line w "RPC Error:") /\
  execute down (CreateNode "D" None "{}"%string) w = (Throw connection_error, w) /\
  fst (execute down (SearchNodesSemanticaly (js "A") (1 # 2) 10) w)
  = Throw connection_error /\
  execute up (CreateEdge "A" "Z" "x") w
  = (Return (ErrorObject "One or both nodes not found"), w) /\
  fst (execute down (SearchDocuments (js "A") (1 # 2) 10) w)
  = Return (SafeError "Failed to execute searchDocuments: Unknown error") /\
  fst (handle_request
         (Some (JObject [("messages", JArray [user_message "link A to B"]);
                         ("mode", JString "graph")]%string))
         [[(up, CreateEdge "A" "B" "x")]] w)
  = DataStream
      [(CreateEdge "A" "B" "x",
        Executed (Throw (unique_violation
                           "kg_edges_source_id_target_id_relationship_key")))].
Proof.
  repeat split; vm_compute; reflexivity.
Qed.

(* ----------------------------------------------------------------- *)
(** ** The embedding fallback *)

(** C10 (amended): when the embedding provider fails, [generateEmbedding]
    returns 1536 values of [Math.random()] as an ordinary vector and writes
    two lines to the server console; what the search tools return to the
    caller is what they return when the provider itself answers with that
    vector, so the response carries no mark of the fallback. *)
Theorem embedding_fallback_unflagged
        (ev : env) (query : js_string) (threshold : Q) (limit : Z) (w : world) :
  openai_embed ev (firstn (8 * 1000) query) = None ->
  fst (generateEmbedding ev query w) = map (math_random ev) (seq 0 1536) /\
  List.length (fst (generateEmbedding ev query w)) = 1536%nat /\
  snd (generateEmbedding ev query w)
  = mk_world (db w) (console w ++ ["Embedding generation failed:"%string]
                               ++ ["Using mock embeddings as fallback"%string]) /\
  fst (execute ev (SearchDocuments query threshold limit) w)
  = fst (execute (with_embedding ev (map (math_random ev) (seq 0 1536)))
                 (SearchDocuments query threshold limit) w) /\
  fst (execute ev (SearchNodesSemanticaly query threshold limit) w)
  = fst (execute (with_embedding ev (map (math_random ev) (seq 0 1536)))
                 (SearchNodesSemanticaly query threshold limit) w).
Proof.
  intro Hfail.
  set (v := map (math_random ev) (seq 0 1536)).
  assert (Hgen : generateEmbedding ev query w
                 = (v, mk_world (db w)
                         (console w ++ ["Embedding generation failed:"%string]
                                    ++ ["Using mock embeddings as fallback"%string]))).
  { unfold generateEmbedding. rewrite Hfail. unfold log_line.
    cbn [db console]. now rewrite <- app_assoc. }
  assert (Hgen' : generateEmbedding (with_embedding ev v) query w = (v, w)) by reflexivity.
  rewrite Hgen. cbn [fst snd]. split; [reflexivity|]. split.
  - unfold v. now rewrite length_map, length_seq.
  - split; [reflexivity|]. split.
    + unfold execute, createSafeExecute, searchDocuments_fn.
      rewrite Hgen, Hgen'. cbn [db db_up cosine chunks_scan with_embedding].
      destruct (db_up ev 0%nat); [|reflexivity].
      now destruct (search_chunks_semantic _ _ _ _ _ _).
    + unfold execute, searchNodesSemanticaly_execute.
      rewrite Hgen, Hgen'. cbn [db db_up cosine nodes_scan with_embedding].
      destruct (db_up ev 0%nat); [|reflexivity].
      now destruct (search_nodes_semantic _ _ _ _ _ _).
Qed.

Lemma embedding_fallback_unflagged_witness :
  fst (generateEmbedding (example_env (fun _ => None) draws 0%N (fun _ => true))
                         (js "Laika") (mk_world chunk_store []))
  = map draws (seq 0 1536).
Proof.
  apply (embedding_fallback_unflagged
           (example_env (fun _ => None) draws 0%N (fun _ => true))
           (js "Laika") (1 # 2)%Q 10 (mk_world chunk_store [])).
  reflexivity.
Defined.

(** C10 as stated fails: a search answered from the fallback vector and a
    search answered from a real embedding with the same components return
    the same value to the caller; nothing in it tells them apart. *)
Lemma fallback_indistinguishable_counterexample :
  let failing := example_env (fun _ => None) draws 0%N (fun _ => true) in
  let working := example_env (fun _ => Some unit_1536) draws 0%N (fun _ => true) in
  let w := mk_world chunk_store [] in
  openai_embed failing (firstn (8 * 1000) (js "Laika")) = None /\
  openai_embed working (firstn (8 * 1000) (js "Laika")) = Some unit_1536 /\
  fst (execute failing (SearchDocuments (js "Laika") (1 # 2) 10) w)
  = fst (execute working (SearchDocuments (js "Laika") (1 # 2) 10) w) /\
  (exists r, fst (execute failing (SearchDocuments (js "Laika") (1 # 2) 10) w)
             = Return (DocumentResults [r])) /\
  console (snd (execute failing (SearchDocuments (js "Laika") (1 # 2) 10) w))
  = ["Embedding generation failed:"; "Using mock embeddings as fallback"]%string.
Proof.
  repeat split; try (vm_compute; reflexivity).
  eexists. vm_compute. reflexivity.
Qed.

(* ================================================================= *)
(** * Further properties of the code *)

(* ----------------------------------------------------------------- *)
(** ** The constraints of the schema in every reachable store *)

Lemma keys_unique_filter {Row Key : Type} (key : Row -> Key) (keep : Row -> bool)
      (table : list Row) :
  NoDup (map key table) -> NoDup (map key (filter keep table)).
Proof.
  induction table as [|r rest IH]; simpl; intro Hu; [constructor|].
  apply NoDup_cons_iff in Hu. destruct Hu as [Hnew Hrest].
  destruct (keep r); simpl; [|now apply IH].
  apply NoDup_cons_iff. split; [|now apply IH].
  rewrite in_map_iff. intros (r' & Hk & Hr'). apply filter_In in Hr'.
  apply Hnew. rewrite in_map_iff. exists r'. tauto.
Qed.

Lemma node_exists_ids (s : store) (x : uuid) :
  node_exists s x = true <-> In x (map n_id (kg_nodes s)).
Proof.
  rewrite node_exists_In, in_map_iff. split; intros (n & H1 & H2); exists n; tauto.
Qed.

Lemma node_ids_unique_after (s : store) (op : store_op) :
  node_ids_unique s -> node_ids_unique (after s op).
Proof.
  unfold node_ids_unique, after. intro Hu.
  destruct op as [n|e|c|c|x v]; simpl.
  - unfold insert_node. destruct (node_exists s (n_id n)) eqn:Hex; [exact Hu|].
    simpl. rewrite map_app. simpl. apply NoDup_snoc; [exact Hu|].
    rewrite <- node_exists_ids. congruence.
  - destruct (insert_edge s e) as [err|s'] eqn:Hins; [exact Hu|].
    apply insert_edge_inr in Hins. now destruct Hins as (-> & _).
  - now apply keys_unique_filter.
  - exact Hu.
  - destruct (update_node_embedding s x v) as [err|s'] eqn:Hupd; [exact Hu|].
    apply update_node_embedding_inr in Hupd. destruct Hupd as [-> _]. simpl.
    rewrite map_map.
    rewrite (map_ext _ n_id); [exact Hu|].
    intro n. now destruct (N.eqb (n_id n) x).
Qed.

Lemma edge_ids_unique_after (s : store) (op : store_op) :
  edge_ids_unique s -> edge_ids_unique (after s op).
Proof.
  unfold edge_ids_unique, after. intro Hu.
  destruct op as [n|e|c|c|x v]; simpl.
  - unfold insert_node. now destruct (node_exists s (n_id n)).
  - destruct (insert_edge s e) as [err|s'] eqn:Hins; [exact Hu|].
    apply insert_edge_inr in Hins. destruct Hins as (-> & Hpk & _). simpl.
    rewrite map_app. simpl. apply NoDup_snoc; [exact Hu|].
    rewrite in_map_iff. intros (x & Hid & Hx).
    assert (existsb (fun x0 => N.eqb (e_id x0) (e_id e)) (kg_edges s) = true).
    { apply existsb_exists. exists x. split; [exact Hx | now apply N.eqb_eq]. }
    congruence.
  - now apply keys_unique_filter.
  - now apply keys_unique_filter.
  - destruct (update_node_embedding s x v) as [err|s'] eqn:Hupd; [exact Hu|].
    apply update_node_embedding_inr in Hupd. now destruct Hupd as [-> _].
Qed.

Lemma reachable_store_keys (s : store) :
  reachable_store s -> node_ids_unique s /\ edge_ids_unique s.
Proof.
  induction 1 as [|s op Hs [Hn He]].
  - split; constructor.
  - split; [now apply node_ids_unique_after | now apply edge_ids_unique_after].
Qed.

(** X1: in every store that the repository's statements can build, both
    endpoints of every edge are rows of [kg_nodes]: no statement leaves an
    edge that references a missing node. *)
Theorem reachable_store_references (s : store) (e : kg_edge) :
  reachable_store s -> In e (kg_edges s) ->
  (exists a, In a (kg_nodes s) /\ n_id a = source_id e) /\
  (exists b, In b (kg_nodes s) /\ n_id b = target_id e).
Proof.
  intros Hs He. destruct (reachable_store_invariants s Hs) as [_ FK].
  destruct (FK e He) as [Ha Hb]. split; now apply node_exists_In.
Qed.

Lemma reachable_store_references_witness :
  (exists a, In a (kg_nodes abc_store) /\ n_id a = source_id edgeBC) /\
  (exists b, In b (kg_nodes abc_store) /\ n_id b = target_id edgeBC).
Proof.
  apply (reachable_store_references abc_store edgeBC).
  - exact abc_store_reachable.
  - simpl. tauto.
Defined.

(** X2: in every reachable store the primary keys hold: two node rows with
    the same id are the same row, and so are two edge rows. *)
Theorem reachable_store_primary_keys (s : store) :
  reachable_store s ->
  (forall a b, In a (kg_nodes s) -> In b (kg_nodes s) -> n_id a = n_id b -> a = b) /\
  (forall a b, In a (kg_edges s) -> In b (kg_edges s) -> e_id a = e_id b -> a = b).
Proof.
  intro Hs. destruct (reachable_store_keys s Hs) as [Hn He].
  split; intros a b Ha Hb Hid.
  - now apply (NoDup_map_eq n_id (kg_nodes s)).
  - now apply (NoDup_map_eq e_id (kg_edges s)).
Qed.

Lemma reachable_store_primary_keys_witness :
  (forall a b, In a (kg_nodes abc_store) -> In b (kg_nodes abc_store) ->
     n_id a = n_id b -> a = b) /\
  (forall a b, In a (kg_edges abc_store) -> In b (kg_edges abc_store) ->
     e_id a = e_id b -> a = b).
Proof.
  apply (reachable_store_primary_keys abc_store). exact abc_store_reachable.
Defined.

(* ----------------------------------------------------------------- *)
(** ** ON DELETE CASCADE *)

(** X3: deleting the node with id [x] from a store whose edges reference
    existing nodes removes that node and exactly the edges that start or
    end at it; every other node and edge, and the chunks, stay. *)
Theorem delete_node_cascades (s : store) (x : uuid) :
  edges_reference_nodes s ->
  let s' := delete_nodes s (fun n => N.eqb (n_id n) x) in
  node_exists s' x = false /\
  (forall n, In n (kg_nodes s') <-> In n (kg_nodes s) /\ n_id n <> x) /\
  (forall e, In e (kg_edges s') <->
             In e (kg_edges s) /\ source_id e <> x /\ target_id e <> x) /\
  edges_reference_nodes s' /\
  document_chunks s' = document_chunks s.
Proof.
  intros FK s'.
  assert (Hnodes : forall n, In n (kg_nodes s') <-> In n (kg_nodes s) /\ n_id n <> x).
  { intro n. unfold s'. simpl. rewrite filter_In, negb_true_iff, N.eqb_neq. tauto. }
  split; [|split; [exact Hnodes|split; [|split; [|reflexivity]]]].
  - destruct (node_exists s' x) eqn:Hex; [|reflexivity].
    apply node_exists_In in Hex. destruct Hex as (n & Hn & Hid).
    apply Hnodes in Hn. tauto.
  - intro e. unfold s'. simpl. rewrite filter_In, negb_true_iff. split.
    + intros [He Hkeep]. split; [exact He|].
      destruct (FK e He) as [Ha Hb].
      apply node_exists_In in Ha, Hb.
      destruct Ha as (a & Hain & Haid), Hb as (b & Hbin & Hbid).
      split; intro Heq.
      * assert (Hdel : existsb (fun n => N.eqb (n_id n) x
                                  && (N.eqb (n_id n) (source_id e)
                                      || N.eqb (n_id n) (target_id e)))
                               (kg_nodes s) = true).
        { apply existsb_exists. exists a. split; [exact Hain|].
          rewrite Haid, Heq, N.eqb_refl. reflexivity. }
        congruence.
      * assert (Hdel : existsb (fun n => N.eqb (n_id n) x
                                  && (N.eqb (n_id n) (source_id e)
                                      || N.eqb (n_id n) (target_id e)))
                               (kg_nodes s) = true).
        { apply existsb_exists. exists b. split; [exact Hbin|].
          rewrite Hbid, Heq, N.eqb_refl. apply orb_true_r. }
        congruence.
    + intros (He & Hsrc & Htgt). split; [exact He|].
      destruct (existsb _ (kg_nodes s)) eqn:Hdel; [|reflexivity].
      apply existsb_exists in Hdel. destruct Hdel as (n & _ & Hc).
      apply andb_prop in Hc. destruct Hc as [Hx Hends].
      apply N.eqb_eq in Hx. apply orb_prop in Hends.
      destruct Hends as [H|H]; apply N.eqb_eq in H; congruence.
  - exact (edges_reference_nodes_after s (DeleteNodes (fun n => N.eqb (n_id n) x)) FK).
Qed.

Lemma delete_node_cascades_witness :
  node_exists (delete_nodes abc_store (fun n => N.eqb (n_id n) 2%N)) 2%N = false /\
  kg_edges (delete_nodes abc_store (fun n => N.eqb (n_id n) 2%N)) = [edgeAC].
Proof.
  destruct (delete_node_cascades abc_store 2%N) as (Hgone & _).
  - intros e [<-|[<-|[<-|[]]]]; split; reflexivity.
  - split; [exact Hgone | reflexivity].
Defined.

(* ----------------------------------------------------------------- *)
(** ** get_connected_nodes: further properties *)

Lemma reach_O_inv (s : store) (n v : uuid) : reach s n O v -> v = n.
Proof. intro H. now inversion H. Qed.

Lemma reach_step_front (s : store) (u w : uuid) :
  adjacent s u w -> forall k v, reach s w k v -> reach s u (S k) v.
Proof.
  intros Huw k v H. induction H as [|k a b Ha IH Hab].
  - apply (reach_S s u O u w); [constructor | exact Huw].
  - apply (reach_S s u (S k) a b); assumption.
Qed.

Lemma reach_sym (s : store) (u : uuid) (k : nat) (v : uuid) :
  reach s u k v -> reach s v k u.
Proof.
  induction 1 as [|k a b Ha IH Hab]; [constructor|].
  apply (reach_step_front s b a); [now apply adjacent_sym | exact IH].
Qed.

(** The result of [get_connected_nodes] as a relation between node ids and
    depths. *)
Lemma connected_pairs (s : store) (n : uuid) (max_depth : Z) :
  edges_reference_nodes s -> node_exists s n = true ->
  exists rows,
    get_connected_nodes s n max_depth = Some rows /\
    StronglySorted N.lt (map node_id rows) /\
    (forall v z, In (v, z) (map id_depth rows) -> exists k, z = Z.of_nat k) /\
    (forall v k, In (v, Z.of_nat k) (map id_depth rows) <->
       reach s n k v /\ (forall j, reach s n j v -> (k <= j)%nat) /\
       (k = O \/ Z.of_nat k <= max_depth)).
Proof.
  intros FK Hn.
  destruct (get_connected_nodes_rows s n max_depth FK Hn)
    as (rows & Hrows & Hsorted & Hmin & Hall).
  exists rows. split; [exact Hrows|]. split; [exact Hsorted|]. split.
  - intros v z Hin. apply in_id_depth in Hin. destruct Hin as (r & Hr & _ & <-).
    destruct (Hmin r Hr) as (k & Hk & _). eauto.
  - intros v k. rewrite in_id_depth. split.
    + intros (r & Hr & <- & Hd).
      destruct (Hmin r Hr) as (k' & Hk' & Hb & Hreach & Hleast).
      assert (k' = k) by lia. subst k'. auto.
    + intros (Hreach & Hleast & Hb).
      pose proof (Hall k v Hreach Hb) as Hin.
      apply in_map_iff in Hin. destruct Hin as (r & <- & Hr).
      exists r. split; [exact Hr|]. split; [reflexivity|].
      destruct (Hmin r Hr) as (k' & -> & _ & Hreach' & Hleast').
      specialize (Hleast k' Hreach'). specialize (Hleast' k Hreach). lia.
Qed.

Lemma connected_of_missing_start (s : store) (n : uuid) (max_depth : Z) :
  node_exists s n = false -> get_connected_nodes s n max_depth = Some [].
Proof.
  intro Hmiss. unfold get_connected_nodes, node_graph.
  assert (Hbase : node_graph_base s n = []).
  { unfold node_graph_base.
    assert (Hnone : filter (fun a => N.eqb (n_id a) n) (kg_nodes s) = []).
    { destruct (filter _ (kg_nodes s)) as [|a rest] eqn:Hf; [reflexivity|exfalso].
      assert (Ha : In a (filter (fun a => N.eqb (n_id a) n) (kg_nodes s)))
        by (rewrite Hf; now left).
      apply filter_In in Ha. destruct Ha as [Ha Hid].
      assert (node_exists s n = true)
        by (apply node_exists_In; exists a; split; [exact Ha | now apply N.eqb_eq]).
      congruence. }
    now rewrite Hnone. }
  rewrite Hbase. reflexivity.
Qed.

(** X4: for a start node that is not stored, [get_connected_nodes] and
    [find_shortest_path] both return an empty table; neither raises an
    error. *)
Theorem traversal_of_missing_start (s : store) (n other : uuid) (max_depth : Z) :
  node_exists s n = false ->
  get_connected_nodes s n max_depth = Some [] /\
  find_shortest_path s n other max_depth = Some (inr []).
Proof.
  intro Hmiss. split; [now apply connected_of_missing_start|].
  unfold find_shortest_path, paths, paths_base. rewrite Hmiss. reflexivity.
Qed.

Lemma traversal_of_missing_start_witness :
  get_connected_nodes abc_store 7%N 2 = Some [] /\
  find_shortest_path abc_store 7%N 1%N 2 = Some (inr []).
Proof.
  apply (traversal_of_missing_start abc_store 7%N 1%N 2). reflexivity.
Defined.

Lemma upath_ends (s : store) (start : uuid) (p : list uuid) (v : uuid) :
  upath s start p v -> (exists q, p = start :: q) /\ (exists q, p = q ++ [v]).
Proof.
  induction 1 as [|p u v Hp [[q Hq] _] Hadj Hnin].
  - split; [now exists [] | now exists []].
  - split; [|now exists p]. subst p. now exists (q ++ [v]).
Qed.

Lemma round_node (s : store) (start : uuid) (max_depth : Z) (k : nat)
      (r : node_graph_row) :
  In r (Sql.round (node_graph_step s max_depth) k (node_graph_base s start)) ->
  exists node, In node (kg_nodes s) /\ node_id r = n_id node /\
    label r = n_label node /\ type r = n_type node /\
    properties r = n_properties node.
Proof.
  destruct k as [|k]; intro Hr.
  - simpl in Hr. apply node_graph_base_In in Hr.
    destruct Hr as (node & Hnode & _ & ->). exists node. simpl. auto.
  - rewrite round_S in Hr. apply node_graph_step_In in Hr.
    destruct Hr as (ng & e & node & _ & _ & Hnode & _ & _ & _ & ->).
    exists node. simpl. auto.
Qed.

(** X5: every row that [get_connected_nodes] returns carries the label,
    type and properties of a stored node with its id, and its [path] is a
    simple path that follows edges in either direction from the start node
    to that node, with one more node than the row's depth. *)
Theorem connected_rows_carry_paths
        (s : store) (n : uuid) (max_depth : Z) (rows : list node_graph_row)
        (r : node_graph_row) :
  get_connected_nodes s n max_depth = Some rows -> In r rows ->
  upath s n (path r) (node_id r) /\ NoDup (path r) /\
  Z.of_nat (List.length (path r)) = depth r + 1 /\
  (exists q, path r = n :: q) /\ (exists q, path r = q ++ [node_id r]) /\
  (exists node, In node (kg_nodes s) /\ node_id r = n_id node /\
     label r = n_label node /\ type r = n_type node /\
     properties r = n_properties node).
Proof.
  unfold get_connected_nodes. intros Hrows Hr.
  destruct (node_graph s n max_depth (S (Z.to_nat max_depth))) as [all|] eqn:Hall;
    [|discriminate].
  injection Hrows as <-. apply select_connected_incl in Hr.
  apply (with_recursive_In _ (node_graph_step_nil s max_depth) _ _ _ r Hall) in Hr.
  destruct Hr as [k Hk].
  destruct (round_sound _ _ _ _ _ Hk) as (Hd & Hp & Hlen & _).
  destruct (upath_ends _ _ _ _ Hp) as [Hhead Hlast].
  split; [exact Hp|]. split; [now apply upath_NoDup in Hp|].
  split; [rewrite Hlen, Hd; lia|]. split; [exact Hhead|]. split; [exact Hlast|].
  eapply round_node; exact Hk.
Qed.

Lemma connected_rows_carry_paths_witness :
  upath abc_store 1%N [1%N; 2%N] 2%N /\ NoDup [1%N; 2%N].
Proof.
  destruct (connected_rows_carry_paths abc_store 1%N 1
              [mk_ng 1%N "A" None None 0 [1%N];
               mk_ng 2%N "B" None None 1 [1%N; 2%N];
               mk_ng 3%N "C" None None 1 [1%N; 3%N]]
              (mk_ng 2%N "B" None None 1 [1%N; 2%N]))
    as (Hp & Hnd & _).
  - vm_compute. reflexivity.
  - simpl. tauto.
  - split; [exact Hp | exact Hnd].
Defined.

(** X6: raising [max_depth] only adds rows: a node returned at some depth
    for [max_depth = d] is returned at the same depth for every larger
    bound. *)
Theorem connected_grows_with_depth
        (s : store) (n : uuid) (d d' : Z) :
  edges_reference_nodes s -> node_exists s n = true -> d <= d' ->
  exists rows rows',
    get_connected_nodes s n d = Some rows /\
    get_connected_nodes s n d' = Some rows' /\
    forall v z, In (v, z) (map id_depth rows) -> In (v, z) (map id_depth rows').
Proof.
  intros FK Hn Hle.
  destruct (connected_pairs s n d FK Hn) as (rows & Hrows & _ & Hnat & Hiff).
  destruct (connected_pairs s n d' FK Hn) as (rows' & Hrows' & _ & _ & Hiff').
  exists rows, rows'. split; [exact Hrows|]. split; [exact Hrows'|].
  intros v z Hin. destruct (Hnat v z Hin) as [k ->].
  apply Hiff'. apply Hiff in Hin. destruct Hin as (Hreach & Hleast & Hb).
  split; [exact Hreach|]. split; [exact Hleast|]. lia.
Qed.

Lemma connected_grows_with_depth_witness :
  exists rows rows',
    get_connected_nodes abc_store 2%N 0 = Some rows /\
    get_connected_nodes abc_store 2%N 1 = Some rows' /\
    forall v z, In (v, z) (map id_depth rows) -> In (v, z) (map id_depth rows').
Proof.
  apply (connected_grows_with_depth abc_store 2%N 0 1).
  - intros e [<-|[<-|[<-|[]]]]; split; reflexivity.
  - reflexivity.
  - lia.
Defined.

Lemma reach_without_edges (s : store) (n : uuid) (k : nat) (v : uuid) :
  (forall e, In e (kg_edges s) -> source_id e <> n /\ target_id e <> n) ->
  reach s n k v -> k = O /\ v = n.
Proof.
  intros Hnone H. induction H as [|k u v Hu IH Hadj]; [auto|].
  destruct IH as [-> ->]. destruct Hadj as (e & He & Hends).
  destruct (Hnone e He). destruct Hends as [[? _]|[? _]]; contradiction.
Qed.

Lemma connected_only_start (s : store) (n : uuid) (max_depth : Z) :
  edges_reference_nodes s -> node_exists s n = true ->
  max_depth <= 0 \/
  (forall e, In e (kg_edges s) -> source_id e <> n /\ target_id e <> n) ->
  exists rows,
    get_connected_nodes s n max_depth = Some rows /\
    map id_depth rows = [(n, 0)].
Proof.
  intros FK Hn Hcase.
  destruct (connected_pairs s n max_depth FK Hn)
    as (rows & Hrows & Hsorted & Hnat & Hiff).
  exists rows. split; [exact Hrows|].
  assert (Honly : forall v z, In (v, z) (map id_depth rows) -> v = n /\ z = 0).
  { intros v z Hin. destruct (Hnat v z Hin) as [k ->].
    apply Hiff in Hin. destruct Hin as (Hreach & _ & Hb).
    destruct Hcase as [Hd|Hnone].
    - assert (k = O) by lia. subst k. split; [now apply reach_O_inv in Hreach | reflexivity].
    - destruct (reach_without_edges s n k v Hnone Hreach) as [-> ->]. auto. }
  assert (Hstart : In (n, Z.of_nat O) (map id_depth rows)).
  { apply Hiff. split; [constructor|]. split; [intros; lia | now left]. }
  assert (Hids : map node_id rows = [n]).
  { apply sorted_lt_ext; [exact Hsorted | repeat constructor|].
    intro x. split.
    - intro Hx. apply in_map_iff in Hx. destruct Hx as (r & <- & Hr).
      left. symmetry. apply (Honly (node_id r) (depth r)).
      apply in_id_depth. eauto.
    - intros [<-|[]]. apply in_id_depth in Hstart.
      destruct Hstart as (r & Hr & <- & _). now apply in_map. }
  destruct rows as [|r [|r' rest]]; try discriminate.
  simpl in *. injection Hids as Hid. unfold id_depth at 1.
  destruct (Honly (node_id r) (depth r)) as [_ ->]; [now left|].
  now rewrite Hid.
Qed.

(** X7: with a depth bound of zero or less, or for a node that no edge
    touches, [get_connected_nodes] returns the start node alone, at depth
    0. *)
Theorem connected_alone (s : store) (n : uuid) (max_depth : Z) :
  edges_reference_nodes s -> node_exists s n = true ->
  max_depth <= 0 \/
  (forall e, In e (kg_edges s) -> source_id e <> n /\ target_id e <> n) ->
  exists rows,
    get_connected_nodes s n max_depth = Some rows /\
    map id_depth rows = [(n, 0)].
Proof. exact (connected_only_start s n max_depth). Qed.

Lemma connected_alone_witness :
  exists rows,
    get_connected_nodes abc_store 3%N 0 = Some rows /\
    map id_depth rows = [(3%N, 0)].
Proof.
  apply (connected_alone abc_store 3%N 0).
  - intros e [<-|[<-|[<-|[]]]]; split; reflexivity.
  - reflexivity.
  - left. lia.
Defined.

(** X8: connectivity is symmetric: [v] is returned at depth [k] from [u]
    exactly when [u] is returned at depth [k] from [v], for the same depth
    bound. *)
Theorem connected_symmetric (s : store) (u v : uuid) (max_depth : Z) :
  edges_reference_nodes s -> node_exists s u = true -> node_exists s v = true ->
  exists from_u from_v,
    get_connected_nodes s u max_depth = Some from_u /\
    get_connected_nodes s v max_depth = Some from_v /\
    forall z, In (v, z) (map id_depth from_u) <-> In (u, z) (map id_depth from_v).
Proof.
  intros FK Hu Hv.
  destruct (connected_pairs s u max_depth FK Hu) as (from_u & Hfu & _ & Hnat_u & Hiff_u).
  destruct (connected_pairs s v max_depth FK Hv) as (from_v & Hfv & _ & Hnat_v & Hiff_v).
  exists from_u, from_v. split; [exact Hfu|]. split; [exact Hfv|].
  intro z. split; intro Hin.
  - destruct (Hnat_u v z Hin) as [k ->]. apply Hiff_v. apply Hiff_u in Hin.
    destruct Hin as (Hreach & Hleast & Hb).
    split; [now apply reach_sym|]. split; [|exact Hb].
    intros j Hj. apply Hleast. now apply reach_sym.
  - destruct (Hnat_v u z Hin) as [k ->]. apply Hiff_u. apply Hiff_v in Hin.
    destruct Hin as (Hreach & Hleast & Hb).
    split; [now apply reach_sym|]. split; [|exact Hb].
    intros j Hj. apply Hleast. now apply reach_sym.
Qed.

Lemma connected_symmetric_witness :
  exists from_u from_v,
    get_connected_nodes abc_store 1%N 2 = Some from_u /\
    get_connected_nodes abc_store 3%N 2 = Some from_v /\
    forall z, In (3%N, z) (map id_depth from_u) <-> In (1%N, z) (map id_depth from_v).
Proof.
  apply (connected_symmetric abc_store 1%N 3%N 2).
  - intros e [<-|[<-|[<-|[]]]]; split; reflexivity.
  - reflexivity.
  - reflexivity.
Defined.

(* ----------------------------------------------------------------- *)
(** ** find_shortest_path: further properties *)

Lemma dpath_head (s : store) (a : uuid) (p : list uuid)
      (w : sql_error + option float8) (v : uuid) :
  dpath s a p w v -> In a p.
Proof. induction 1; [now left | apply in_or_app; now left]. Qed.

Lemma dpath_back_to_start (s : store) (a : uuid) (p : list uuid)
      (w : sql_error + option float8) :
  dpath s a p w a -> p = [a] /\ w = inr (Some (F8 0)).
Proof.
  intro H. inversion H as [|q w' u e Hq He Hsrc Hnin Hp Hw Hv]; [auto|].
  exfalso. apply Hnin. eapply dpath_head, Hq.
Qed.

Lemma dpath_alone (s : store) (a : uuid) (p : list uuid)
      (w : sql_error + option float8) (v : uuid) :
  dpath s a p w v -> (List.length p <= 1)%nat -> w = inr (Some (F8 0)).
Proof.
  intros H Hlen. destruct H as [|p w u e Hp He Hsrc Hnin]; [reflexivity|].
  rewrite length_app in Hlen. simpl in Hlen.
  apply dpath_head in Hp. destruct p; [destruct Hp | simpl in Hlen; lia].
Qed.

Lemma dpath_reach (s : store) (a : uuid) (p : list uuid)
      (w : sql_error + option float8) (v : uuid) :
  dpath s a p w v -> exists k, List.length p = S k /\ reach s a k v.
Proof.
  induction 1 as [|p w u e Hp (k & Hlen & Hk) He Hsrc Hnin].
  - exists O. split; [reflexivity | constructor].
  - exists (S k). split; [rewrite length_app; simpl; lia|].
    apply (reach_S s a k u); [exact Hk|]. exists e. split; [exact He|]. now left.
Qed.

(** X9: from an existing node to itself [find_shortest_path] returns the
    one-node path with weight 0, whatever the edges, unless the search
    fails: the only other answer is the overflow error, raised when a sum
    overflows on some explored path, which cannot happen for a depth bound
    of 1 or less. *)
Theorem shortest_path_to_itself (s : store) (a : uuid) (max_depth : Z) :
  node_exists s a = true ->
  exists res,
    find_shortest_path s a a max_depth = Some res /\
    (res = inr [([a], Some (F8 0))] \/
     (res = inl numeric_value_out_of_range /\ ~ sums_succeed s a max_depth)) /\
    (sums_succeed s a max_depth -> res = inr [([a], Some (F8 0))]) /\
    (max_depth <= 1 -> res = inr [([a], Some (F8 0))]).
Proof.
  intro Hex.
  assert (Hsmall : max_depth <= 1 -> sums_succeed s a max_depth).
  { intros Hd p w v Hp [Hb|Hb]; exists (Some (F8 0));
      apply (dpath_alone s a p w v Hp); lia. }
  destruct (find_shortest_path_answer s a a max_depth) as (res & Hres & Hcase).
  exists res. split; [exact Hres|].
  destruct Hcase as [(e & p & v & -> & _ & Hd & Hb)
                    |[[-> [Hmiss|[_ Hnone]]]|(p0 & w0 & -> & _ & _ & Hd & _)]].
  - pose proof (dpath_error _ _ _ _ _ Hd) as ->.
    assert (Hfail : ~ sums_succeed s a max_depth).
    { intro Hs. destruct (Hs p _ v Hd Hb) as [x Hx]. discriminate. }
    split; [right; auto|]. split; [intro Hs; contradiction|].
    intro Hle. exfalso. auto.
  - congruence.
  - exfalso. apply (Hnone [a] (Some (F8 0))); [constructor | now left].
  - apply dpath_back_to_start in Hd. destruct Hd as [-> [= ->]]. auto.
Qed.

Lemma shortest_path_to_itself_witness :
  find_shortest_path abc_store 2%N 2%N 0 = Some (inr [([2%N], Some (F8 0))]).
Proof.
  destruct (shortest_path_to_itself abc_store 2%N 0) as (res & Hres & _ & _ & Hsmall).
  - reflexivity.
  - rewrite Hres, Hsmall; [reflexivity | lia].
Defined.

Lemma dpath_unit_weights (s : store) (a : uuid) (p : list uuid)
      (w : sql_error + option float8) (v : uuid) :
  (forall e, In e (kg_edges s) -> weight e = Some (F8 1)) ->
  dpath s a p w v -> Z.of_nat (List.length p) < 2 ^ 53 ->
  w = inr (Some (F8 (inject_Z (edges_of p)))).
Proof.
  intros Hunit. unfold edges_of.
  induction 1 as [|p w u e Hp IH He Hsrc Hnin]; intro Hlen; [reflexivity|].
  rewrite length_app in *. simpl List.length in *.
  assert (Hpos : (1 <= List.length p)%nat)
    by (apply dpath_head in Hp; destruct p; [destruct Hp | simpl; lia]).
  rewrite IH by lia. rewrite (Hunit e He).
  change (accumulate (inr (Some ?x)) (Some ?y)) with (float8_add (Some x) (Some y)).
  cbv beta iota delta [accumulate float8_add].
  rewrite float8pl_succ by lia.
  replace (Z.of_nat (List.length p + 1) - 1) with (Z.of_nat (List.length p) - 1 + 1) by lia.
  reflexivity.
Qed.

(** X10: when every edge has the default weight 1.0, the row returned by
    [find_shortest_path] has a total weight equal to its number of edges
    and no path within the bound has fewer nodes ([max_depth] is an INT). *)
Theorem shortest_path_fewest_edges
        (s : store) (a b : uuid) (max_depth : Z)
        (p0 : list uuid) (w0 : option float8) :
  (forall e, In e (kg_edges s) -> weight e = Some (F8 1)) ->
  max_depth <= 2147483647 ->
  find_shortest_path s a b max_depth = Some (inr [(p0, w0)]) ->
  (exists x, w0 = Some (F8 x) /\ (x == inject_Z (Z.of_nat (List.length p0) - 1))%Q) /\
  forall p w, dpath s a p w b -> within_depth_bound max_depth p ->
    (List.length p0 <= List.length p)%nat.
Proof.
  intros Hunit Hint Hres.
  assert (Hsmall : forall p, within_depth_bound max_depth p ->
            Z.of_nat (List.length p) < 2 ^ 53).
  { intros p [Hb|Hb]; [rewrite Hb; reflexivity|].
    assert (2147483647 < 2 ^ 53) by reflexivity. lia. }
  destruct (find_shortest_path_answer s a b max_depth)
    as (res & Hres' & [(e & p & v & -> & _)
                      |[[-> _]|(p1 & w1 & -> & _ & _ & Hd & Hb & Hleast)]]);
    rewrite Hres in Hres'; try discriminate.
  injection Hres' as <- <-.
  pose proof (dpath_unit_weights s a p0 _ b Hunit Hd (Hsmall _ Hb)) as Hw0.
  injection Hw0 as ->.
  split; [eexists; split; [reflexivity|]; unfold edges_of; reflexivity|].
  intros p w Hp Hw.
  pose proof (dpath_unit_weights s a p w b Hunit Hp (Hsmall _ Hw)) as ->.
  specialize (Hleast p _ Hp Hw). simpl in Hleast.
  apply Qle_bool_iff in Hleast. rewrite <- Zle_Qle in Hleast.
  unfold edges_of in Hleast. lia.
Qed.

Lemma shortest_path_fewest_edges_witness :
  (exists x, Some (F8 1) = Some (F8 x) /\
             (x == inject_Z (Z.of_nat (List.length [1%N; 2%N]) - 1))%Q) /\
  forall p w, dpath (mk_store [nodeA; nodeB] [edgeAB] []) 1%N p w 2%N ->
    within_depth_bound 2 p -> (List.length [1%N; 2%N] <= List.length p)%nat.
Proof.
  apply (shortest_path_fewest_edges (mk_store [nodeA; nodeB] [edgeAB] []) 1%N 2%N 2
           [1%N; 2%N] (Some (F8 1))).
  - intros e [<-|[]]. reflexivity.
  - lia.
  - vm_compute. reflexivity.
Defined.

(** X11: whatever [find_shortest_path] returns from [a] to [b],
    [get_connected_nodes] from [a] with the same bound returns [b], at a
    depth of at most the number of edges of that path. *)
Theorem shortest_path_within_connected
        (s : store) (a b : uuid) (max_depth : Z)
        (p : list uuid) (w : option float8) :
  edges_reference_nodes s ->
  find_shortest_path s a b max_depth = Some (inr [(p, w)]) ->
  exists rows z,
    get_connected_nodes s a max_depth = Some rows /\
    In (b, z) (map id_depth rows) /\ z <= Z.of_nat (List.length p) - 1.
Proof.
  intros FK Hres.
  destruct (find_shortest_path_answer s a b max_depth)
    as (res & Hres' & [(e & p' & v & -> & _)
                      |[[-> _]|(p1 & w1 & -> & Hex & _ & Hd & Hb & _)]]);
    rewrite Hres in Hres'; try discriminate.
  injection Hres' as <- <-.
  destruct (dpath_reach s a p _ b Hd) as (k & Hlen & Hreach).
  destruct (get_connected_nodes_rows s a max_depth FK Hex)
    as (rows & Hrows & _ & Hmin & Hall).
  assert (Hbound : k = O \/ Z.of_nat k <= max_depth).
  { destruct Hb as [Hb|Hb]; [left; lia | right; lia]. }
  pose proof (Hall k b Hreach Hbound) as Hin.
  apply in_map_iff in Hin. destruct Hin as (r & Hid & Hr).
  destruct (Hmin r Hr) as (k' & Hk' & _ & _ & Hleast).
  rewrite Hid in Hleast. specialize (Hleast k Hreach).
  exists rows, (depth r). split; [exact Hrows|]. split.
  - apply in_id_depth. eauto.
  - lia.
Qed.

Lemma shortest_path_within_connected_witness :
  exists rows z,
    get_connected_nodes abc_store 1%N 3 = Some rows /\
    In (3%N, z) (map id_depth rows) /\ z <= Z.of_nat (List.length [1%N; 2%N; 3%N]) - 1.
Proof.
  apply (shortest_path_within_connected abc_store 1%N 3%N 3 [1%N; 2%N; 3%N]
           (Some (F8 2))).
  - intros e [<-|[<-|[<-|[]]]]; split; reflexivity.
  - vm_compute. reflexivity.
Defined.

Lemma adjacent_is_neighbour (s : store) (u v : uuid) (max_depth : Z) :
  edges_reference_nodes s -> node_exists s u = true ->
  adjacent s u v -> u <> v -> 1 <= max_depth ->
  exists rows, get_connected_nodes s u max_depth = Some rows /\
               In (v, 1) (map id_depth rows).
Proof.
  intros FK Hu Huv Hne Hd.
  destruct (connected_pairs s u max_depth FK Hu) as (rows & Hrows & _ & _ & Hiff).
  exists rows. split; [exact Hrows|]. apply (Hiff v 1%nat).
  split; [apply (reach_S s u O u v); [constructor | exact Huv]|].
  split; [|right; simpl; lia].
  intros [|j] Hj; [|lia]. apply reach_O_inv in Hj. congruence.
Qed.

(** X12: a successful insert of an edge between two different nodes makes
    each of them a depth-1 neighbour of the other for every depth bound of
    at least 1; and for every bound of at least 2 [find_shortest_path] from
    its source to its target returns a row, unless a sum overflows on an
    explored path, in which case it raises the overflow error. *)
Theorem inserted_edge_connects (s s' : store) (e : kg_edge) (max_depth : Z) :
  edges_reference_nodes s -> insert_edge s e = inr s' ->
  source_id e <> target_id e -> 1 <= max_depth ->
  (exists rows, get_connected_nodes s' (source_id e) max_depth = Some rows /\
                In (target_id e, 1) (map id_depth rows)) /\
  (exists rows, get_connected_nodes s' (target_id e) max_depth = Some rows /\
                In (source_id e, 1) (map id_depth rows)) /\
  (exists res,
     find_shortest_path s' (source_id e) (target_id e) (max_depth + 1) = Some res /\
     ((exists p w, res = inr [(p, w)]) \/ res = inl numeric_value_out_of_range) /\
     (sums_succeed s' (source_id e) (max_depth + 1) -> exists p w, res = inr [(p, w)])).
Proof.
  intros FK Hins Hneq Hd.
  pose proof (edges_reference_nodes_after s (InsertEdge e) FK) as FK'.
  unfold after, apply_op in FK'. rewrite Hins in FK'.
  apply insert_edge_inr in Hins. destruct Hins as (Hs' & _ & _ & Hsrc & Htgt).
  assert (Hin : In e (kg_edges s')) by (subst s'; simpl; apply in_or_app; right; now left).
  assert (Hsrc' : node_exists s' (source_id e) = true) by (subst s'; exact Hsrc).
  assert (Htgt' : node_exists s' (target_id e) = true) by (subst s'; exact Htgt).
  assert (Hadj : adjacent s' (source_id e) (target_id e)) by (exists e; auto).
  assert (Hone : forall u v, adjacent s' u v -> u <> v -> node_exists s' u = true ->
            exists rows, get_connected_nodes s' u max_depth = Some rows /\
                         In (v, 1) (map id_depth rows))
    by (intros u v Huv Hne Hu; now apply adjacent_is_neighbour).
  split; [now apply Hone|]. split.
  - apply Hone; [now apply adjacent_sym | congruence | exact Htgt'].
  - assert (Hdirect : dpath s' (source_id e) ([source_id e] ++ [target_id e])
                        (accumulate (inr (Some (F8 0))) (weight e)) (target_id e)).
    { apply (dpath_snoc s' (source_id e) [source_id e] _ (source_id e) e);
        [constructor | exact Hin | reflexivity|].
      simpl. intros [H|[]]. congruence. }
    assert (Hbound : within_depth_bound (max_depth + 1) ([source_id e] ++ [target_id e]))
      by (right; simpl; lia).
    destruct (find_shortest_path_answer s' (source_id e) (target_id e) (max_depth + 1))
      as (res & Hres & [(err & p & v & -> & _ & Hp & Hb)
                       |[[-> [Hmiss|[Hs Hnone]]]|(p0 & w0 & -> & _)]]);
      (eexists; split; [exact Hres|]).
    + pose proof (dpath_error _ _ _ _ _ Hp) as ->. split; [now right|].
      intro Hs. destruct (Hs p _ v Hp Hb) as [x Hx]. discriminate.
    + congruence.
    + exfalso. destruct (Hs _ _ _ Hdirect Hbound) as [x Hx].
      rewrite Hx in Hdirect. exact (Hnone _ _ Hdirect Hbound).
    + split; [left|]; eauto.
Qed.

Lemma inserted_edge_connects_witness :
  exists rows,
    get_connected_nodes
      (mk_store [nodeA; nodeB; nodeC]
                ([edgeAB; edgeBC; edgeAC] ++ [mk_edge 14%N 3%N 2%N "w" None None]) [])
      (source_id (mk_edge 14%N 3%N 2%N "w" None None)) 1 = Some rows /\
    In (target_id (mk_edge 14%N 3%N 2%N "w" None None), 1) (map id_depth rows).
Proof.
  apply (inserted_edge_connects abc_store
           (mk_store [nodeA; nodeB; nodeC]
                     ([edgeAB; edgeBC; edgeAC] ++ [mk_edge 14%N 3%N 2%N "w" None None]) [])
           (mk_edge 14%N 3%N 2%N "w" None None) 1).
  - intros e [<-|[<-|[<-|[]]]]; split; reflexivity.
  - reflexivity.
  - discriminate.
  - lia.
Defined.

(* ----------------------------------------------------------------- *)
(** ** Semantic search: the nearest matches *)

Lemma sorted_app_ordered {A : Type} (R : A -> A -> Prop) (l1 l2 : list A) :
  StronglySorted R (l1 ++ l2) -> forall x y, In x l1 -> In y l2 -> R x y.
Proof.
  induction l1 as [|a l1 IH]; simpl; intros Hs x y Hx Hy; [destruct Hx|].
  inversion Hs as [|? ? Hs' Hall]; subst. destruct Hx as [<-|Hx].
  - rewrite Forall_forall in Hall. apply Hall. apply in_or_app. now right.
  - now apply IH.
Qed.

(** Cutting the ranked matches at [k]: what is kept and what is dropped. *)
Lemma ranked_cut {Row Out : Type} (cosine_distance : vector -> vector -> float8)
      (q : vector) (t : float8) (embedding_of : Row -> option vector)
      (visited : Row -> bool)
      (project : Row -> Out) (sim : Out -> option float8) (table : list Row) (k : nat) :
  (forall r, sim (project r) = similarity_to cosine_distance q (embedding_of r)) ->
  let met := filter (fun r => is_match cosine_distance q t (embedding_of r))
                    (filter visited table) in
  let ranked := map project
                    (ranked_matches cosine_distance q t embedding_of visited table) in
  Permutation (firstn k ranked ++ skipn k ranked) (map project met) /\
  (forall x y, In x (firstn k ranked) -> In y (skipn k ranked) ->
               similarity_ge (sim x) (sim y)) /\
  List.length (firstn k ranked) = Nat.min k (List.length met).
Proof.
  intros Hsim met ranked. split; [|split].
  - rewrite firstn_skipn. unfold ranked, ranked_matches.
    apply Permutation_map, order_by_perm.
  - apply sorted_app_ordered. rewrite firstn_skipn. unfold ranked.
    apply StronglySorted_map.
    eapply StronglySorted_strengthen with (P := fun _ => True);
      [| apply Forall_forall; auto | apply ranked_matches_sorted].
    intros a b _ _ H. rewrite !Hsim. exact H.
  - rewrite length_firstn. f_equal. unfold ranked, ranked_matches.
    rewrite length_map. apply Permutation_length, order_by_perm.
Qed.

Lemma filter_every_row {A : Type} (key : A -> uuid) (l : list A) :
  filter (fun x => every_row (key x)) l = l.
Proof.
  induction l as [|x l IH]; simpl; [reflexivity | now rewrite IH].
Qed.

(** X13: the rows a semantic search returns are the nearest of the matches
    that its scan met: the met entities that pass the filter split into the
    rows returned and the rows cut off by the limit, none of the latter
    ranks before any of the former (a NaN similarity ranks last), and the
    number returned is the smaller of the limit and the number of met
    matches.  A sequential scan meets every stored row; a scan of the
    approximate index may not. *)
Theorem semantic_search_nearest
        (cosine_distance : vector -> vector -> float8)
        (q : vector) (t : float8) (n : Z) (visited : uuid -> bool) (s : store) :
  (forall rows, search_nodes_semantic cosine_distance q t n visited s = Some rows ->
     exists cut,
       Permutation (map nm_id (rows ++ cut))
         (map n_id (filter (fun x => is_match cosine_distance q t (n_embedding x))
                           (filter (fun x => visited (n_id x)) (kg_nodes s)))) /\
       (forall r r', In r rows -> In r' cut ->
          similarity_ge (nm_similarity r) (nm_similarity r')) /\
       List.length rows
       = Nat.min (Z.to_nat n)
           (List.length (filter (fun x => is_match cosine_distance q t (n_embedding x))
                                (filter (fun x => visited (n_id x)) (kg_nodes s))))) /\
  (forall rows, search_chunks_semantic cosine_distance q t n visited s = Some rows ->
     exists cut,
       Permutation (map cm_id (rows ++ cut))
         (map c_id (filter (fun x => is_match cosine_distance q t (c_embedding x))
                           (filter (fun x => visited (c_id x)) (document_chunks s)))) /\
       (forall r r', In r rows -> In r' cut ->
          similarity_ge (cm_similarity r) (cm_similarity r')) /\
       List.length rows
       = Nat.min (Z.to_nat n)
           (List.length (filter (fun x => is_match cosine_distance q t (c_embedding x))
                                (filter (fun x => visited (c_id x))
                                        (document_chunks s))))) /\
  filter (fun x => every_row (n_id x)) (kg_nodes s) = kg_nodes s /\
  filter (fun x => every_row (c_id x)) (document_chunks s) = document_chunks s.
Proof.
  split; [|split; [|split; apply filter_every_row]]; intros rows Hrows.
  - unfold search_nodes_semantic in Hrows. apply limit_Some in Hrows.
    destruct Hrows as [_ ->].
    destruct (ranked_cut cosine_distance q t n_embedding (fun x => visited (n_id x))
                (fun x => mk_node_match (n_id x) (n_label x) (n_type x) (n_properties x)
                            (similarity_to cosine_distance q (n_embedding x)))
                nm_similarity (kg_nodes s) (Z.to_nat n))
      as (Hperm & Hord & Hlen); [reflexivity|].
    eexists. split; [|split; [exact Hord | exact Hlen]].
    apply (Permutation_map nm_id) in Hperm. now rewrite (map_map _ nm_id) in Hperm.
  - unfold search_chunks_semantic in Hrows. apply limit_Some in Hrows.
    destruct Hrows as [_ ->].
    destruct (ranked_cut cosine_distance q t c_embedding (fun x => visited (c_id x))
                (fun x => mk_chunk_match (c_id x) (document_id x) (c_content x)
                            (c_metadata x)
                            (similarity_to cosine_distance q (c_embedding x)))
                cm_similarity (document_chunks s) (Z.to_nat n))
      as (Hperm & Hord & Hlen); [reflexivity|].
    eexists. split; [|split; [exact Hord | exact Hlen]].
    apply (Permutation_map cm_id) in Hperm. now rewrite (map_map _ cm_id) in Hperm.
Qed.

Lemma semantic_search_nearest_witness :
  exists rows cut,
    search_nodes_semantic unit_cosine_distance unit_e1 (F8 (1 # 4)) 2 every_row
      (candidates unit_e1 unit_e2 unit_e3) = Some rows /\
    Permutation (map nm_id (rows ++ cut)) [3%N; 2%N; 1%N] /\
    List.length rows = 2%nat.
Proof.
  destruct (semantic_search_nearest unit_cosine_distance unit_e1 (F8 (1 # 4)) 2 every_row
              (candidates unit_e1 unit_e2 unit_e3)) as (Hnodes & _).
  eexists.
  destruct (Hnodes _ eq_refl) as (cut & Hperm & _ & Hlen).
  exists cut. split; [reflexivity|]. split; [exact Hperm | exact Hlen].
Defined.

(* ----------------------------------------------------------------- *)
(** ** The tools and the store *)

Lemma log_line_db (w : world) (line : string) : db (log_line w line) = db w.
Proof. reflexivity. Qed.

Lemma execute_store_effect (ev : env) (c : tool_call) (w : world) :
  match fst (execute ev c w) with
  | Return (NodeRow row) =>
      tool_of c = createNode /\
      insert_node (db w) row = inr (db (snd (execute ev c w)))
  | Return (EdgeRow row) =>
      tool_of c = createEdge /\
      insert_edge (db w) row = inr (db (snd (execute ev c w)))
  | _ => db (snd (execute ev c w)) = db w
  end.
Proof.
  destruct c; simpl.
  - unfold createSafeExecute.
    pose proof (searchDocuments_fn_db query threshold limit ev w) as Hdb.
    unfold searchDocuments_fn in *.
    destruct (generateEmbedding ev query w) as [v w1].
    destruct (db_up ev 0%nat); simpl in *; [|exact Hdb].
    destruct (search_chunks_semantic _ _ _ _ _ _); simpl in *; exact Hdb.
  - unfold traverseGraph_execute.
    destruct (if db_up ev 0%nat then first_node_labelled (db w) nodeLabel else None);
      [|reflexivity].
    destruct (db_up ev 1%nat); [|reflexivity].
    destruct (get_connected_nodes _ _ _); reflexivity.
  - unfold createNode_execute. destruct (db_up ev 0%nat); [|reflexivity].
    destruct (varchar 255 _) as [e|label']; [reflexivity|].
    destruct (optional_varchar 100 _) as [e|type']; [reflexivity|].
    destruct (insert_node _ _) as [e|s'] eqn:Hins; simpl; auto.
  - unfold createEdge_execute.
    destruct (if db_up ev 0%nat then first_node_labelled (db w) sourceLabel else None);
      [|reflexivity].
    destruct (if db_up ev 1%nat then first_node_labelled (db w) targetLabel else None);
      [|reflexivity].
    destruct (db_up ev 2%nat); [|reflexivity].
    destruct (varchar 255 _) as [e|relationship']; [reflexivity|].
    destruct (insert_edge _ _) as [e|s'] eqn:Hins; simpl; auto.
  - unfold updateGraph_execute. destruct operation; [reflexivity|].
    destruct (if db_up ev 0%nat then _ else _); reflexivity.
  - unfold searchNodesSemanticaly_execute.
    pose proof (generateEmbedding_db ev query w) as Hdb.
    destruct (generateEmbedding ev query w) as [v w1]. simpl in Hdb.
    destruct (db_up ev 0%nat); simpl; [|exact Hdb].
    destruct (search_nodes_semantic _ _ _ _ _ _); simpl; exact Hdb.
Qed.

(** X14: a tool changes the tables only when it returns the row it
    inserted: a [createNode] that returns a node row has inserted exactly
    that row, a [createEdge] that returns an edge row has inserted exactly
    that row, and in every other case (a search, a traversal, a refresh, a
    thrown error, an error value) the tables are as before. *)
Theorem tools_change_store_only_by_insert (ev : env) (c : tool_call) (w : world) :
  match fst (execute ev c w) with
  | Return (NodeRow row) =>
      tool_of c = createNode /\
      insert_node (db w) row = inr (db (snd (execute ev c w)))
  | Return (EdgeRow row) =>
      tool_of c = createEdge /\
      insert_edge (db w) row = inr (db (snd (execute ev c w)))
  | _ => db (snd (execute ev c w)) = db w
  end.
Proof. exact (execute_store_effect ev c w). Qed.

Lemma store_constraints_after (s : store) (op : store_op) :
  store_constraints s -> store_constraints (after s op).
Proof.
  intros (Ht & Hf & Hn & He). repeat split.
  - now apply unique_triples_after.
  - now apply edges_reference_nodes_after.
  - now apply edges_reference_nodes_after.
  - now apply node_ids_unique_after.
  - now apply edge_ids_unique_after.
Qed.

Lemma execute_constraints (ev : env) (c : tool_call) (w : world) :
  store_constraints (db w) -> store_constraints (db (snd (execute ev c w))).
Proof.
  intro Hc. pose proof (execute_store_effect ev c w) as Heff.
  destruct (fst (execute ev c w)) as [[| | | |row|row| | |]|err];
    try (rewrite Heff; exact Hc).
  - destruct Heff as [_ Hins].
    pose proof (store_constraints_after (db w) (InsertNode row) Hc) as H.
    unfold after, apply_op in H. now rewrite Hins in H.
  - destruct Heff as [_ Hins].
    pose proof (store_constraints_after (db w) (InsertEdge row) Hc) as H.
    unfold after, apply_op in H. now rewrite Hins in H.
Qed.

Lemma run_calls_constraints (offered : list tool_name)
      (calls : list (env * tool_call)) (w : world) :
  store_constraints (db w) -> store_constraints (db (snd (run_calls offered calls w))).
Proof.
  revert w. induction calls as [|[ev c] rest IH]; intros w Hc; [exact Hc|].
  simpl. unfold invoke.
  destruct (existsb (tool_name_eqb (tool_of c)) offered).
  - pose proof (execute_constraints ev c w Hc) as H1.
    destruct (execute ev c w) as [o w1]. simpl in H1.
    specialize (IH w1 H1). destruct (run_calls offered rest w1) as [log w2]. exact IH.
  - specialize (IH w Hc). destruct (run_calls offered rest w) as [log w2]. exact IH.
Qed.

(** X15: no request can break the constraints of the graph tables: if the
    triples are unique, the edges reference stored nodes and the ids are
    unique before a request, they are so after it, whatever the mode, the
    tool calls and the failures along the way. *)
Theorem requests_keep_constraints
        (body : option json) (steps : list (list (env * tool_call))) (w : world) :
  store_constraints (db w) ->
  store_constraints (db (snd (handle_request body steps w))).
Proof.
  intro Hc. unfold handle_request.
  destruct (POST body) as [status err|m msgs offered k]; simpl.
  - now destruct (status =? 500).
  - unfold streamText.
    pose proof (run_calls_constraints offered (List.concat (firstn k steps)) w Hc) as H.
    now destruct (run_calls offered (List.concat (firstn k steps)) w).
Qed.

Lemma abc_store_constraints : store_constraints abc_store.
Proof.
  destruct (reachable_store_invariants _ abc_store_reachable) as [Ht Hf].
  destruct (reachable_store_keys _ abc_store_reachable) as [Hn He].
  repeat split; try assumption; now apply Hf.
Qed.

Lemma requests_keep_constraints_witness :
  store_constraints
    (db (snd (handle_request
                (Some (JObject [("messages", JArray [user_message "link B to A"]);
                                ("mode", JString "graph")]%string))
                [[(example_env (fun _ => None) draws 50%N (fun _ => true),
                   CreateEdge "B" "A" "x")]]
                (mk_world abc_store [])))).
Proof.
  apply requests_keep_constraints. exact abc_store_constraints.
Defined.

(* ----------------------------------------------------------------- *)
(** ** createNode, createEdge and traverseGraph together *)

Lemma first_node_labelled_Some (s : store) (l : string) (n : kg_node) :
  first_node_labelled s l = Some n ->
  In n (kg_nodes s) /\ n_label n = l /\ node_exists s (n_id n) = true.
Proof.
  unfold first_node_labelled. intro H. apply find_some in H. destruct H as [Hin Hl].
  apply String.eqb_eq in Hl. split; [exact Hin|]. split; [exact Hl|].
  apply node_exists_In. eauto.
Qed.

Lemma lookup_when_up (up : bool) (s : store) (l : string) (n : kg_node) :
  (if up then first_node_labelled s l else None) = Some n ->
  up = true /\ first_node_labelled s l = Some n.
Proof. destruct up; [auto | discriminate]. Qed.

Lemma find_snoc {A : Type} (f : A -> bool) (l : list A) (x : A) :
  find f (l ++ [x])
  = match find f l with
    | Some y => Some y
    | None => if f x then Some x else None
    end.
Proof.
  induction l as [|a l IH]; simpl; [reflexivity|].
  destruct (f a); [reflexivity | exact IH].
Qed.

(** What a [createEdge] that returned a row has done. *)
Lemma createEdge_returned (ev : env) (a b r : string) (w w' : world) (e : kg_edge) :
  execute ev (CreateEdge a b r) w = (Return (EdgeRow e), w') ->
  exists src tgt r',
    first_node_labelled (db w) a = Some src /\
    first_node_labelled (db w) b = Some tgt /\
    varchar 255 r = inr r' /\
    e = mk_edge (uuid_generate_v4 ev) (n_id src) (n_id tgt) r' (Some "{}"%string)
                (Some (F8 1)) /\
    insert_edge (db w) e = inr (db w') /\ console w' = console w.
Proof.
  simpl. unfold createEdge_execute.
  destruct (if db_up ev 0%nat then first_node_labelled (db w) a else None)
    as [src|] eqn:Hsrc; [|discriminate].
  destruct (if db_up ev 1%nat then first_node_labelled (db w) b else None)
    as [tgt|] eqn:Htgt; [|discriminate].
  destruct (db_up ev 2%nat); [|discriminate].
  destruct (varchar 255 r) as [err|r'] eqn:Hr; [discriminate|].
  destruct (insert_edge _ _) as [err|s'] eqn:Hins; [discriminate|].
  intros [= <- <-]. apply lookup_when_up in Hsrc, Htgt.
  exists src, tgt, r'. simpl. tauto.
Qed.

(** X16: [createEdge] looks both labels up before it inserts, so whatever
    error it throws is not a foreign-key violation. *)
Theorem createEdge_throws_no_reference_error
        (ev : env) (a b r : string) (w : world) (err : sql_error) :
  fst (execute ev (CreateEdge a b r) w) = Throw err ->
  forall c, err <> foreign_key_violation c.
Proof.
  simpl. unfold createEdge_execute.
  destruct (if db_up ev 0%nat then first_node_labelled (db w) a else None)
    as [src|] eqn:Hsrc; [|discriminate].
  destruct (if db_up ev 1%nat then first_node_labelled (db w) b else None)
    as [tgt|] eqn:Htgt; [|discriminate].
  apply lookup_when_up in Hsrc, Htgt. destruct Hsrc as [_ Hsrc], Htgt as [_ Htgt].
  apply first_node_labelled_Some in Hsrc, Htgt.
  destruct Hsrc as (_ & _ & Hs), Htgt as (_ & _ & Ht).
  destruct (db_up ev 2%nat); [|simpl; intros [= <-]; discriminate].
  unfold varchar. destruct (split_chars 255 r) as [kept excess].
  destruct (all_spaces excess); [|simpl; intros [= <-]; discriminate].
  unfold insert_edge. simpl.
  destruct (existsb _ (kg_edges (db w))); [simpl; intros [= <-]; discriminate|].
  destruct (existsb _ (kg_edges (db w))); [simpl; intros [= <-]; discriminate|].
  rewrite Hs, Ht. simpl. discriminate.
Qed.

Lemma createEdge_throws_no_reference_error_witness :
  fst (execute (example_env (fun _ => None) draws 99%N (fun _ => true))
               (CreateEdge "A" "B" "x") (mk_world abc_store []))
  = Throw (unique_violation "kg_edges_source_id_target_id_relationship_key") /\
  unique_violation "kg_edges_source_id_target_id_relationship_key"
  <> foreign_key_violation "kg_edges_source_id_fkey".
Proof.
  split; [reflexivity|].
  apply (createEdge_throws_no_reference_error
           (example_env (fun _ => None) draws 99%N (fun _ => true))
           "A" "B" "x" (mk_world abc_store [])).
  reflexivity.
Defined.

(** X17: [createEdge] is not repeatable: after a call that returned the
    inserted edge, the same call against a reachable store throws a unique
    violation and leaves the tables as they are. *)
Theorem createEdge_twice (ev ev' : env) (a b r : string) (w w' : world) (e : kg_edge) :
  execute ev (CreateEdge a b r) w = (Return (EdgeRow e), w') ->
  (forall k, db_up ev' k = true) ->
  exists c, execute ev' (CreateEdge a b r) w' = (Throw (unique_violation c), w').
Proof.
  intros Hfirst Hup.
  destruct (createEdge_returned _ _ _ _ _ _ _ Hfirst)
    as (src & tgt & r' & Hsrc & Htgt & Hr & He & Hins & _).
  apply insert_edge_inr in Hins. destruct Hins as (Hdb & _).
  simpl. unfold createEdge_execute. rewrite !Hup, Hr.
  assert (Hsrc' : first_node_labelled (db w') a = Some src)
    by (rewrite Hdb; exact Hsrc).
  assert (Htgt' : first_node_labelled (db w') b = Some tgt)
    by (rewrite Hdb; exact Htgt).
  rewrite Hsrc', Htgt'. unfold insert_edge.
  destruct (existsb (fun x => N.eqb (e_id x) _) (kg_edges (db w'))); [eauto|].
  assert (Hdup : existsb (same_triple (mk_edge (uuid_generate_v4 ev') (n_id src) (n_id tgt) r'
                                               (Some "{}"%string) (Some (F8 1))))
                         (kg_edges (db w')) = true).
  { apply existsb_exists. exists e. split.
    - rewrite Hdb. simpl. apply in_or_app. right. now left.
    - apply same_triple_spec. rewrite He. reflexivity. }
  rewrite Hdup. eauto.
Qed.

Lemma createEdge_twice_witness :
  exists c,
    execute (example_env (fun _ => None) draws 51%N (fun _ => true))
            (CreateEdge "B" "A" "x")
            (mk_world (mk_store [nodeA; nodeB; nodeC]
                         ([edgeAB; edgeBC; edgeAC]
                            ++ [mk_edge 50%N 2%N 1%N "x" (Some "{}"%string) (Some (F8 1))]) [])
                      [])
    = (Throw (unique_violation c),
       mk_world (mk_store [nodeA; nodeB; nodeC]
                   ([edgeAB; edgeBC; edgeAC]
                      ++ [mk_edge 50%N 2%N 1%N "x" (Some "{}"%string) (Some (F8 1))]) [])
                []).
Proof.
  apply (createEdge_twice
           (example_env (fun _ => None) draws 50%N (fun _ => true))
           (example_env (fun _ => None) draws 51%N (fun _ => true))
           "B" "A" "x" (mk_world abc_store []) _
           (mk_edge 50%N 2%N 1%N "x" (Some "{}"%string) (Some (F8 1)))).
  - reflexivity.
  - reflexivity.
Defined.

Lemma node_exists_reordered (s t : store) (x : uuid) :
  nodes_reordered s t -> node_exists t x = node_exists s x.
Proof.
  intros (Hperm & _).
  destruct (node_exists s x) eqn:Hs.
  - apply node_exists_In in Hs. destruct Hs as (n & Hin & Hn).
    apply node_exists_In. exists n. split; [|exact Hn].
    now apply (Permutation_in _ Hperm).
  - destruct (node_exists t x) eqn:Ht; [|reflexivity].
    apply node_exists_In in Ht. destruct Ht as (n & Hin & Hn).
    assert (Hs' : node_exists s x = true).
    { apply node_exists_In. exists n. split; [|exact Hn].
      now apply (Permutation_in _ (Permutation_sym Hperm)). }
    congruence.
Qed.







(* ----------------------------------------------------------------- *)
(** ** The search tools *)

(** X20: [searchDocuments] replaces a threshold of 0 by 0.5 and a limit of
    0 by 10 before it queries ([threshold || 0.5], [limit || 10]), whereas
    [searchNodesSemanticaly] passes them on: with a limit of 0 it returns
    the empty list. *)
Theorem search_tools_falsy_arguments
        (ev : env) (q : js_string) (t : Q) (l : Z) (w : world) :
  execute ev (SearchDocuments q 0%Q l) w = execute ev (SearchDocuments q (1 # 2)%Q l) w /\
  execute ev (SearchDocuments q t 0) w = execute ev (SearchDocuments q t 10) w /\
  fst (execute ev (SearchNodesSemanticaly q t 0) w)
  = if db_up ev 0%nat then Return (NodeMatches []) else Throw connection_error.
Proof.
  split; [reflexivity|]. split; [reflexivity|].
  simpl. unfold searchNodesSemanticaly_execute.
  destruct (generateEmbedding ev q w) as [v w1].
  now destruct (db_up ev 0%nat).
Qed.

(** X21: [searchDocuments] always resolves to a value.  Either it is a
    list of at most [limit || 10] results, each titled "Unknown Document"
    (the query returns no title) with an excerpt of at most 203 code units
    made of the first 200 code units of the chunk and "...", or it is the
    error value that names the tool, whose text ends in "Unknown error"
    whatever went wrong. *)
Theorem searchDocuments_always_answers
        (ev : env) (q : js_string) (t : Q) (l : Z) (w : world) :
  (exists results,
     fst (execute ev (SearchDocuments q t l) w) = Return (DocumentResults results) /\
     Z.of_nat (List.length results) <= (if l =? 0 then 10 else l) /\
     forall r, In r results ->
       document_title r = "Unknown Document"%string /\
       excerpt r = firstn 200 (cm_content (dr_chunk r)) ++ js "..." /\
       (List.length (excerpt r) <= 203)%nat /\
       dr_similarity r = cm_similarity (dr_chunk r)) \/
  fst (execute ev (SearchDocuments q t l) w)
  = Return (SafeError "Failed to execute searchDocuments: Unknown error").
Proof.
  simpl. unfold createSafeExecute, searchDocuments_fn.
  destruct (generateEmbedding ev q w) as [v w1].
  destruct (db_up ev 0%nat); [|right; reflexivity].
  destruct (search_chunks_semantic _ _ _ _ _ _) as [data|] eqn:Hdata;
    [|right; reflexivity].
  left. eexists. split; [reflexivity|].
  unfold search_chunks_semantic in Hdata. apply limit_Some in Hdata.
  destruct Hdata as [Hl Hdata]. split.
  - rewrite length_map, Hdata, length_firstn. lia.
  - intros r Hr. apply in_map_iff in Hr. destruct Hr as (chunk & <- & _).
    cbn [document_title excerpt dr_chunk dr_similarity].
    repeat split.
    rewrite length_app, length_firstn.
    change (List.length (js "...")) with 3%nat. lia.
Qed.

(** X22: [generateEmbedding] reads only the first 8000 code units of its
    text: whatever follows them changes neither the vector returned nor
    what is logged. *)
Theorem generateEmbedding_reads_prefix
        (ev : env) (text more : js_string) (w : world) :
  (8 * 1000 <= List.length text)%nat ->
  generateEmbedding ev (text ++ more) w = generateEmbedding ev text w.
Proof.
  intro Hlen. unfold generateEmbedding. rewrite firstn_app.
  replace (8 * 1000 - List.length text)%nat with O by lia.
  now rewrite firstn_O, app_nil_r.
Qed.

Lemma generateEmbedding_reads_prefix_witness :
  generateEmbedding (example_env (fun _ => Some unit_e1) draws 0%N (fun _ => true))
                    (repeat 97%N (8 * 1000) ++ js "tail")
                    (mk_world abc_store [])
  = generateEmbedding (example_env (fun _ => Some unit_e1) draws 0%N (fun _ => true))
                      (repeat 97%N (8 * 1000))
                      (mk_world abc_store []).
Proof.
  apply generateEmbedding_reads_prefix. rewrite repeat_length. apply le_n.
Defined.

(* ----------------------------------------------------------------- *)
(** ** POST: what is accepted *)

(** X23: [POST] accepts exactly the bodies whose [messages] is an array
    and whose [mode] is one of the three names: such a request is handed
    to [streamText] with its messages, the tools of its mode and five
    steps.  Of the two checks the one on [messages] comes first: a body
    without a message array is answered "Invalid messages format" whatever
    its mode, and a body with one but without a valid mode is answered
    "Invalid mode. Must be vector, graph, or hybrid". *)
Theorem POST_decides (b : json) :
  b <> JNull ->
  (forall msgs m,
     get_property b "messages" = Some (JArray msgs) ->
     get_property b "mode" = Some (JString m) ->
     In m ["vector"; "graph"; "hybrid"]%string ->
     POST (Some b) = StreamText m msgs (tools m) 5) /\
  ((forall msgs, get_property b "messages" <> Some (JArray msgs)) ->
   POST (Some b) = Respond 400 "Invalid messages format") /\
  (forall msgs,
     get_property b "messages" = Some (JArray msgs) ->
     (forall m, get_property b "mode" = Some (JString m) ->
                ~ In m ["vector"; "graph"; "hybrid"]%string) ->
     POST (Some b) = Respond 400 "Invalid mode. Must be vector, graph, or hybrid").
Proof.
  intro Hnull.
  assert (Hpost : POST (Some b)
          = let messages := get_property b "messages" in
            let mode := get_property b "mode" in
            if negb (truthy messages) || negb (isArray messages)
            then Respond 400 "Invalid messages format"
            else if negb (truthy mode)
                    || negb (includes ["vector"; "graph"; "hybrid"]%string mode)
            then Respond 400 "Invalid mode. Must be vector, graph, or hybrid"
            else match messages, mode with
                 | Some (JArray msgs), Some (JString m) => StreamText m msgs (tools m) 5
                 | _, _ => internal_error
                 end)
    by (destruct b; [contradiction | reflexivity..]).
  rewrite Hpost. cbv zeta. clear Hpost.
  set (ms := get_property b "messages"). set (md := get_property b "mode").
  clearbody ms md. split; [|split].
  - intros msgs m -> -> Hin. simpl in Hin.
    destruct Hin as [<-|[<-|[<-|[]]]]; reflexivity.
  - intro Hno. destruct ms as [[| | | |items|]|]; simpl; rewrite ?orb_true_r;
      try reflexivity.
    exfalso. now apply (Hno items).
  - intros msgs -> Hbad. simpl.
    destruct md as [[| | |m| |]|]; simpl; rewrite ?orb_true_r; try reflexivity.
    destruct (negb (negb (m =? "")%string) || _) eqn:Hc; [reflexivity|exfalso].
    apply orb_false_elim in Hc. destruct Hc as [_ Hinc].
    apply negb_false_iff in Hinc.
    rewrite !orb_true_iff, !String.eqb_eq in Hinc.
    apply (Hbad m eq_refl). simpl. intuition (auto; discriminate).
Qed.

Lemma POST_decides_witness :
  POST vector_request
  = StreamText "vector" [user_message "Please create a node named Laika"]
               (tools "vector") 5.
Proof.
  destruct (POST_decides
              (JObject [("messages", JArray [user_message "Please create a node named Laika"]);
                        ("mode", JString "vector")]%string)) as [Hacc _].
  - discriminate.
  - apply Hacc; [reflexivity | reflexivity | simpl; tauto].
Defined.

(* ----------------------------------------------------------------- *)
(** ** The graph snapshots: GET /api/graph and updateGraph *)

Lemma select_all_whole {A : Type} (max_rows : option nat) (table : list A) :
  (forall k, max_rows = Some k -> (List.length table <= k)%nat) ->
  select_all max_rows table = table.
Proof.
  intro Hcap. destruct max_rows as [k|]; [|reflexivity].
  simpl. apply firstn_all2. now apply Hcap.
Qed.

Lemma select_all_incl {A : Type} (max_rows : option nat) (table : list A) (x : A) :
  In x (select_all max_rows table) -> In x table.
Proof. destruct max_rows; simpl; [apply firstn_In | auto]. Qed.

(** X24: [GET /api/graph] never changes the store and never answers with
    half a graph: it answers 200, or 500 with no nodes and no edges.  On a
    store whose edges reference stored nodes, when the node table is
    delivered whole, a 200 answer lists the nodes in table order and every
    edge it lists starts and ends at a listed node. *)
Theorem graph_snapshot_closed (max_rows : option nat) (ev : env) (w : world) :
  db (snd (GET max_rows ev w)) = db w /\
  (gj_status (fst (GET max_rows ev w)) = 200 \/
   (gj_status (fst (GET max_rows ev w)) = 500 /\
    gj_nodes (fst (GET max_rows ev w)) = [] /\
    gj_edges (fst (GET max_rows ev w)) = [])) /\
  (gj_status (fst (GET max_rows ev w)) = 200 ->
   edges_reference_nodes (db w) ->
   (forall k, max_rows = Some k -> (List.length (kg_nodes (db w)) <= k)%nat) ->
   map gn_id (gj_nodes (fst (GET max_rows ev w))) = map n_id (kg_nodes (db w)) /\
   forall e, In e (gj_edges (fst (GET max_rows ev w))) ->
     In (ge_source e) (map gn_id (gj_nodes (fst (GET max_rows ev w)))) /\
     In (ge_target e) (map gn_id (gj_nodes (fst (GET max_rows ev w))))).
Proof.
  unfold GET. destruct (db_up ev 0%nat && db_up ev 1%nat); simpl.
  - split; [reflexivity|]. split; [now left|]. intros _ FK Hcap.
    rewrite (select_all_whole max_rows (kg_nodes (db w)) Hcap), map_map. simpl.
    split; [reflexivity|].
    intros e He. apply in_map_iff in He. destruct He as (x & <- & Hx).
    apply select_all_incl in Hx. simpl.
    destruct (FK x Hx) as [Hs Ht]. split; now apply node_exists_ids.
  - split; [reflexivity|]. split; [right; auto | discriminate].
Qed.

Lemma graph_snapshot_closed_witness :
  map gn_id (gj_nodes (fst (GET None (example_env (fun _ => None) draws 0%N (fun _ => true))
                                (mk_world abc_store []))))
  = [1%N; 2%N; 3%N].
Proof.
  destruct (graph_snapshot_closed None
              (example_env (fun _ => None) draws 0%N (fun _ => true))
              (mk_world abc_store [])) as (_ & _ & Hok).
  destruct Hok as [Hnodes _].
  - reflexivity.
  - intros e [<-|[<-|[<-|[]]]]; split; reflexivity.
  - discriminate.
  - exact Hnodes.
Defined.

(** X25: a refresh of [updateGraph] without a node id, when the store
    answers, changes nothing and lists the first 50 nodes of the table; the
    edges it lists are exactly the stored edges that leave a listed node.
    (An edge may end at a node beyond the first 50, which is not
    listed.) *)
Theorem updateGraph_refresh_lists (ev : env) (w : world) :
  db_up ev 0%nat = true ->
  exists nodes edges,
    execute ev (UpdateGraph op_refresh None) w = (Return (GraphRefresh nodes edges), w) /\
    (List.length nodes <= 50)%nat /\
    map vn_id nodes = firstn 50 (map n_id (kg_nodes (db w))) /\
    (forall e, In e edges <->
       exists x, In x (kg_edges (db w)) /\ In (source_id x) (map vn_id nodes) /\
                 e = mk_vis_edge (e_id x) (source_id x) (target_id x) (relationship x)).
Proof.
  intro Hup. simpl. unfold updateGraph_execute. rewrite Hup.
  do 2 eexists. split; [reflexivity|].
  unfold nodes_with_source_edges.
  assert (Hids : map vn_id
                   (map (fun row : kg_node * list kg_edge =>
                           mk_vis_node (n_id (fst row)) (n_label (fst row))
                             match n_type (fst row) with
                             | Some t => if (t =? "")%string then "entity"%string else t
                             | None => "entity"%string
                             end
                             (description_of ev (n_properties (fst row))))
                        (map (fun node =>
                                (node, filter (fun edge => N.eqb (source_id edge) (n_id node))
                                              (kg_edges (db w))))
                             (firstn 50 (kg_nodes (db w)))))
                 = firstn 50 (map n_id (kg_nodes (db w)))).
  { rewrite !map_map, firstn_map. apply map_ext. reflexivity. }
  split; [|split; [exact Hids|]].
  - rewrite !length_map. apply firstn_le_length.
  - intro e. rewrite Hids, in_flat_map. split.
    + intros (row & Hrow & He). apply in_map_iff in Hrow.
      destruct Hrow as (node & <- & Hnode). simpl in He.
      apply in_map_iff in He. destruct He as (x & <- & Hx).
      apply filter_In in Hx. destruct Hx as [Hx Hsrc]. apply N.eqb_eq in Hsrc.
      exists x. split; [exact Hx|]. split; [|reflexivity].
      rewrite Hsrc, firstn_map. now apply in_map.
    + intros (x & Hx & Hsrc & ->).
      rewrite firstn_map in Hsrc. apply in_map_iff in Hsrc.
      destruct Hsrc as (node & Hid & Hnode).
      exists (node, filter (fun edge => N.eqb (source_id edge) (n_id node))
                           (kg_edges (db w))).
      split; [apply in_map_iff; eauto|]. simpl.
      apply in_map_iff. exists x. split; [reflexivity|].
      apply filter_In. split; [exact Hx | now apply N.eqb_eq].
Qed.

Lemma updateGraph_refresh_lists_witness :
  exists nodes edges,
    execute (example_env (fun _ => None) draws 0%N (fun _ => true))
            (UpdateGraph op_refresh None) (mk_world abc_store [])
    = (Return (GraphRefresh nodes edges), mk_world abc_store []) /\
    (List.length nodes <= 50)%nat.
Proof.
  destruct (updateGraph_refresh_lists
              (example_env (fun _ => None) draws 0%N (fun _ => true))
              (mk_world abc_store [])) as (nodes & edges & Hrun & Hlen & _).
  - reflexivity.
  - exists nodes, edges. split; [exact Hrun | exact Hlen].
Defined.

(* ----------------------------------------------------------------- *)
(** ** Chunking a document *)

Lemma split_paragraphs_from_nonempty (cur s : js_string) :
  split_paragraphs_from cur s <> [].
Proof.
  revert cur. induction s as [|c rest IH]; intro cur; simpl; [discriminate|].
  destruct rest as [|d rest']; [discriminate|].
  destruct (N.eqb c 10 && N.eqb d 10); [discriminate | apply IH].
Qed.

Lemma join_paragraphs_cons (p : js_string) (pieces : list js_string) :
  pieces <> [] ->
  join_paragraphs (p :: pieces) = p ++ [10%N; 10%N] ++ join_paragraphs pieces.
Proof. destruct pieces; [contradiction | reflexivity]. Qed.

Lemma join_split_from (n : nat) :
  forall s cur, (List.length s <= n)%nat ->
    join_paragraphs (split_paragraphs_from cur s) = rev cur ++ s.
Proof.
  induction n as [|n IH]; intros s cur Hlen.
  - destruct s; [simpl; now rewrite app_nil_r | simpl in Hlen; lia].
  - destruct s as [|c rest]; [simpl; now rewrite app_nil_r|].
    destruct rest as [|d rest'].
    + simpl. reflexivity.
    + change (split_paragraphs_from cur (c :: d :: rest'))
        with (if N.eqb c 10 && N.eqb d 10
              then rev cur :: split_paragraphs_from [] rest'
              else split_paragraphs_from (c :: cur) (d :: rest')).
      destruct (N.eqb c 10 && N.eqb d 10) eqn:Hsep.
      * apply andb_prop in Hsep. destruct Hsep as [Hc Hd'].
        apply N.eqb_eq in Hc, Hd'. subst c d.
        rewrite join_paragraphs_cons by apply split_paragraphs_from_nonempty.
        rewrite IH by (simpl in Hlen; lia). reflexivity.
      * rewrite IH by (simpl in Hlen; simpl; lia). simpl. now rewrite <- app_assoc.
Qed.

Lemma trim_start_length (s : js_string) :
  (List.length (trim_start s) <= List.length s)%nat.
Proof.
  induction s as [|c rest IH]; simpl; [lia|].
  destruct (is_white_space c); simpl; lia.
Qed.

Lemma trim_length (s : js_string) : (List.length (trim s) <= List.length s)%nat.
Proof.
  unfold trim. rewrite length_rev.
  pose proof (trim_start_length (rev (trim_start s))).
  pose proof (trim_start_length s). rewrite length_rev in *. lia.
Qed.

Lemma combine_projections {A B : Type} (xs : list A) (ys : list B) :
  List.length xs = List.length ys ->
  map fst (combine xs ys) = xs /\ map snd (combine xs ys) = ys.
Proof.
  revert ys. induction xs as [|x xs IH]; intros [|y ys] Hlen; simpl in *;
    try discriminate; [auto|].
  destruct (IH ys) as [H1 H2]; [lia|]. now rewrite H1, H2.
Qed.

(** X26: the chunks the seed script makes of a document.  The pieces it
    splits the text into, joined by blank lines, give the text back; the
    chunks are those pieces, in the order of the text, that are longer
    than 50 code units once trimmed (so no chunk is blank); and the chunk
    indexes count the kept chunks from 0 without gaps or repeats. *)
Theorem chunks_of_document (content : js_string) :
  join_paragraphs (split_paragraphs content) = content /\
  (forall c, In c (chunks_of content) <->
     In c (split_paragraphs content) /\ (50 < List.length (trim c))%nat) /\
  (forall c, In c (chunks_of content) -> (50 < List.length c)%nat) /\
  map snd (chunk_rows content) = chunks_of content /\
  map fst (chunk_rows content)
  = map Z.of_nat (seq 0 (List.length (chunks_of content))) /\
  NoDup (map fst (chunk_rows content)).
Proof.
  assert (Hkept : forall c, In c (chunks_of content) <->
            In c (split_paragraphs content) /\ (50 < List.length (trim c))%nat).
  { intro c. unfold chunks_of. rewrite filter_In, Nat.ltb_lt. tauto. }
  assert (Hfst : map fst (chunk_rows content)
                 = map Z.of_nat (seq 0 (List.length (chunks_of content)))).
  { unfold chunk_rows. apply combine_projections.
    now rewrite length_map, length_seq. }
  split; [|split; [exact Hkept|split; [|split; [|split; [exact Hfst|]]]]].
  - unfold split_paragraphs.
    now rewrite (join_split_from (List.length content) content []).
  - intros c Hc. apply Hkept in Hc. pose proof (trim_length c). lia.
  - unfold chunk_rows. apply combine_projections.
    now rewrite length_map, length_seq.
  - rewrite Hfst. apply Finite.Injective_map_NoDup.
    + intros a b Hab. lia.
    + apply seq_NoDup.
Qed.

(* ----------------------------------------------------------------- *)
(** ** Updating the node embeddings *)

Lemma existsb_core {A B : Type} (core : A -> B) (P : B -> bool) (l : list A) :
  existsb (fun a => P (core a)) l = existsb P (map core l).
Proof. induction l as [|a l IH]; simpl; [reflexivity | now rewrite IH]. Qed.

Lemma find_shortest_path_same (s s' : store) (a b : uuid) (max_depth : Z) :
  (forall x, node_exists s' x = node_exists s x) -> kg_edges s' = kg_edges s ->
  find_shortest_path s' a b max_depth = find_shortest_path s a b max_depth.
Proof.
  intros Hex Hedges.
  unfold find_shortest_path, paths, paths_base, paths_step.
  now rewrite Hex, Hedges.
Qed.

Lemma adjacent_same_edges (s s' : store) (u v : uuid) :
  kg_edges s' = kg_edges s -> adjacent s u v -> adjacent s' u v.
Proof. intros Hedges (e & He & Hends). exists e. rewrite Hedges. auto. Qed.

Lemma update_node_embedding_frame (s : store) (x : uuid) (v : list Q) :
  map node_core (kg_nodes (after s (UpdateNodeEmbedding x v))) = map node_core (kg_nodes s) /\
  kg_edges (after s (UpdateNodeEmbedding x v)) = kg_edges s /\
  document_chunks (after s (UpdateNodeEmbedding x v)) = document_chunks s.
Proof.
  unfold after, apply_op.
  destruct (update_node_embedding s x v) as [e|s'] eqn:Hupd; [auto|].
  apply update_node_embedding_inr in Hupd. destruct Hupd as [-> _]. simpl.
  split; [|auto]. rewrite map_map. apply map_ext.
  intro n. now destruct (N.eqb (n_id n) x).
Qed.

Lemma update_each_frame (up : nat -> bool) (embedding_for : kg_node -> list Q)
      (fetched : list kg_node) :
  forall k s,
    map node_core (kg_nodes (update_each up embedding_for k fetched s))
    = map node_core (kg_nodes s) /\
    kg_edges (update_each up embedding_for k fetched s) = kg_edges s /\
    document_chunks (update_each up embedding_for k fetched s) = document_chunks s.
Proof.
  induction fetched as [|node rest IH]; intros k s; simpl; [auto|].
  destruct (IH (S k) (if up k
                      then after s (UpdateNodeEmbedding (n_id node) (embedding_for node))
                      else s)) as (Hn & He & Hc).
  rewrite Hn, He, Hc. destruct (up k); [|auto].
  apply update_node_embedding_frame.
Qed.

(** A node that is still without an embedding after a loop whose updates
    were all accepted was without one before, and no update was for its
    id. *)
Lemma update_each_missing (up : nat -> bool) (embedding_for : kg_node -> list Q)
      (fetched : list kg_node) :
  (forall k, up k = true) ->
  (forall n, List.length (embedding_for n) = 1536%nat) ->
  forall k s n',
    In n' (kg_nodes (update_each up embedding_for k fetched s)) ->
    n_embedding n' = None ->
    exists n, In n (kg_nodes s) /\ n_id n = n_id n' /\ n_embedding n = None /\
              ~ In (n_id n) (map n_id fetched).
Proof.
  intros Hup Hdim.
  induction fetched as [|node rest IH]; intros k s n' Hin Hnone; simpl in *.
  - exists n'. auto.
  - destruct (IH _ _ _ Hin Hnone) as (n1 & Hn1 & Hid & Hnone1 & Hrest).
    rewrite Hup in Hn1.
    unfold after, apply_op, update_node_embedding, vector_1536 in Hn1.
    rewrite Hdim, Nat.eqb_refl in Hn1. simpl in Hn1.
    apply in_map_iff in Hn1. destruct Hn1 as (n & Hf & Hn).
    destruct (N.eqb (n_id n) (n_id node)) eqn:Hx.
    + subst n1. discriminate Hnone1.
    + subst n1. exists n. split; [exact Hn|]. split; [exact Hid|].
      split; [exact Hnone1|].
      intros [Heq|Hr]; [|contradiction].
      apply N.eqb_neq in Hx. congruence.
Qed.

Lemma node_exists_same_cores (s s' : store) (x : uuid) :
  map node_core (kg_nodes s') = map node_core (kg_nodes s) ->
  node_exists s' x = node_exists s x.
Proof.
  intro Hsame. unfold node_exists.
  pose (P := fun c : uuid * string * option string * option jsonb =>
               N.eqb (fst (fst (fst c))) x).
  transitivity (existsb P (map node_core (kg_nodes s'))).
  - exact (existsb_core node_core P (kg_nodes s')).
  - rewrite Hsame. symmetry. exact (existsb_core node_core P (kg_nodes s)).
Qed.

(** X27: [updateNodeEmbeddings] writes embeddings and nothing else.  In
    whatever order the table holds its rows afterwards, the ids, labels,
    types and properties of the nodes are those of before, and so are the
    edges and the chunks, whichever calls fail; so [find_shortest_path]
    answers every call as before and, on a store whose edges reference
    stored nodes, [get_connected_nodes] returns the same nodes at the same
    depths.  When every store call succeeds, every embedding has 1536
    dimensions and the node table is fetched whole, no node is left
    without an embedding: [checkEmbeddings] counts none as missing. *)
Theorem updateNodeEmbeddings_effect
        (max_rows : option nat) (up : nat -> bool)
        (embedding_for : kg_node -> list Q) (s t : store) :
  nodes_reordered (updateNodeEmbeddings max_rows up embedding_for s) t ->
  Permutation (map node_core (kg_nodes t)) (map node_core (kg_nodes s)) /\
  kg_edges t = kg_edges s /\
  document_chunks t = document_chunks s /\
  (forall a b d, find_shortest_path t a b d = find_shortest_path s a b d) /\
  (edges_reference_nodes s ->
   forall n d, exists rows rows',
     get_connected_nodes s n d = Some rows /\
     get_connected_nodes t n d = Some rows' /\
     map id_depth rows' = map id_depth rows) /\
  ((forall k, up k = true) ->
   (forall n, List.length (embedding_for n) = 1536%nat) ->
   (forall k, max_rows = Some k -> (List.length (kg_nodes s) <= k)%nat) ->
   missing_embeddings t = O).
Proof.
  intro Hre.
  assert (Hframe : map node_core (kg_nodes (updateNodeEmbeddings max_rows up embedding_for s))
                   = map node_core (kg_nodes s) /\
                   kg_edges (updateNodeEmbeddings max_rows up embedding_for s) = kg_edges s /\
                   document_chunks (updateNodeEmbeddings max_rows up embedding_for s)
                   = document_chunks s).
  { unfold updateNodeEmbeddings. destruct (up 0%nat); [|auto]. apply update_each_frame. }
  destruct Hframe as (Hn & He & Hc).
  pose proof Hre as (Hperm & Hedges & Hchunks).
  assert (Hex : forall x, node_exists t x = node_exists s x).
  { intro x. rewrite (node_exists_reordered _ _ x Hre).
    now apply node_exists_same_cores. }
  assert (Hedges' : kg_edges t = kg_edges s) by congruence.
  split; [rewrite <- Hn; apply Permutation_map, Permutation_sym, Hperm|].
  split; [exact Hedges'|]. split; [congruence|].
  split; [intros a b d; now apply find_shortest_path_same|].
  split.
  - intros FK n d.
    assert (FKt : edges_reference_nodes t).
    { intros e Hin. rewrite Hedges' in Hin. rewrite !Hex. now apply FK. }
    destruct (node_graph_total s n d) as [all Hall].
    destruct (node_graph_total t n d) as [all' Hall'].
    exists (select_connected all), (select_connected all').
    assert (Hs : get_connected_nodes s n d = Some (select_connected all))
      by (unfold get_connected_nodes; now rewrite Hall).
    assert (Ht : get_connected_nodes t n d = Some (select_connected all'))
      by (unfold get_connected_nodes; now rewrite Hall').
    split; [exact Hs|]. split; [exact Ht|].
    destruct (node_exists s n) eqn:Hstart.
    + apply (connected_rows_determined s t n d); auto.
      * intros k v. split; apply reach_ext; intros u v';
          apply adjacent_same_edges; congruence.
      * now rewrite Hex.
    + rewrite (connected_of_missing_start s n d Hstart) in Hs.
      rewrite (connected_of_missing_start t n d) in Ht by now rewrite Hex.
      injection Hs as <-. injection Ht as <-. reflexivity.
  - intros Hup Hdim Hcap. unfold missing_embeddings.
    destruct (filter _ _) as [|n' rest] eqn:Hf; [reflexivity|exfalso].
    assert (Hin : In n' (n' :: rest)) by now left.
    rewrite <- Hf in Hin. apply filter_In in Hin. destruct Hin as [Hin Hnone].
    destruct (n_embedding n') eqn:Hemb; [discriminate|].
    apply (Permutation_in _ (Permutation_sym Hperm)) in Hin.
    unfold updateNodeEmbeddings in Hin.
    rewrite Hup, (select_all_whole max_rows (kg_nodes s) Hcap) in Hin.
    destruct (update_each_missing up embedding_for (kg_nodes s) Hup Hdim 1 s n' Hin Hemb)
      as (n & Hnin & _ & _ & Hnot).
    apply Hnot. now apply in_map.
Qed.

Lemma updateNodeEmbeddings_effect_witness :
  missing_embeddings
    (mk_store [mk_node 3%N "C" None None (Some unit_1536);
               mk_node 1%N "A" None None (Some unit_1536);
               mk_node 2%N "B" None None (Some unit_1536)]
              [edgeAB; edgeBC; edgeAC] [])
  = O.
Proof.
  destruct (updateNodeEmbeddings_effect None (fun _ => true) (fun _ => unit_1536)
              abc_store
              (mk_store [mk_node 3%N "C" None None (Some unit_1536);
                         mk_node 1%N "A" None None (Some unit_1536);
                         mk_node 2%N "B" None None (Some unit_1536)]
                        [edgeAB; edgeBC; edgeAC] []))
    as (_ & _ & _ & _ & _ & Hall).
  - split; [|split; reflexivity].
    change (kg_nodes (updateNodeEmbeddings None (fun _ => true) (fun _ => unit_1536)
                        abc_store))
      with ([mk_node 1%N "A" None None (Some unit_1536);
             mk_node 2%N "B" None None (Some unit_1536)]
              ++ [mk_node 3%N "C" None None (Some unit_1536)]).
    apply Permutation_sym.
    apply (Permutation_cons_append
             [mk_node 1%N "A" None None (Some unit_1536);
              mk_node 2%N "B" None None (Some unit_1536)]).
  - apply Hall; [intro; reflexivity | intro; reflexivity | discriminate].
Defined.
